(** * Modular arithmetic clock: a shallow embedding of [app.py]

    The numeric core of the application (modular arithmetic, Euclid's
    algorithm, trial-division primality, RSA key generation, the Chinese
    remainder theorem, Fermat's little theorem) and its two classical
    ciphers, followed by the properties stated for them.

    Python integers are unbounded, so they are [Z].  Python's [%] and [//]
    are the floor remainder and quotient, whose sign follows the divisor:
    on a non-zero divisor they are exactly [Z.modulo] and [Z.div].  On a
    zero divisor Python raises [ZeroDivisionError], which the embedding
    makes explicit in the [outcome] type, together with the two errors of
    the interpreter that the core can run into: [RecursionError], when the
    recursion of [extended_gcd] exceeds the limit on the depth of the call
    stack, and [OverflowError], when [math.sqrt] is given an integer too
    large for a double.

    A Python string is the list of its code points, so that [str.upper] is
    the upper-casing of Unicode and not only that of ASCII. *)

From Stdlib Require Import ZArith Zdivisibility Zcong List String Ascii Bool Lia.
From Stdlib Require Import Permutation.
Import ListNotations.

Local Open Scope Z_scope.

(** ** Outcomes of a Python call *)

(** The exceptions the core can raise. *)
Inductive exn : Type :=
| ZeroDivisionError
| IndexError
| ValueError (msg : string)
| RecursionError
| OverflowError.

(** A call returns a value, raises, or (in the embedding only) exhausts
    the iteration budget given to one of its loops.  Every budget below is
    shown to be large enough, so [OutOfFuel] never arises on the inputs
    the theorems speak about. *)
Inductive outcome (A : Type) : Type :=
| Ok (a : A)
| Raise (e : exn)
| OutOfFuel.

Arguments Ok {A} a.
Arguments Raise {A} e.
Arguments OutOfFuel {A}.

Definition bind {A B : Type} (c : outcome A) (k : A -> outcome B) : outcome B :=
  match c with
  | Ok a => k a
  | Raise e => Raise e
  | OutOfFuel => OutOfFuel
  end.

Notation "x <- c ;; k" := (bind c (fun x => k))
  (at level 61, c at next level, right associativity).

(** [a % b] *)
Definition py_mod (a b : Z) : outcome Z :=
  if b =? 0 then Raise ZeroDivisionError else Ok (a mod b).

(** [a // b] *)
Definition py_floordiv (a b : Z) : outcome Z :=
  if b =? 0 then Raise ZeroDivisionError else Ok (a / b).

(** [l[i]] for a list and a non-negative index. *)
Definition py_index {A : Type} (l : list A) (i : nat) : outcome A :=
  match nth_error l i with
  | Some v => Ok v
  | None => Raise IndexError
  end.

(** [range(start, stop, step)] for a positive step. *)
Definition py_range (start stop step : Z) : list Z :=
  map (fun k => start + step * Z.of_nat k)
      (seq 0 (Z.to_nat ((stop - start + step - 1) / step))).

(** ** Modular arithmetic (app.py, lines 10-31) *)

Definition mod_add (a b m : Z) : outcome Z :=
  r <- py_mod (a + b) m ;; py_mod (r + m) m.

Definition mod_subtract (a b m : Z) : outcome Z :=
  r <- py_mod (a - b) m ;; py_mod (r + m) m.

Definition mod_multiply (a b m : Z) : outcome Z :=
  r <- py_mod (a * b) m ;; py_mod (r + m) m.

(** The [while exp > 0] loop of [mod_power]: one unit of fuel per
    iteration. *)
Fixpoint mod_power_loop (fuel : nat) (result base exp m : Z) : outcome Z :=
  if exp >? 0 then
    match fuel with
    | O => OutOfFuel
    | S fuel' =>
        result' <- (if exp mod 2 =? 1 then py_mod (result * base) m
                    else Ok result) ;;
        let exp' := exp / 2 in
        base' <- py_mod (base * base) m ;;
        mod_power_loop fuel' result' base' exp' m
    end
  else Ok result.

(** The loop halves [exp], so it runs once per binary digit of [exp]. *)
Definition mod_power_fuel (exp : Z) : nat := S (Z.to_nat (Z.log2 exp)).

Definition mod_power (base exp m : Z) : outcome Z :=
  let result := 1 in
  base' <- py_mod base m ;;
  mod_power_loop (mod_power_fuel exp) result base' exp m.

(** ** Euclid's algorithm (app.py, lines 33-53) *)

(** [while b: a, b = b, a % b].  Inside the loop [b] is non-zero, so the
    remainder cannot raise. *)
Fixpoint gcd_loop (fuel : nat) (a b : Z) : outcome Z :=
  if b =? 0 then Ok a
  else
    match fuel with
    | O => OutOfFuel
    | S fuel' => gcd_loop fuel' b (a mod b)
    end.

(** Two steps of Euclid's algorithm at least halve the second argument,
    so twice its bit length bounds the number of steps. *)
Definition euclid_fuel (b : Z) : nat :=
  (2 * Z.to_nat (Z.log2 (Z.abs b) + 1))%nat.

Definition gcd (a b : Z) : outcome Z := gcd_loop (euclid_fuel b) a b.

(** The limit of CPython on the depth of the call stack,
    [sys.getrecursionlimit()], as the interpreter sets it at start-up; the
    program does not change it. *)
Definition recursion_limit : nat := 1000.

(** [extended_gcd] is recursive: it calls itself once per step of Euclid's
    algorithm, and every call, the last one with [b == 0] included, holds a
    frame of the call stack until it returns.  [frames] is the number of
    frames that the limit still allows when the call is made: with none
    left the call raises [RecursionError]. *)
Fixpoint extended_gcd_rec (frames : nat) (a b : Z) : outcome (Z * Z * Z) :=
  match frames with
  | O => Raise RecursionError
  | S frames' =>
      if b =? 0 then Ok (a, 1, 0)
      else
        r <- extended_gcd_rec frames' b (a mod b) ;;
        let '(gcd_val, x1, y1) := r in
        let x := y1 in
        let y := x1 - (a / b) * y1 in
        Ok (gcd_val, x, y)
  end.

(** The functions are taken as called from the top level of a script, whose
    code holds the first frame of the stack: [depth] counts the frames in
    use when a function is called.  A caller that sits deeper (a view under
    the web server) leaves fewer frames, and the versions of CPython differ
    by a frame or two in what they count; the properties below keep clear
    of the boundary by a wide margin. *)
Definition extended_gcd (a b : Z) : outcome (Z * Z * Z) :=
  extended_gcd_rec (recursion_limit - 1) a b.

(** [mod_inverse] called with [depth] frames in use: its own frame is one
    more, and [extended_gcd] gets what the limit leaves. *)
Definition mod_inverse_at (depth : nat) (a m : Z) : outcome Z :=
  r <- extended_gcd_rec (recursion_limit - S depth) a m ;;
  let '(gcd_val, x, _) := r in
  if negb (gcd_val =? 1) then
    Raise (ValueError "Modular inverse does not exist")
  else
    r <- py_mod x m ;; py_mod (r + m) m.

Definition mod_inverse (a m : Z) : outcome Z := mod_inverse_at 1 a m.

(** ** Primality by trial division (app.py, lines 55-66) *)

(** [math.sqrt] first converts its argument to a double, rounding to the
    nearest one.  The integers from [2^1024 - 2^970] on would round to
    [2^1024], which is no double: the conversion raises [OverflowError]
    ("int too large to convert to float"). *)
Definition float_overflow : Z := 2 ^ 1024 - 2 ^ 970.

(** [int(math.sqrt(n))], reached only for odd [n >= 3].  Below the overflow
    the embedding takes the exact integer square root.  The double root,
    truncated, is the exact root as long as [n] is below [2^52]; above, it
    can be too large, but stays below [n], which only adds trial divisors
    below [n] to the loop of [is_prime] and leaves its answer unchanged; it
    can fall below the exact root only for [n] of [2^106] and more.  Where a
    property says that composite numbers are rejected, it is stated for
    numbers below [2^106]. *)
Definition int_sqrt (n : Z) : outcome Z :=
  if float_overflow <=? n then Raise OverflowError else Ok (Z.sqrt n).

(** The [for i in range(...)] loop: [False] at the first exact divisor. *)
Fixpoint is_prime_loop (n : Z) (candidates : list Z) : bool :=
  match candidates with
  | [] => true
  | i :: rest => if n mod i =? 0 then false else is_prime_loop n rest
  end.

Definition is_prime (n : Z) : outcome bool :=
  if n <? 2 then Ok false
  else if n =? 2 then Ok true
  else if n mod 2 =? 0 then Ok false
  else
    root <- int_sqrt n ;;
    Ok (is_prime_loop n (py_range 3 (root + 1) 2)).

(** ** Ciphers (app.py, lines 72-103) *)

(** A character is its code point, so [ord] and [chr] are the identity;
    [chr] is only applied to numbers between 65 and 90. *)
Definition ord (c : Z) : Z := c.
Definition chr (i : Z) : Z := i.

(** The code points of a literal of ASCII characters. *)
Definition codepoints (s : string) : list Z :=
  map (fun c => Z.of_N (N_of_ascii c)) (list_ascii_of_string s).

(** ['A' <= char <= 'Z'] *)
Definition is_upper_letter (c : Z) : bool :=
  (65 <=? ord c) && (ord c <=? 90).

(** [str.upper] replaces every character by its full upper-case mapping in
    the Unicode character database, character by character and whatever
    the neighbours are; a mapping can hold up to three characters.  The
    tables are those of Unicode 14.0, the version of CPython 3.11.

    [upper_runs] lists the characters with a mapping of one character, in
    runs [(first, count, step, delta)]: the [count] code points [first],
    [first + step], ... each map to themselves plus [delta]. *)
Definition upper_runs : list (Z * Z * Z * Z) :=
  [
   (97, 26, 1, -32); (181, 1, 1, 743); (224, 23, 1, -32); (248, 7, 1, -32);
   (255, 1, 1, 121); (257, 24, 2, -1); (305, 1, 1, -232); (307, 3, 2, -1);
   (314, 8, 2, -1); (331, 23, 2, -1); (378, 3, 2, -1); (383, 1, 1, -300);
   (384, 1, 1, 195); (387, 2, 2, -1); (392, 1, 1, -1); (396, 1, 1, -1);
   (402, 1, 1, -1); (405, 1, 1, 97); (409, 1, 1, -1); (410, 1, 1, 163);
   (414, 1, 1, 130); (417, 3, 2, -1); (424, 1, 1, -1); (429, 1, 1, -1);
   (432, 1, 1, -1); (436, 2, 2, -1); (441, 1, 1, -1); (445, 1, 1, -1);
   (447, 1, 1, 56); (453, 1, 1, -1); (454, 1, 1, -2); (456, 1, 1, -1);
   (457, 1, 1, -2); (459, 1, 1, -1); (460, 1, 1, -2); (462, 8, 2, -1);
   (477, 1, 1, -79); (479, 9, 2, -1); (498, 1, 1, -1); (499, 1, 1, -2);
   (501, 1, 1, -1); (505, 20, 2, -1); (547, 9, 2, -1); (572, 1, 1, -1);
   (575, 2, 1, 10815); (578, 1, 1, -1); (583, 5, 2, -1); (592, 1, 1, 10783);
   (593, 1, 1, 10780); (594, 1, 1, 10782); (595, 1, 1, -210);
   (596, 1, 1, -206); (598, 2, 1, -205); (601, 1, 1, -202);
   (603, 1, 1, -203); (604, 1, 1, 42319); (608, 1, 1, -205);
   (609, 1, 1, 42315); (611, 1, 1, -207); (613, 1, 1, 42280);
   (614, 1, 1, 42308); (616, 1, 1, -209); (617, 1, 1, -211);
   (618, 1, 1, 42308); (619, 1, 1, 10743); (620, 1, 1, 42305);
   (623, 1, 1, -211); (625, 1, 1, 10749); (626, 1, 1, -213);
   (629, 1, 1, -214); (637, 1, 1, 10727); (640, 1, 1, -218);
   (642, 1, 1, 42307); (643, 1, 1, -218); (647, 1, 1, 42282);
   (648, 1, 1, -218); (649, 1, 1, -69); (650, 2, 1, -217); (652, 1, 1, -71);
   (658, 1, 1, -219); (669, 1, 1, 42261); (670, 1, 1, 42258);
   (837, 1, 1, 84); (881, 2, 2, -1); (887, 1, 1, -1); (891, 3, 1, 130);
   (940, 1, 1, -38); (941, 3, 1, -37); (945, 17, 1, -32); (962, 1, 1, -31);
   (963, 9, 1, -32); (972, 1, 1, -64); (973, 2, 1, -63); (976, 1, 1, -62);
   (977, 1, 1, -57); (981, 1, 1, -47); (982, 1, 1, -54); (983, 1, 1, -8);
   (985, 12, 2, -1); (1008, 1, 1, -86); (1009, 1, 1, -80); (1010, 1, 1, 7);
   (1011, 1, 1, -116); (1013, 1, 1, -96); (1016, 1, 1, -1); (1019, 1, 1, -1);
   (1072, 32, 1, -32); (1104, 16, 1, -80); (1121, 17, 2, -1);
   (1163, 27, 2, -1); (1218, 7, 2, -1); (1231, 1, 1, -15); (1233, 48, 2, -1);
   (1377, 38, 1, -48); (4304, 43, 1, 3008); (4349, 3, 1, 3008);
   (5112, 6, 1, -8); (7296, 1, 1, -6254); (7297, 1, 1, -6253);
   (7298, 1, 1, -6244); (7299, 2, 1, -6242); (7301, 1, 1, -6243);
   (7302, 1, 1, -6236); (7303, 1, 1, -6181); (7304, 1, 1, 35266);
   (7545, 1, 1, 35332); (7549, 1, 1, 3814); (7566, 1, 1, 35384);
   (7681, 75, 2, -1); (7835, 1, 1, -59); (7841, 48, 2, -1); (7936, 8, 1, 8);
   (7952, 6, 1, 8); (7968, 8, 1, 8); (7984, 8, 1, 8); (8000, 6, 1, 8);
   (8017, 4, 2, 8); (8032, 8, 1, 8); (8048, 2, 1, 74); (8050, 4, 1, 86);
   (8054, 2, 1, 100); (8056, 2, 1, 128); (8058, 2, 1, 112);
   (8060, 2, 1, 126); (8112, 2, 1, 8); (8126, 1, 1, -7205); (8144, 2, 1, 8);
   (8160, 2, 1, 8); (8165, 1, 1, 7); (8526, 1, 1, -28); (8560, 16, 1, -16);
   (8580, 1, 1, -1); (9424, 26, 1, -26); (11312, 48, 1, -48);
   (11361, 1, 1, -1); (11365, 1, 1, -10795); (11366, 1, 1, -10792);
   (11368, 3, 2, -1); (11379, 1, 1, -1); (11382, 1, 1, -1);
   (11393, 50, 2, -1); (11500, 2, 2, -1); (11507, 1, 1, -1);
   (11520, 38, 1, -7264); (11559, 1, 1, -7264); (11565, 1, 1, -7264);
   (42561, 23, 2, -1); (42625, 14, 2, -1); (42787, 7, 2, -1);
   (42803, 31, 2, -1); (42874, 2, 2, -1); (42879, 5, 2, -1);
   (42892, 1, 1, -1); (42897, 2, 2, -1); (42900, 1, 1, 48);
   (42903, 10, 2, -1); (42933, 8, 2, -1); (42952, 2, 2, -1);
   (42961, 1, 1, -1); (42967, 2, 2, -1); (42998, 1, 1, -1);
   (43859, 1, 1, -928); (43888, 80, 1, -38864); (65345, 26, 1, -32);
   (66600, 40, 1, -40); (66776, 36, 1, -40); (66967, 11, 1, -39);
   (66979, 15, 1, -39); (66995, 7, 1, -39); (67003, 2, 1, -39);
   (68800, 51, 1, -64); (71872, 32, 1, -32); (93792, 32, 1, -32);
   (125218, 34, 1, -34)
  ].

(** The characters whose upper-case mapping holds several characters, such
    as the sharp s (223), which becomes [SS]. *)
Definition upper_special : list (Z * list Z) :=
  [
   (223, [83; 83]); (329, [700; 78]); (496, [74; 780]);
   (912, [921; 776; 769]); (944, [933; 776; 769]); (1415, [1333; 1362]);
   (7830, [72; 817]); (7831, [84; 776]); (7832, [87; 778]);
   (7833, [89; 778]); (7834, [65; 702]); (8016, [933; 787]);
   (8018, [933; 787; 768]); (8020, [933; 787; 769]); (8022, [933; 787; 834]);
   (8064, [7944; 921]); (8065, [7945; 921]); (8066, [7946; 921]);
   (8067, [7947; 921]); (8068, [7948; 921]); (8069, [7949; 921]);
   (8070, [7950; 921]); (8071, [7951; 921]); (8072, [7944; 921]);
   (8073, [7945; 921]); (8074, [7946; 921]); (8075, [7947; 921]);
   (8076, [7948; 921]); (8077, [7949; 921]); (8078, [7950; 921]);
   (8079, [7951; 921]); (8080, [7976; 921]); (8081, [7977; 921]);
   (8082, [7978; 921]); (8083, [7979; 921]); (8084, [7980; 921]);
   (8085, [7981; 921]); (8086, [7982; 921]); (8087, [7983; 921]);
   (8088, [7976; 921]); (8089, [7977; 921]); (8090, [7978; 921]);
   (8091, [7979; 921]); (8092, [7980; 921]); (8093, [7981; 921]);
   (8094, [7982; 921]); (8095, [7983; 921]); (8096, [8040; 921]);
   (8097, [8041; 921]); (8098, [8042; 921]); (8099, [8043; 921]);
   (8100, [8044; 921]); (8101, [8045; 921]); (8102, [8046; 921]);
   (8103, [8047; 921]); (8104, [8040; 921]); (8105, [8041; 921]);
   (8106, [8042; 921]); (8107, [8043; 921]); (8108, [8044; 921]);
   (8109, [8045; 921]); (8110, [8046; 921]); (8111, [8047; 921]);
   (8114, [8122; 921]); (8115, [913; 921]); (8116, [902; 921]);
   (8118, [913; 834]); (8119, [913; 834; 921]); (8124, [913; 921]);
   (8130, [8138; 921]); (8131, [919; 921]); (8132, [905; 921]);
   (8134, [919; 834]); (8135, [919; 834; 921]); (8140, [919; 921]);
   (8146, [921; 776; 768]); (8147, [921; 776; 769]); (8150, [921; 834]);
   (8151, [921; 776; 834]); (8162, [933; 776; 768]); (8163, [933; 776; 769]);
   (8164, [929; 787]); (8166, [933; 834]); (8167, [933; 776; 834]);
   (8178, [8186; 921]); (8179, [937; 921]); (8180, [911; 921]);
   (8182, [937; 834]); (8183, [937; 834; 921]); (8188, [937; 921]);
   (64256, [70; 70]); (64257, [70; 73]); (64258, [70; 76]);
   (64259, [70; 70; 73]); (64260, [70; 70; 76]); (64261, [83; 84]);
   (64262, [83; 84]); (64275, [1348; 1350]); (64276, [1348; 1333]);
   (64277, [1348; 1339]); (64278, [1358; 1350]); (64279, [1348; 1341])
  ].

(** All the mappings, one entry per character that [str.upper] changes. *)
Definition upper_table : list (Z * list Z) :=
  flat_map (fun '(first, count, step, delta) =>
              map (fun k => let c := first + Z.of_nat k * step in
                            (c, [c + delta]))
                  (seq 0 (Z.to_nat count)))
           upper_runs
  ++ upper_special.

Fixpoint upper_lookup (c : Z) (table : list (Z * list Z)) : option (list Z) :=
  match table with
  | [] => None
  | (k, mapping) :: rest =>
      if c =? k then Some mapping else upper_lookup c rest
  end.

Definition upper_char (c : Z) : list Z :=
  match upper_lookup c upper_table with
  | Some mapping => mapping
  | None => [c]
  end.

(** [text.upper()] *)
Definition upper (text : list Z) : list Z := flat_map upper_char text.

(** The body of the [for char in text.upper()] loop of [caesar_cipher]. *)
Definition caesar_char (s : Z) (char : Z) : Z :=
  if is_upper_letter char then chr (((ord char - 65 + s) mod 26) + 65)
  else char.

Fixpoint caesar_loop (s : Z) (text : list Z) : list Z :=
  match text with
  | [] => []
  | char :: rest => caesar_char s char :: caesar_loop s rest
  end.

Definition caesar_cipher (text : list Z) (shift : Z) (decrypt : bool) : list Z :=
  let s := if decrypt then (26 - shift) mod 26 else shift mod 26 in
  caesar_loop s (upper text).

(** The [for char in text.upper()] loop of [vigenere_cipher], threading
    [key_index].  The key is indexed modulo its length, which raises
    [ZeroDivisionError] at the first letter when the key is empty. *)
Fixpoint vigenere_loop (key_upper : list Z) (decrypt : bool)
         (key_index : Z) (text : list Z) : outcome (list Z) :=
  match text with
  | [] => Ok []
  | char :: rest =>
      if is_upper_letter char then
        i <- py_mod key_index (Z.of_nat (List.length key_upper)) ;;
        k <- py_index key_upper (Z.to_nat i) ;;
        let shift := ord k - 65 in
        let shift := if decrypt then - shift else shift in
        let new_char := chr (((ord char - 65 + shift) mod 26 + 26) mod 26 + 65) in
        out <- vigenere_loop key_upper decrypt (key_index + 1) rest ;;
        Ok (new_char :: out)
      else
        out <- vigenere_loop key_upper decrypt key_index rest ;;
        Ok (char :: out)
  end.

Definition vigenere_cipher (text key : list Z) (decrypt : bool)
  : outcome (list Z) :=
  let key_upper := upper key in
  vigenere_loop key_upper decrypt 0 (upper text).

(** ** RSA (app.py, lines 109-140) *)

Record RSAKeyPair : Type := mkRSAKeyPair {
  rsa_n : Z;
  rsa_e : Z;
  rsa_d : Z;
  rsa_phi : Z
}.

(** [while gcd(e, phi) != 1: e += 2] *)
Fixpoint choose_e (fuel : nat) (e phi : Z) : outcome Z :=
  g <- gcd e phi ;;
  if negb (g =? 1) then
    match fuel with
    | O => OutOfFuel
    | S fuel' => choose_e fuel' (e + 2) phi
    end
  else Ok e.

(** [not is_prime(p) or not is_prime(q)]: the second test runs only when
    the first does not settle the disjunction. *)
Definition generate_rsa_keys (p q : Z) : outcome RSAKeyPair :=
  p_prime <- is_prime p ;;
  not_both <- (if negb p_prime then Ok true
               else q_prime <- is_prime q ;; Ok (negb q_prime)) ;;
  if not_both then
    Raise (ValueError "Both p and q must be prime")
  else
    let n := p * q in
    let phi := (p - 1) * (q - 1) in
    let e := 65537 in
    let e := if e >=? phi then 3 else e in
    e <- choose_e (Z.to_nat phi) e phi ;;
    d <- mod_inverse_at 2 e phi ;;
    Ok {| rsa_n := n; rsa_e := e; rsa_d := d; rsa_phi := phi |}.

Definition rsa_encrypt (message e n : Z) : outcome Z := mod_power message e n.

Definition rsa_decrypt (ciphertext d n : Z) : outcome Z := mod_power ciphertext d n.

(** ** Chinese remainder theorem (app.py, lines 146-161 and 384-397) *)

(** [M = 1; for m in moduli: M *= m] *)
Definition moduli_product (moduli : list Z) : Z := fold_left Z.mul moduli 1.

(** The [for i in range(len(moduli))] loop, accumulating [x].  It runs in
    the frame of [chinese_remainder_theorem], the second of the stack. *)
Fixpoint crt_loop (M : Z) (remainders moduli : list Z) (indices : list nat)
         (x : Z) : outcome Z :=
  match indices with
  | [] => Ok x
  | i :: rest =>
      mi <- py_index moduli i ;;
      Mi <- py_floordiv M mi ;;
      yi <- mod_inverse_at 2 Mi mi ;;
      ri <- py_index remainders i ;;
      crt_loop M remainders moduli rest (x + ri * Mi * yi)
  end.

Definition chinese_remainder_theorem (remainders moduli : list Z) : outcome Z :=
  if negb (List.length remainders =? List.length moduli)%nat then
    Raise (ValueError "Remainders and moduli must have same length")
  else
    let M := moduli_product moduli in
    x <- crt_loop M remainders moduli (seq 0 (List.length moduli)) 0 ;;
    py_mod x M.

(** The endpoint [crt_solve] pairs the solution with the modulus [M],
    which it recomputes. *)
Definition crt_solve (remainders moduli : list Z) : outcome (Z * Z) :=
  result <- chinese_remainder_theorem remainders moduli ;;
  Ok (result, moduli_product moduli).

(** ** Fermat's little theorem (app.py, lines 167-183) *)

Record FermatTrial : Type := mkFermatTrial {
  fermat_result : Z;
  fermat_steps : list (Z * Z)
}.

(** The loop that collects [{'exponent': i, 'result': a^i mod p}]. *)
Fixpoint fermat_steps_loop (a p : Z) (exponents : list Z) : outcome (list (Z * Z)) :=
  match exponents with
  | [] => Ok []
  | i :: rest =>
      step_result <- mod_power a i p ;;
      steps <- fermat_steps_loop a p rest ;;
      Ok ((i, step_result) :: steps)
  end.

Definition fermat_little_theorem (a p : Z) : outcome FermatTrial :=
  p_prime <- is_prime p ;;
  if negb p_prime then Raise (ValueError "p must be prime")
  else
    result <- mod_power a (p - 1) p ;;
    let max_steps := Z.min 10 (p - 1) in
    steps <- fermat_steps_loop a p (py_range 1 (max_steps + 1) 1) ;;
    Ok {| fermat_result := result; fermat_steps := steps |}.

(** ** API endpoints (app.py, lines 309-420)

    A view function reads the fields of the JSON object of the request
    with [data.get(key, default)] and returns a JSON body, alone (status
    200) or with status 400.  A request is modelled by its fields, each
    absent ([None]) or present with a value of the type the code expects;
    an exception that the view does not catch is the [Raise] outcome of the
    view.  The frames that the web server holds below a view are not
    counted: a view runs the core as the top level does. *)

(** The text of an error reply: a literal of the program, or [str(e)] of
    the exception caught, which is the message for a [ValueError]. *)
Inductive error_text : Type :=
| Message (s : string)
| StrOf (e : exn).

Definition str (e : exn) : error_text :=
  match e with
  | ValueError msg => Message msg
  | _ => StrOf e
  end.

(** [return jsonify(body)] and [return jsonify({'error': ...}), 400]. *)
Inductive reply (A : Type) : Type :=
| Json200 (body : A)
| Json400 (error : error_text).

Arguments Json200 {A} body.
Arguments Json400 {A} error.

(** [data.get(key, default)] *)
Definition get_default {A : Type} (field : option A) (default : A) : A :=
  match field with
  | Some v => v
  | None => default
  end.

(** [try: body except <caught> as e: handler(e)] *)
Definition try_except {A : Type} (body : outcome A) (caught : exn -> bool)
           (handler : exn -> outcome A) : outcome A :=
  match body with
  | Raise e => if caught e then handler e else Raise e
  | other => other
  end.

(** [except ValueError] *)
Definition is_ValueError (e : exn) : bool :=
  match e with
  | ValueError _ => true
  | _ => false
  end.

(** The dictionary [operations] of [modular_operation] and its lookup. *)
Definition operations : list (string * (Z -> Z -> Z -> outcome Z)) :=
  [("add"%string, mod_add); ("subtract"%string, mod_subtract);
   ("multiply"%string, mod_multiply); ("power"%string, mod_power)].

Fixpoint lookup {A : Type} (key : string) (table : list (string * A)) : option A :=
  match table with
  | [] => None
  | (k, v) :: rest => if String.eqb key k then Some v else lookup key rest
  end.

Definition modular_operation (a b m : option Z) (operation : option string)
  : outcome (reply Z) :=
  let a := get_default a 0 in
  let b := get_default b 0 in
  let m := get_default m 12 in
  let operation := get_default operation "add"%string in
  match lookup operation operations with
  | None => Ok (Json400 (Message "Invalid operation"))
  | Some f => result <- f a b m ;; Ok (Json200 result)
  end.

Definition caesar (text : option (list Z)) (shift : option Z)
           (decrypt : option bool) : outcome (reply (list Z)) :=
  let text := get_default text [] in
  let shift := get_default shift 3 in
  let decrypt := get_default decrypt false in
  let result := caesar_cipher text shift decrypt in
  Ok (Json200 result).

Definition vigenere (text key : option (list Z)) (decrypt : option bool)
  : outcome (reply (list Z)) :=
  let text := get_default text [] in
  let key := get_default key (codepoints "KEY") in
  let decrypt := get_default decrypt false in
  result <- vigenere_cipher text key decrypt ;;
  Ok (Json200 result).

Definition rsa_generate (p q : option Z) : outcome (reply RSAKeyPair) :=
  let p := get_default p 61 in
  let q := get_default q 53 in
  try_except
    (keys <- generate_rsa_keys p q ;; Ok (Json200 keys))
    is_ValueError
    (fun e => Ok (Json400 (str e))).

Definition rsa_encrypt_endpoint (message e n : option Z) : outcome (reply Z) :=
  let message := get_default message 0 in
  let e := get_default e 0 in
  let n := get_default n 0 in
  result <- rsa_encrypt message e n ;;
  Ok (Json200 result).

Definition rsa_decrypt_endpoint (ciphertext d n : option Z) : outcome (reply Z) :=
  let ciphertext := get_default ciphertext 0 in
  let d := get_default d 0 in
  let n := get_default n 0 in
  result <- rsa_decrypt ciphertext d n ;;
  Ok (Json200 result).

Definition fermat_verify (a p : option Z) : outcome (reply FermatTrial) :=
  let a := get_default a 2 in
  let p := get_default p 7 in
  try_except
    (result <- fermat_little_theorem a p ;; Ok (Json200 result))
    is_ValueError
    (fun e => Ok (Json400 (str e))).

(** [check_prime]: the body pairs [n] with [is_prime(n)]. *)
Definition check_prime (n : Z) : outcome (Z * bool) :=
  prime <- is_prime n ;; Ok (n, prime).

(** ** Notions used to state and prove the properties *)

(** The budget invariant of Euclid's algorithm.  Either the second argument
    is below [2^n] and [2n] steps remain, or the call is the second of a
    pair: the arguments have one sign, the second is the smaller, the first
    is below [2^(n+1)], and [2n+1] steps remain. *)
Definition euclid_budget (fuel : nat) (a b : Z) : Prop :=
  exists n : nat,
    (Z.abs b < 2 ^ Z.of_nat n /\ (2 * n <= fuel)%nat) \/
    (Z.abs b < Z.abs a < 2 ^ (Z.of_nat n + 1) /\ 0 <= a * b /\
     (2 * n + 1 <= fuel)%nat).

(** The first component that Euclid's algorithm ends with: the greatest
    common divisor with the sign of the second argument, or the first
    argument when the second is zero. *)
Definition euclid_gcd (a b : Z) : Z :=
  if b <? 0 then - Z.gcd a b else if b =? 0 then a else Z.gcd a b.

(** What [mod_inverse] returns when the stack is deep enough: the first
    Bezout coefficient of the recursion, reduced. *)
Definition euclid_inverse (a m : Z) : Z :=
  match extended_gcd_rec (S (euclid_fuel m)) a m with
  | Ok (_, x, _) => x mod m
  | _ => 0
  end.

(** Consecutive Fibonacci numbers, the pairs on which Euclid's algorithm
    takes the most steps for their size. *)
Fixpoint fib_pair (n : nat) : Z * Z :=
  match n with
  | O => (0, 1)
  | S k => let '(a, b) := fib_pair k in (b, a + b)
  end.

Definition fib (n : nat) : Z := fst (fib_pair n).

(** Products of lists of integers, and the residues [1 .. p-1]. *)
Definition list_product (l : list Z) : Z := fold_right Z.mul 1 l.

Definition residues (p : Z) : list Z :=
  map Z.of_nat (seq 1 (Z.to_nat (p - 1))).

(** The moduli at two different positions are coprime. *)
Definition pairwise_coprime (moduli : list Z) : Prop :=
  ForallOrdPairs (fun m1 m2 => Z.gcd m1 m2 = 1) moduli.

(** The value that the loop of [chinese_remainder_theorem] adds up. *)
Fixpoint crt_sum (M : Z) (remainders moduli : list Z) : Z :=
  match remainders, moduli with
  | r :: remainders', m :: moduli' =>
      r * (M / m) * euclid_inverse (M / m) m + crt_sum M remainders' moduli'
  | _, _ => 0
  end.

(** Odd primes from the seed of the exponent search on, enough of them for
    their product to exceed every [phi] the search can be started with:
    [65537] for the seed [3], and [2^2048] for the seed [65537]. *)
Definition is_prime_true (n : Z) : bool :=
  match is_prime n with
  | Ok true => true
  | _ => false
  end.

Definition small_exponents : list Z := [3; 5; 7; 11; 13; 17].

Definition large_exponents : list Z :=
  filter is_prime_true (py_range 65537 66944 2).

(** Does the text contain a character in ['A'..'Z']? *)
Fixpoint has_letter (text : list Z) : bool :=
  match text with
  | [] => false
  | c :: rest => is_upper_letter c || has_letter rest
  end.

(** The characters that [str.upper] leaves as they are. *)
Definition upper_fixed (c : Z) : bool :=
  match upper_lookup c upper_table with
  | Some _ => false
  | None => true
  end.

(** ** Concrete runs *)

Example mod_add_7_8_12 : mod_add 7 8 12 = Ok 3.
Proof. reflexivity. Qed.

Example mod_subtract_negative : mod_subtract 3 10 12 = Ok 5.
Proof. reflexivity. Qed.

Example mod_power_2_10_1000 : mod_power 2 10 1000 = Ok 24.
Proof. reflexivity. Qed.

Example extended_gcd_17_3120 : extended_gcd 17 3120 = Ok (1, -367, 2).
Proof. vm_compute. reflexivity. Qed.

Example is_prime_spot_checks :
  map is_prime [2; 3; 61; 53; 1; 4; 100; 9; 25; 49]
  = map Ok [true; true; true; true; false; false; false; false; false; false].
Proof. vm_compute. reflexivity. Qed.

(** An odd number too large for a double is never tested. *)
Example is_prime_overflow_run : is_prime (2 ^ 1279 - 1) = Raise OverflowError.
Proof. vm_compute. reflexivity. Qed.

Example upper_sharp_s :
  upper (codepoints "Stra" ++ [223] ++ codepoints "e") = codepoints "STRASSE".
Proof. vm_compute. reflexivity. Qed.

Example caesar_HELLO :
  caesar_cipher (codepoints "HELLO") 3 false = codepoints "KHOOR" /\
  caesar_cipher (codepoints "KHOOR") 3 true = codepoints "HELLO".
Proof. split; vm_compute; reflexivity. Qed.

(** The sharp s becomes [SS], which is shifted like any other letters. *)
Example caesar_sharp_s : caesar_cipher [223] 3 false = codepoints "VV".
Proof. vm_compute. reflexivity. Qed.

Example vigenere_HELLO :
  vigenere_cipher (codepoints "Hello, World") (codepoints "Key") false
  = Ok (codepoints "RIJVS, UYVJN") /\
  vigenere_cipher (codepoints "RIJVS, UYVJN") (codepoints "KEY") true
  = Ok (codepoints "HELLO, WORLD").
Proof. split; vm_compute; reflexivity. Qed.

(** A key with an accent is upper-cased as Unicode has it: e acute (233)
    becomes E acute (201), the shift [201 - 65]. *)
Example vigenere_accented_key :
  vigenere_cipher (codepoints "AB") [233] false = Ok (codepoints "GH").
Proof. vm_compute. reflexivity. Qed.

Example generate_rsa_keys_61_53 :
  generate_rsa_keys 61 53
  = Ok {| rsa_n := 3233; rsa_e := 7; rsa_d := 1783; rsa_phi := 3120 |}.
Proof. vm_compute. reflexivity. Qed.

Example fermat_2_7 :
  fermat_little_theorem 2 7
  = Ok {| fermat_result := 1;
          fermat_steps := [(1, 2); (2, 4); (3, 1); (4, 2); (5, 4); (6, 1)] |}.
Proof. vm_compute. reflexivity. Qed.

Example crt_textbook : crt_solve [2; 3; 2] [3; 5; 7] = Ok (23, 105).
Proof. vm_compute. reflexivity. Qed.

(** Euclid's algorithm on two consecutive Fibonacci numbers makes as many
    calls as the index of the smaller: a thousand for [fib 1000], more
    than the stack allows. *)
Example extended_gcd_fib_1000 :
  extended_gcd (fib 1001) (fib 1000) = Raise RecursionError.
Proof. vm_compute. reflexivity. Qed.

Example mod_inverse_fib_1000 :
  0 < fib 1000 /\ Z.gcd (fib 1001) (fib 1000) = 1 /\
  mod_inverse (fib 1001) (fib 1000) = Raise RecursionError.
Proof.
  split; [vm_compute; reflexivity |].
  split; vm_compute; reflexivity.
Qed.

(** ** Reasoning about outcomes *)

Lemma py_mod_ok (a b : Z) : b <> 0 -> py_mod a b = Ok (a mod b).
Proof.
  intros Hb. unfold py_mod.
  destruct (Z.eqb_spec b 0); [contradiction | reflexivity].
Qed.

Lemma py_mod_zero (a : Z) : py_mod a 0 = Raise ZeroDivisionError.
Proof. reflexivity. Qed.

Lemma py_floordiv_ok (a b : Z) : b <> 0 -> py_floordiv a b = Ok (a / b).
Proof.
  intros Hb. unfold py_floordiv.
  destruct (Z.eqb_spec b 0); [contradiction | reflexivity].
Qed.

Lemma bind_ok {A B : Type} (c : outcome A) (k : A -> outcome B) (b : B) :
  bind c k = Ok b -> exists a, c = Ok a /\ k a = Ok b.
Proof.
  destruct c as [a | e | ]; simpl; intros H; try discriminate.
  exists a. split; [reflexivity | exact H].
Qed.

(** The normalisation [((x % m) + m) % m] used by add, subtract, multiply
    and the modular inverse. *)
Lemma normalise_mod (x m : Z) : m <> 0 -> (x mod m + m) mod m = x mod m.
Proof.
  intros Hm.
  replace (x mod m + m) with (x mod m + 1 * m) by ring.
  rewrite Z.mod_add by exact Hm. apply Z.mod_mod. exact Hm.
Qed.

Lemma mod_add_value (a b m : Z) : m <> 0 -> mod_add a b m = Ok ((a + b) mod m).
Proof.
  intros Hm. unfold mod_add. rewrite py_mod_ok by exact Hm. simpl.
  rewrite py_mod_ok by exact Hm. now rewrite normalise_mod.
Qed.

Lemma mod_subtract_value (a b m : Z) :
  m <> 0 -> mod_subtract a b m = Ok ((a - b) mod m).
Proof.
  intros Hm. unfold mod_subtract. rewrite py_mod_ok by exact Hm. simpl.
  rewrite py_mod_ok by exact Hm. now rewrite normalise_mod.
Qed.

Lemma mod_multiply_value (a b m : Z) :
  m <> 0 -> mod_multiply a b m = Ok ((a * b) mod m).
Proof.
  intros Hm. unfold mod_multiply. rewrite py_mod_ok by exact Hm. simpl.
  rewrite py_mod_ok by exact Hm. now rewrite normalise_mod.
Qed.

(** Addition, subtraction and multiplication land in [[0, m)]. *)
Lemma mod_add_range (a b m : Z) :
  0 < m -> exists r, mod_add a b m = Ok r /\ 0 <= r < m.
Proof.
  intros Hm. exists ((a + b) mod m). split.
  - apply mod_add_value. lia.
  - apply Z.mod_pos_bound. exact Hm.
Qed.

Lemma mod_subtract_range (a b m : Z) :
  0 < m -> exists r, mod_subtract a b m = Ok r /\ 0 <= r < m.
Proof.
  intros Hm. exists ((a - b) mod m). split.
  - apply mod_subtract_value. lia.
  - apply Z.mod_pos_bound. exact Hm.
Qed.

Lemma mod_multiply_range (a b m : Z) :
  0 < m -> exists r, mod_multiply a b m = Ok r /\ 0 <= r < m.
Proof.
  intros Hm. exists ((a * b) mod m). split.
  - apply mod_multiply_value. lia.
  - apply Z.mod_pos_bound. exact Hm.
Qed.

(** ** Square-and-multiply *)

(** With fuel for every binary digit of a positive [exp], the loop returns
    [result * base ^ exp] reduced modulo [m]. *)
Lemma mod_power_loop_pos (fuel : nat) :
  forall result base exp m,
    m <> 0 -> 0 < exp -> Z.log2 exp < Z.of_nat fuel ->
    mod_power_loop fuel result base exp m = Ok ((result * base ^ exp) mod m).
Proof.
  induction fuel as [| fuel IH]; intros result base exp m Hm Hexp Hfuel.
  - pose proof (Z.log2_nonneg exp). simpl in Hfuel. lia.
  - cbn [mod_power_loop].
    destruct (Z.gtb_spec exp 0) as [_ | Hle]; [| lia].
    rewrite !py_mod_ok by exact Hm.
    pose proof (Z.div_mod exp 2 ltac:(lia)) as Hdm.
    pose proof (Z.mod_pos_bound exp 2 ltac:(lia)) as Hbound.
    assert (Hsq : forall k, 0 <= k -> base ^ (2 * k) = (base * base) ^ k).
    { intros k Hk. rewrite Z.pow_mul_r by lia. now rewrite Z.pow_2_r. }
    destruct (Z.eq_dec (exp / 2) 0) as [Hz | Hnz].
    + (* the last iteration: exp = 1 *)
      assert (exp = 1) by lia. subst exp.
      change (1 mod 2 =? 1) with true. cbn [bind].
      change (1 / 2) with 0.
      destruct fuel; cbn [mod_power_loop]; change (0 >? 0) with false;
        cbv iota; now rewrite Z.pow_1_r.
    + assert (Hhalf : 0 < exp / 2) by (pose proof (Z.div_pos exp 2); lia).
      assert (Hlog : Z.log2 (exp / 2) < Z.of_nat fuel).
      { replace (exp / 2) with (Z.shiftr exp 1)
          by (rewrite Z.shiftr_div_pow2 by lia; reflexivity).
        rewrite Z.log2_shiftr by lia.
        assert (1 <= Z.log2 exp) by (apply Z.log2_le_pow2; lia). lia. }
      destruct (Z.eqb_spec (exp mod 2) 1) as [Hodd | Heven]; cbn [bind].
      * rewrite IH by assumption.
        f_equal.
        replace (base ^ exp) with (base * (base * base) ^ (exp / 2)).
        2:{ rewrite <- Hsq by lia. rewrite <- Z.pow_succ_r by lia.
            f_equal. lia. }
        rewrite <- Z.mul_mod_idemp_r by exact Hm.
        rewrite Z.mod_pow_l.
        rewrite Z.mul_mod_idemp_l by exact Hm.
        rewrite Z.mul_mod_idemp_r by exact Hm.
        f_equal. ring.
      * rewrite IH by assumption.
        f_equal.
        replace (base ^ exp) with ((base * base) ^ (exp / 2)).
        2:{ rewrite <- Hsq by lia. f_equal. lia. }
        rewrite <- Z.mul_mod_idemp_r by exact Hm.
        rewrite Z.mod_pow_l.
        now rewrite Z.mul_mod_idemp_r by exact Hm.
Qed.

(** For a positive exponent [mod_power] is [base ^ exp mod m]. *)
Lemma mod_power_pos (base exp m : Z) :
  m <> 0 -> 0 < exp -> mod_power base exp m = Ok (base ^ exp mod m).
Proof.
  intros Hm Hexp. unfold mod_power. rewrite py_mod_ok by exact Hm.
  cbn [bind]. rewrite mod_power_loop_pos.
  - rewrite Z.mul_1_l. now rewrite Z.mod_pow_l.
  - exact Hm.
  - exact Hexp.
  - unfold mod_power_fuel. pose proof (Z.log2_nonneg exp). lia.
Qed.

(** For an exponent that is zero or negative the loop body never runs and
    the initial [result = 1] is returned as it is. *)
Lemma mod_power_nonpos (base exp m : Z) :
  m <> 0 -> exp <= 0 -> mod_power base exp m = Ok 1.
Proof.
  intros Hm Hexp. unfold mod_power. rewrite py_mod_ok by exact Hm.
  cbn [bind]. unfold mod_power_fuel. cbn [mod_power_loop].
  destruct (Z.gtb_spec exp 0) as [Hgt | _]; [lia | reflexivity].
Qed.

(** [mod_power] always returns within its budget: it raises on a zero
    modulus and otherwise yields the power, or [1] when the loop does not
    run. *)
Lemma mod_power_returns (base exp m : Z) :
  mod_power base exp m
  = if m =? 0 then Raise ZeroDivisionError
    else Ok (if exp >? 0 then base ^ exp mod m else 1).
Proof.
  destruct (Z.eqb_spec m 0) as [-> | Hm]; [reflexivity |].
  destruct (Z.gtb_spec exp 0) as [Hpos | Hle].
  - apply mod_power_pos; assumption.
  - apply mod_power_nonpos; assumption.
Qed.

(** Apart from the corner [exp = 0], [m = 1], the result is in [[0, m)]. *)
Lemma mod_power_range (base exp m : Z) :
  0 < m -> 0 <= exp -> (0 < exp \/ 1 < m) ->
  exists r, mod_power base exp m = Ok r /\ 0 <= r < m.
Proof.
  intros Hm Hexp Hcorner.
  destruct (Z.eq_dec exp 0) as [-> | Hnz].
  - exists 1. split; [apply mod_power_nonpos; lia | lia].
  - exists (base ^ exp mod m). split.
    + apply mod_power_pos; lia.
    + apply Z.mod_pos_bound. exact Hm.
Qed.

(** ** Euclid's algorithm: termination within the budget *)

Lemma euclid_budget_zero (a b : Z) : euclid_budget 0 a b -> b = 0.
Proof.
  intros [n [[Hb Hn] | [_ [_ Hn]]]]; [| lia].
  assert (n = 0%nat) by lia. subst n. simpl in Hb. lia.
Qed.

Lemma euclid_budget_step (fuel : nat) (a b : Z) :
  b <> 0 -> euclid_budget (S fuel) a b -> euclid_budget fuel b (a mod b).
Proof.
  intros Hb [n [[Hlt Hn] | [[Hba Ha] [Hsign Hn]]]].
  - destruct n as [| n].
    { simpl in Hlt. lia. }
    exists n. right.
    rewrite Nat2Z.inj_succ, <- Z.add_1_r in Hlt.
    pose proof (Z.mod_bound_or a b Hb) as Hr.
    repeat split; try lia; nia.
  - exists n. left.
    rewrite Z.pow_add_r, Z.pow_1_r in Ha by lia.
    pose proof (Z.mod_bound_or a b Hb) as Hr.
    pose proof (Z.div_mod a b Hb) as Hdm.
    assert (Hq : 1 <= a / b).
    { destruct (Z.lt_trichotomy b 0) as [Hneg | [Hz | Hpos]]; [| lia |].
      - assert (a < b) by nia.
        destruct (Z.le_gt_cases 1 (a / b)) as [Hge | Hlt]; [exact Hge |].
        assert (b * (a / b) >= b * 0) by nia. nia.
      - assert (b < a) by nia.
        apply Z.div_le_lower_bound; lia. }
    split; [| lia].
    destruct (Z.lt_trichotomy b 0) as [Hneg | [Hz | Hpos]]; [| lia |]; nia.
Qed.

Lemma euclid_fuel_budget (a b : Z) : euclid_budget (euclid_fuel b) a b.
Proof.
  exists (Z.to_nat (Z.log2 (Z.abs b) + 1)). left.
  pose proof (Z.log2_nonneg (Z.abs b)) as Hlog.
  split; [| unfold euclid_fuel; lia].
  rewrite Z2Nat.id by lia.
  destruct (Z.eq_dec b 0) as [-> | Hb].
  - simpl. lia.
  - rewrite Z.add_1_r. apply Z.log2_spec. lia.
Qed.
(** A second argument below [2^n] leaves a budget of [2n] steps. *)
Lemma euclid_budget_bits (n fuel : nat) (a b : Z) :
  Z.abs b < 2 ^ Z.of_nat n -> (2 * n <= fuel)%nat -> euclid_budget fuel a b.
Proof. intros Hb Hn. exists n. left. split; assumption. Qed.

(** The loop of [gcd] ends within the budget, on the greatest common
    divisor up to sign; the sign is that of the second argument. *)
Lemma gcd_loop_spec (fuel : nat) :
  forall a b,
    euclid_budget fuel a b ->
    exists g,
      gcd_loop fuel a b = Ok g /\
      Z.abs g = Z.gcd a b /\
      (0 <= b -> (b = 0 -> 0 <= a) -> 0 <= g) /\
      (b <= 0 -> (b = 0 -> a <= 0) -> g <= 0).
Proof.
  induction fuel as [| fuel IH]; intros a b Hbudget.
  - apply euclid_budget_zero in Hbudget. subst b. simpl.
    exists a. repeat split; try lia.
    now rewrite Z.gcd_0_r.
  - cbn [gcd_loop].
    destruct (Z.eqb_spec b 0) as [-> | Hb].
    + exists a. repeat split; try lia.
      now rewrite Z.gcd_0_r.
    + apply euclid_budget_step in Hbudget; [| exact Hb].
      destruct (IH _ _ Hbudget) as (g & Hrec & Hgcd & Hpos & Hneg).
      exists g. split; [exact Hrec |]. split; [| split].
      * rewrite Hgcd, Z.gcd_mod_r. apply Z.gcd_comm.
      * intros Hnonneg _. apply Hpos; [| lia].
        pose proof (Z.mod_pos_bound a b ltac:(lia)). lia.
      * intros Hnonpos _. apply Hneg; [| lia].
        pose proof (Z.mod_neg_bound a b ltac:(lia)). lia.
Qed.

Lemma euclid_gcd_sign (a b g : Z) :
  Z.abs g = Z.gcd a b ->
  (0 <= b -> (b = 0 -> 0 <= a) -> 0 <= g) ->
  (b <= 0 -> (b = 0 -> a <= 0) -> g <= 0) ->
  (b = 0 -> g = a) ->
  g = euclid_gcd a b.
Proof.
  intros Habs Hpos Hneg Hzero. unfold euclid_gcd.
  destruct (Z.ltb_spec b 0) as [Hb | Hb]; [lia |].
  destruct (Z.eqb_spec b 0) as [-> | Hnz]; [now apply Hzero | lia].
Qed.

(** [gcd] returns on every pair of integers. *)
Lemma gcd_value (a b : Z) : gcd a b = Ok (euclid_gcd a b).
Proof.
  destruct (gcd_loop_spec (euclid_fuel b) a b (euclid_fuel_budget a b))
    as (g & Hrun & Habs & Hpos & Hneg).
  unfold gcd. rewrite Hrun. f_equal.
  apply euclid_gcd_sign; try assumption.
  intros ->. unfold euclid_fuel in Hrun. simpl in Hrun. congruence.
Qed.

Lemma gcd_total (a b : Z) : exists g, gcd a b = Ok g /\ Z.abs g = Z.gcd a b.
Proof.
  exists (euclid_gcd a b). split; [apply gcd_value |].
  unfold euclid_gcd. pose proof (Z.gcd_nonneg a b).
  destruct (Z.ltb_spec b 0); [lia |].
  destruct (Z.eqb_spec b 0) as [-> | ]; [| lia].
  now rewrite Z.gcd_0_r.
Qed.

Lemma gcd_pos (a b : Z) : 0 < b -> gcd a b = Ok (Z.gcd a b).
Proof.
  intros Hb. rewrite gcd_value. unfold euclid_gcd.
  destruct (Z.ltb_spec b 0); [lia |].
  destruct (Z.eqb_spec b 0); [lia | reflexivity].
Qed.

(** ** The recursion of [extended_gcd] *)

(** Whatever the recursion returns are Bezout coefficients of the value
    that [gcd] computes. *)
Lemma extended_gcd_rec_sound (frames : nat) :
  forall a b g x y,
    extended_gcd_rec frames a b = Ok (g, x, y) ->
    a * x + b * y = g /\ Z.abs g = Z.gcd a b /\ g = euclid_gcd a b.
Proof.
  induction frames as [| frames IH]; intros a b g x y Hrun;
    cbn [extended_gcd_rec] in Hrun; [discriminate |].
  destruct (Z.eqb_spec b 0) as [-> | Hb].
  - injection Hrun as <- <- <-. unfold euclid_gcd. simpl.
    rewrite Z.gcd_0_r. repeat split; lia.
  - apply bind_ok in Hrun. destruct Hrun as ([[g' x1] y1] & Hrec & Hret).
    injection Hret as <- <- <-.
    destruct (IH _ _ _ _ _ Hrec) as (Hbez & Habs & Hval).
    pose proof (Z.div_mod a b Hb) as Hdm.
    assert (Hgcd : Z.gcd b (a mod b) = Z.gcd a b)
      by (rewrite Z.gcd_mod_r; apply Z.gcd_comm).
    split; [| split].
    + rewrite <- Hbez. rewrite Hdm at 1. ring.
    + now rewrite Habs.
    + rewrite Hval. unfold euclid_gcd. rewrite Hgcd.
      pose proof (Z.gcd_nonneg a b) as Hnonneg.
      assert (Hnz : Z.gcd a b <> 0).
      { intros Hz. apply Z.gcd_eq_0_r in Hz. contradiction. }
      destruct (Z.ltb_spec b 0) as [Hneg | Hpos].
      * pose proof (Z.mod_neg_bound a b Hneg) as Hr.
        destruct (Z.ltb_spec (a mod b) 0); [reflexivity |].
        destruct (Z.eqb_spec (a mod b) 0) as [Hz | ]; [| lia].
        rewrite Hz, Z.gcd_0_r in Hgcd. lia.
      * destruct (Z.eqb_spec b 0); [contradiction |].
        pose proof (Z.mod_pos_bound a b ltac:(lia)) as Hr.
        destruct (Z.ltb_spec (a mod b) 0); [lia |].
        destruct (Z.eqb_spec (a mod b) 0) as [Hz | ]; [| reflexivity].
        rewrite Hz, Z.gcd_0_r in Hgcd. lia.
Qed.

(** It either returns or runs out of frames. *)
Lemma extended_gcd_rec_outcomes (frames : nat) :
  forall a b,
    extended_gcd_rec frames a b = Raise RecursionError \/
    exists g x y, extended_gcd_rec frames a b = Ok (g, x, y).
Proof.
  induction frames as [| frames IH]; intros a b; cbn [extended_gcd_rec];
    [now left |].
  destruct (b =? 0); [right; now exists a, 1, 0 |].
  destruct (IH b (a mod b)) as [Hrec | (g & x1 & y1 & Hrec)]; rewrite Hrec.
  - now left.
  - right. cbn [bind]. eexists. eexists. eexists. reflexivity.
Qed.

(** More frames do not change a result. *)
Lemma extended_gcd_rec_mono (frames : nat) :
  forall (frames' : nat) a b r,
    extended_gcd_rec frames a b = Ok r -> (frames <= frames')%nat ->
    extended_gcd_rec frames' a b = Ok r.
Proof.
  induction frames as [| frames IH]; intros frames' a b r Hrun Hle;
    cbn [extended_gcd_rec] in Hrun; [discriminate |].
  destruct frames' as [| frames']; [lia |].
  cbn [extended_gcd_rec].
  destruct (b =? 0); [exact Hrun |].
  apply bind_ok in Hrun. destruct Hrun as (r' & Hrec & Hret).
  rewrite (IH frames' _ _ _ Hrec) by lia. exact Hret.
Qed.

Lemma extended_gcd_rec_unique (frames frames' : nat) (a b : Z)
      (r r' : Z * Z * Z) :
  extended_gcd_rec frames a b = Ok r -> extended_gcd_rec frames' a b = Ok r' ->
  r = r'.
Proof.
  intros Hr Hr'.
  apply (extended_gcd_rec_mono _ (Nat.max frames frames')) in Hr; [| lia].
  apply (extended_gcd_rec_mono _ (Nat.max frames frames')) in Hr'; [| lia].
  congruence.
Qed.

(** One frame more than the budget of steps is enough. *)
Lemma extended_gcd_rec_returns (fuel : nat) :
  forall a b,
    euclid_budget fuel a b ->
    exists g x y, extended_gcd_rec (S fuel) a b = Ok (g, x, y).
Proof.
  induction fuel as [| fuel IH]; intros a b Hbudget.
  - apply euclid_budget_zero in Hbudget. subst b. now exists a, 1, 0.
  - cbn [extended_gcd_rec].
    destruct (Z.eqb_spec b 0) as [-> | Hb]; [now exists a, 1, 0 |].
    apply euclid_budget_step in Hbudget; [| exact Hb].
    destruct (IH _ _ Hbudget) as (g & x1 & y1 & Hrec).
    cbn [extended_gcd_rec] in Hrec. rewrite Hrec. cbn [bind].
    eexists. eexists. eexists. reflexivity.
Qed.

(** A second argument below [2^n] needs at most [2n + 1] frames. *)
Lemma extended_gcd_rec_bits (n frames : nat) (a b : Z) :
  Z.abs b < 2 ^ Z.of_nat n -> (2 * n + 1 <= frames)%nat ->
  exists g x y, extended_gcd_rec frames a b = Ok (g, x, y).
Proof.
  intros Hb Hn. destruct frames as [| fuel]; [lia |].
  apply extended_gcd_rec_returns.
  apply (euclid_budget_bits n); [exact Hb | lia].
Qed.

(** So does a first argument below [2^n], after one more call, when both
    arguments are positive. *)
Lemma extended_gcd_rec_bits_first (n frames : nat) (a b : Z) :
  0 <= a < 2 ^ Z.of_nat n -> 0 < b -> (2 * n + 2 <= frames)%nat ->
  exists g x y, extended_gcd_rec frames a b = Ok (g, x, y).
Proof.
  intros Ha Hb Hn. destruct frames as [| frames]; [lia |].
  cbn [extended_gcd_rec].
  destruct (Z.eqb_spec b 0); [lia |].
  pose proof (Z.mod_pos_bound a b Hb) as Hr.
  assert (Hle : a mod b <= a) by (apply Z.mod_le; lia).
  destruct (extended_gcd_rec_bits n frames b (a mod b)) as (g & x1 & y1 & Hrec);
    [lia | lia |].
  rewrite Hrec. cbn [bind]. eexists. eexists. eexists. reflexivity.
Qed.

(** The recursion always returns when given the budget of [gcd]. *)
Lemma extended_gcd_rec_fuel (a b : Z) :
  exists g x y, extended_gcd_rec (S (euclid_fuel b)) a b = Ok (g, x, y).
Proof. apply extended_gcd_rec_returns, euclid_fuel_budget. Qed.

(** ** The modular inverse *)

Lemma euclid_gcd_pos (a m : Z) : 0 < m -> euclid_gcd a m = Z.gcd a m.
Proof.
  intros Hm. unfold euclid_gcd.
  destruct (Z.ltb_spec m 0); [lia |].
  destruct (Z.eqb_spec m 0); [lia | reflexivity].
Qed.

(** The reduced Bezout coefficient is an inverse in [[0, m)]. *)
Lemma euclid_inverse_coprime (a m : Z) :
  0 < m -> Z.gcd a m = 1 ->
  0 <= euclid_inverse a m < m /\ (a * euclid_inverse a m) mod m = 1 mod m.
Proof.
  intros Hm Hcop. unfold euclid_inverse.
  destruct (extended_gcd_rec_fuel a m) as (g & x & y & Hrun). rewrite Hrun.
  destruct (extended_gcd_rec_sound _ _ _ _ _ _ Hrun) as (Hbez & _ & Hval).
  rewrite euclid_gcd_pos in Hval by exact Hm.
  split; [apply Z.mod_pos_bound; exact Hm |].
  rewrite Z.mul_mod_idemp_r by lia.
  replace (a * x) with (1 + (- y) * m) by lia.
  now rewrite Z.mod_add by lia.
Qed.

(** What a run of [mod_inverse] amounts to, once the recursion has
    returned. *)
Lemma mod_inverse_at_run (depth : nat) (a m g x y : Z) :
  0 < m ->
  extended_gcd_rec (recursion_limit - S depth) a m = Ok (g, x, y) ->
  g = Z.gcd a m /\
  mod_inverse_at depth a m
  = if Z.gcd a m =? 1 then Ok (euclid_inverse a m)
    else Raise (ValueError "Modular inverse does not exist").
Proof.
  intros Hm Hrun.
  destruct (extended_gcd_rec_sound _ _ _ _ _ _ Hrun) as (_ & _ & Hval).
  rewrite euclid_gcd_pos in Hval by exact Hm.
  split; [exact Hval |].
  unfold mod_inverse_at. rewrite Hrun. cbn [bind]. rewrite Hval.
  destruct (Z.gcd a m =? 1); cbn [negb]; [| reflexivity].
  rewrite py_mod_ok by lia. cbn [bind]. rewrite py_mod_ok by lia.
  rewrite normalise_mod by lia. f_equal.
  unfold euclid_inverse.
  destruct (extended_gcd_rec_fuel a m) as (g' & x' & y' & Hfuel).
  rewrite Hfuel.
  pose proof (extended_gcd_rec_unique _ _ _ _ _ _ Hrun Hfuel) as Heq.
  now injection Heq as _ <- _.
Qed.

(** For a positive modulus [mod_inverse] has three ways to end. *)
Lemma mod_inverse_at_cases (depth : nat) (a m : Z) :
  0 < m ->
  mod_inverse_at depth a m = Raise RecursionError \/
  (Z.gcd a m = 1 /\ mod_inverse_at depth a m = Ok (euclid_inverse a m)) \/
  (Z.gcd a m <> 1 /\
   mod_inverse_at depth a m
   = Raise (ValueError "Modular inverse does not exist")).
Proof.
  intros Hm.
  destruct (extended_gcd_rec_outcomes (recursion_limit - S depth) a m)
    as [Hrun | (g & x & y & Hrun)].
  - left. unfold mod_inverse_at. now rewrite Hrun.
  - right. destruct (mod_inverse_at_run depth a m g x y Hm Hrun) as [_ Hinv].
    rewrite Hinv.
    destruct (Z.eqb_spec (Z.gcd a m) 1); [left | right]; now split.
Qed.

(** At most two frames in use and a modulus below [2^498] leave the
    recursion the frames it needs. *)
Lemma mod_inverse_at_bits (depth : nat) (a m : Z) :
  (depth <= 2)%nat -> Z.abs m < 2 ^ 498 ->
  exists g x y, extended_gcd_rec (recursion_limit - S depth) a m = Ok (g, x, y).
Proof.
  intros Hdepth Hm. apply (extended_gcd_rec_bits 498); [exact Hm |].
  unfold recursion_limit. lia.
Qed.

Lemma mod_inverse_at_returns (depth : nat) (a m : Z) :
  (depth <= 2)%nat -> Z.abs m < 2 ^ 498 ->
  mod_inverse_at depth a m <> Raise RecursionError.
Proof.
  intros Hdepth Hm.
  destruct (mod_inverse_at_bits depth a m Hdepth Hm) as (g & x & y & Hrun).
  unfold mod_inverse_at. rewrite Hrun. cbn [bind].
  destruct (negb (g =? 1)); [discriminate |].
  unfold py_mod. destruct (m =? 0); cbn [bind]; [discriminate |].
  destruct (m =? 0); discriminate.
Qed.

Lemma mod_inverse_at_coprime (depth : nat) (a m : Z) :
  (depth <= 2)%nat -> 0 < m < 2 ^ 498 -> Z.gcd a m = 1 ->
  mod_inverse_at depth a m = Ok (euclid_inverse a m).
Proof.
  intros Hdepth Hm Hcop.
  destruct (mod_inverse_at_bits depth a m Hdepth ltac:(lia))
    as (g & x & y & Hrun).
  destruct (mod_inverse_at_run depth a m g x y ltac:(lia) Hrun) as [_ Hinv].
  rewrite Hinv, Hcop. reflexivity.
Qed.

Lemma mod_inverse_at_not_coprime (depth : nat) (a m : Z) :
  (depth <= 2)%nat -> 0 < m < 2 ^ 498 -> Z.gcd a m <> 1 ->
  mod_inverse_at depth a m
  = Raise (ValueError "Modular inverse does not exist").
Proof.
  intros Hdepth Hm Hcop.
  destruct (mod_inverse_at_bits depth a m Hdepth ltac:(lia))
    as (g & x & y & Hrun).
  destruct (mod_inverse_at_run depth a m g x y ltac:(lia) Hrun) as [_ Hinv].
  rewrite Hinv. destruct (Z.eqb_spec (Z.gcd a m) 1); [contradiction |].
  reflexivity.
Qed.

(** Whatever [mod_inverse] returns for a positive modulus is the inverse. *)
Lemma mod_inverse_at_sound (depth : nat) (a m inv : Z) :
  0 < m -> mod_inverse_at depth a m = Ok inv ->
  Z.gcd a m = 1 /\ inv = euclid_inverse a m /\
  0 <= inv < m /\ (a * inv) mod m = 1 mod m.
Proof.
  intros Hm Hrun.
  destruct (mod_inverse_at_cases depth a m Hm)
    as [Hrec | [[Hcop Hinv] | [_ Hfail]]]; try congruence.
  assert (inv = euclid_inverse a m) by congruence. subst inv.
  split; [exact Hcop |]. split; [reflexivity |].
  now apply euclid_inverse_coprime.
Qed.

(** ** Trial division decides primality *)

Lemma py_range_In (start stop step i : Z) :
  0 < step ->
  In i (py_range start stop step) <->
  exists k : nat, i = start + step * Z.of_nat k /\ i < stop.
Proof.
  intros Hstep. unfold py_range. rewrite in_map_iff.
  assert (Hcount : forall k : nat,
             (k < Z.to_nat ((stop - start + step - 1) / step))%nat <->
             start + step * Z.of_nat k < stop).
  { intros k. split; intros H.
    - assert (Hk : Z.of_nat k + 1 <= (stop - start + step - 1) / step) by lia.
      pose proof (Z.mul_div_le (stop - start + step - 1) step Hstep). nia.
    - assert (Z.of_nat k + 1 <= (stop - start + step - 1) / step); [| lia].
      apply Z.div_le_lower_bound; [exact Hstep | nia]. }
  split.
  - intros (k & Hi & Hin). apply in_seq in Hin. exists k.
    split; [now symmetry |]. subst i. apply Hcount. lia.
  - intros (k & Hi & Hlt). exists k. split; [now symmetry |].
    apply in_seq. subst i. apply Hcount in Hlt. lia.
Qed.

Lemma is_prime_loop_true (n : Z) (candidates : list Z) :
  is_prime_loop n candidates = true <->
  Forall (fun i => n mod i <> 0) candidates.
Proof.
  induction candidates as [| i rest IH]; simpl.
  - split; [constructor | reflexivity].
  - destruct (Z.eqb_spec (n mod i) 0) as [Hz | Hnz].
    + split; [discriminate |]. intros H. inversion H. contradiction.
    + rewrite IH. split.
      * intros H. constructor; assumption.
      * intros H. now inversion H.
Qed.

(** With the exact root as the bound, the loop over the odd candidates
    answers [True] exactly on the odd primes. *)
Lemma trial_division_correct (n : Z) :
  3 <= n -> n mod 2 <> 0 ->
  is_prime_loop n (py_range 3 (Z.sqrt n + 1) 2) = true <-> Z.prime n.
Proof.
  intros Hge Hodd.
  rewrite is_prime_loop_true, Forall_forall.
  split.
  - intros Hloop. split; [lia |]. intros k Hk [j Hj].
    assert (Hjpos : 1 < j) by nia.
    (* the smaller of the two cofactors is an odd divisor below the root *)
    assert (Hd : exists d, 1 < d /\ d * d <= n /\ (d | n)).
    { destruct (Z.le_gt_cases k j).
      - exists k. repeat split; [lia | nia | now exists j].
      - exists j. repeat split; [lia | nia |]. exists k. lia. }
    destruct Hd as (d & Hd1 & Hsq & Hdiv).
    assert (Hdodd : d mod 2 = 1).
    { pose proof (Z.mod_pos_bound d 2 ltac:(lia)).
      destruct (Z.eq_dec (d mod 2) 0) as [Hd0 | ]; [| lia].
      exfalso. apply Hodd. apply Z.mod_divide; [lia |].
      apply Z.divide_trans with d; [| exact Hdiv].
      apply Z.mod_divide; lia. }
    apply (Hloop d).
    + apply py_range_In; [lia |].
      exists (Z.to_nat ((d - 3) / 2)).
      pose proof (Z.div_mod d 2 ltac:(lia)) as Hdm.
      assert (3 <= d) by lia.
      assert (Hroot : d <= Z.sqrt n) by (apply Z.sqrt_le_square; lia).
      split; [| lia].
      rewrite Z2Nat.id by (apply Z.div_pos; lia).
      pose proof (Z.div_mod (d - 3) 2 ltac:(lia)) as Hdm3.
      replace ((d - 3) mod 2) with 0 in Hdm3; [lia |].
      replace (d - 3) with (d + (-2) * 2 + 1) by ring.
      rewrite <- Z.add_mod_idemp_l by lia.
      rewrite Z.mod_add by lia. now rewrite Hdodd.
    + apply Z.mod_divide; [lia | exact Hdiv].
  - intros [_ Hp] i Hin Hz.
    apply py_range_In in Hin; [| lia].
    destruct Hin as (k & Hi & Hlt).
    assert (Z.sqrt n < n) by (apply Z.sqrt_lt_lin; lia).
    apply (Hp i); [lia |]. apply Z.mod_divide; [lia | exact Hz].
Qed.

Lemma float_overflow_above : 2 ^ 1023 < float_overflow.
Proof. reflexivity. Qed.

(** The cases of [is_prime]: a number below two, two, an even number, or an
    odd number from three on, for which the root is taken. *)
Lemma is_prime_cases (n : Z) :
  (n < 2 /\ is_prime n = Ok false) \/
  (n = 2 /\ is_prime n = Ok true) \/
  (2 < n /\ n mod 2 = 0 /\ is_prime n = Ok false) \/
  (3 <= n /\ n mod 2 = 1 /\ float_overflow <= n /\
   is_prime n = Raise OverflowError) \/
  (3 <= n /\ n mod 2 = 1 /\ n < float_overflow /\
   is_prime n = Ok (is_prime_loop n (py_range 3 (Z.sqrt n + 1) 2))).
Proof.
  unfold is_prime, int_sqrt.
  destruct (Z.ltb_spec n 2) as [Hsmall | Hge]; [now left |].
  destruct (Z.eqb_spec n 2) as [-> | Hne]; [now right; left |].
  pose proof (Z.mod_pos_bound n 2 ltac:(lia)) as Hr.
  destruct (Z.eqb_spec (n mod 2) 0) as [Heven | Hodd].
  { right; right; left. repeat split; [lia | exact Heven]. }
  right; right; right.
  destruct (Z.leb_spec float_overflow n) as [Hbig | Hfits]; [left | right];
    repeat split; try lia.
Qed.

(** Whatever [is_prime] answers is right. *)
Lemma is_prime_sound (n : Z) (b : bool) :
  is_prime n = Ok b -> (b = true <-> Z.prime n).
Proof.
  intros Hrun.
  destruct (is_prime_cases n)
    as [[Hn H] | [[Hn H] | [(Hn & Heven & H) | [(Hn & Hodd & _ & H)
                                               | (Hn & Hodd & _ & H)]]]];
    rewrite H in Hrun; try discriminate; injection Hrun as <-.
  - split; [discriminate |]. intros Hp. apply Z.prime_ge_2 in Hp. lia.
  - subst n. split; [intros _; exact Z.prime_2 | reflexivity].
  - split; [discriminate |]. intros [_ Hp].
    exfalso. apply (Hp 2); [lia |]. apply Z.mod_divide; lia.
  - apply trial_division_correct; lia.
Qed.

(** It answers whenever the number fits a double, and also on every number
    that is even or below two. *)
Lemma is_prime_returns (n : Z) :
  n < float_overflow \/ n mod 2 = 0 \/ n < 2 -> exists b, is_prime n = Ok b.
Proof.
  intros Hn.
  destruct (is_prime_cases n)
    as [[_ H] | [[_ H] | [(_ & _ & H) | [(Hge & Hodd & Hbig & _)
                                         | (_ & _ & _ & H)]]]];
    try (eexists; exact H).
  lia.
Qed.

Lemma is_prime_prime (n : Z) :
  Z.prime n -> n < float_overflow -> is_prime n = Ok true.
Proof.
  intros Hp Hn. destruct (is_prime_returns n (or_introl Hn)) as [b Hb].
  rewrite Hb. f_equal. now apply (is_prime_sound n b Hb).
Qed.

Lemma is_prime_not_prime (n : Z) :
  ~ Z.prime n -> n < float_overflow -> is_prime n = Ok false.
Proof.
  intros Hp Hn. destruct (is_prime_returns n (or_introl Hn)) as [b Hb].
  rewrite Hb. f_equal. destruct b; [| reflexivity].
  exfalso. apply Hp. now apply (is_prime_sound n true Hb).
Qed.

(** An odd number that does not fit a double is never tested. *)
Lemma is_prime_overflow (n : Z) :
  float_overflow <= n -> n mod 2 = 1 -> is_prime n = Raise OverflowError.
Proof.
  intros Hbig Hodd. pose proof float_overflow_above as Habove.
  assert (H3 : 3 <= n).
  { assert (2 ^ 2 <= 2 ^ 1023) by (apply Z.pow_le_mono_r; lia). lia. }
  destruct (is_prime_cases n)
    as [[Hn _] | [[Hn _] | [(_ & Heven & _) | [(_ & _ & _ & H)
                                               | (_ & _ & Hfits & _)]]]];
    try lia.
  exact H.
Qed.

Lemma is_prime_true_prime (n : Z) : is_prime_true n = true -> Z.prime n.
Proof.
  unfold is_prime_true. destruct (is_prime n) as [[|] | |] eqn:Hrun;
    try discriminate.
  intros _. now apply (is_prime_sound n true Hrun).
Qed.

(** ** Fermat's little theorem on [Z]

    Multiplying the residues [1 .. p-1] by a unit [a] permutes them, so
    their product is unchanged; cancelling it leaves [a^(p-1) = 1]. *)

Lemma residues_In (p x : Z) : In x (residues p) <-> 1 <= x < p.
Proof.
  unfold residues. rewrite in_map_iff. split.
  - intros (k & <- & Hk). apply in_seq in Hk. lia.
  - intros Hx. exists (Z.to_nat x). split; [lia |]. apply in_seq. lia.
Qed.

Lemma residues_NoDup (p : Z) : NoDup (residues p).
Proof.
  unfold residues. apply NoDup_map_NoDup_ForallPairs.
  - intros x y _ _ Hxy. lia.
  - apply seq_NoDup.
Qed.

Lemma residues_length (p : Z) : 1 <= p -> Z.of_nat (List.length (residues p)) = p - 1.
Proof.
  intros Hp. unfold residues. rewrite length_map, length_seq. lia.
Qed.

Lemma list_product_perm (l l' : list Z) :
  Permutation l l' -> list_product l = list_product l'.
Proof.
  induction 1; simpl; try congruence; ring.
Qed.

Lemma list_product_scaled (a p : Z) (l : list Z) :
  p <> 0 ->
  list_product (map (fun x => (a * x) mod p) l) mod p
  = (a ^ Z.of_nat (List.length l) * list_product l) mod p.
Proof.
  intros Hp. induction l as [| x l IH].
  - reflexivity.
  - cbn [map list_product fold_right List.length].
    fold (list_product (map (fun x => (a * x) mod p) l)).
    fold (list_product l).
    rewrite Nat2Z.inj_succ, Z.pow_succ_r by lia.
    rewrite Z.mul_mod_idemp_l by exact Hp.
    rewrite <- Z.mul_mod_idemp_r by exact Hp.
    rewrite IH.
    rewrite Z.mul_mod_idemp_r by exact Hp.
    f_equal. ring.
Qed.

Lemma list_product_coprime (p : Z) (l : list Z) :
  Forall (fun x => Z.coprime x p) l -> Z.coprime (list_product l) p.
Proof.
  induction 1 as [| x l Hx _ IH]; simpl.
  - apply Z.coprime_1_l.
  - apply Z.coprime_mul_l; assumption.
Qed.

Section Fermat.
Variables p a : Z.
Hypothesis p_prime : Z.prime p.
Hypothesis a_unit : ~ (p | a).

Lemma prime_modulus_ge_2 : 2 <= p.
Proof. exact (Z.prime_ge_2 p p_prime). Qed.

Lemma unit_mul_nonzero (x : Z) : 1 <= x < p -> (a * x) mod p <> 0.
Proof.
  pose proof prime_modulus_ge_2 as Hp2.
  intros Hx Hz. apply Z.mod_divide in Hz; [| lia].
  apply Z.divide_prime_mul in Hz; [| exact p_prime].
  destruct Hz as [Hz | Hz]; [contradiction |].
  apply Z.divide_pos_le in Hz; lia.
Qed.

Lemma unit_mul_injective (x y : Z) :
  1 <= x < p -> 1 <= y < p -> (a * x) mod p = (a * y) mod p -> x = y.
Proof.
  pose proof prime_modulus_ge_2 as Hp2.
  intros Hx Hy Heq.
  apply Z.cong_iff_0 in Heq.
  apply Z.mod_divide in Heq; [| lia].
  replace (a * x - a * y) with (a * (x - y)) in Heq by ring.
  apply Z.divide_prime_mul in Heq; [| exact p_prime].
  destruct Heq as [Hdiv | Hdiv]; [contradiction |].
  destruct (Z.eq_dec x y) as [| Hne]; [assumption | exfalso].
  apply Z.absle_divide in Hdiv; lia.
Qed.

Lemma unit_mul_permutes :
  Permutation (map (fun x => (a * x) mod p) (residues p)) (residues p).
Proof.
  pose proof prime_modulus_ge_2 as Hp2.
  apply Permutation_map_same_l.
  - apply NoDup_map_NoDup_ForallPairs; [| apply residues_NoDup].
    intros x y Hx Hy. apply residues_In in Hx, Hy.
    now apply unit_mul_injective.
  - intros y Hy. apply in_map_iff in Hy. destruct Hy as (x & <- & Hx).
    apply residues_In in Hx. apply residues_In.
    pose proof (Z.mod_pos_bound (a * x) p ltac:(lia)).
    pose proof (unit_mul_nonzero x Hx). lia.
Qed.

Theorem fermat_little : a ^ (p - 1) mod p = 1.
Proof.
  pose proof prime_modulus_ge_2 as Hp2.
  pose proof (list_product_scaled a p (residues p) ltac:(lia)) as Hscaled.
  rewrite (list_product_perm _ _ unit_mul_permutes) in Hscaled.
  rewrite residues_length in Hscaled by lia.
  assert (Hcop : Z.coprime (list_product (residues p)) p).
  { apply list_product_coprime, Forall_forall. intros x Hx.
    apply residues_In in Hx. symmetry.
    now apply Z.coprime_prime_small. }
  assert (Hzero : ((a ^ (p - 1) - 1) * list_product (residues p)) mod p = 0).
  { apply Z.cong_iff_0 with (b := 0) (a := _).
    rewrite Z.mul_sub_distr_r, Z.mul_1_l.
    rewrite Z.sub_0_r. apply Z.cong_iff_0. now rewrite <- Hscaled. }
  apply Z.cong_mul_cancel_r_coprime in Hzero; [| lia | exact Hcop].
  apply Z.cong_iff_0 in Hzero.
  rewrite Hzero. apply Z.mod_small. lia.
Qed.
End Fermat.

(** ** The arithmetic behind the RSA round trip *)

Lemma coprime_divide_mul (a b c : Z) :
  Z.coprime a b -> (a | c) -> (b | c) -> (a * b | c).
Proof.
  intros Hcop [k Hk] Hb. subst c.
  assert (Hbk : (b | k)).
  { apply Z.gauss with a; [now rewrite Z.mul_comm |].
    rewrite Z.gcd_comm. exact Hcop. }
  destruct Hbk as [j Hj]. exists j. subst k. ring.
Qed.

Lemma distinct_primes_coprime (p q : Z) :
  Z.prime p -> Z.prime q -> p <> q -> Z.coprime p q.
Proof.
  intros Hp Hq Hne. apply Z.coprime_prime_l; [exact Hp |].
  intros Hdiv. apply Z.divide_prime_prime in Hdiv; auto.
Qed.




(** ** Products of moduli *)

Lemma list_product_cons (m : Z) (l : list Z) :
  list_product (m :: l) = m * list_product l.
Proof. reflexivity. Qed.

Lemma fold_left_mul (l : list Z) (acc : Z) :
  fold_left Z.mul l acc = acc * list_product l.
Proof.
  revert acc. induction l as [| m l IH]; intros acc; cbn [fold_left].
  - unfold list_product. cbn [fold_right]. ring.
  - rewrite IH, list_product_cons. ring.
Qed.

Lemma moduli_product_eq (moduli : list Z) :
  moduli_product moduli = list_product moduli.
Proof. unfold moduli_product. rewrite fold_left_mul. ring. Qed.

Lemma list_product_app (l1 l2 : list Z) :
  list_product (l1 ++ l2) = list_product l1 * list_product l2.
Proof.
  induction l1 as [| m l1 IH]; cbn [app].
  - unfold list_product at 2. cbn [fold_right]. ring.
  - rewrite !list_product_cons, IH. ring.
Qed.

Lemma list_product_pos (l : list Z) :
  Forall (fun m => 0 < m) l -> 0 < list_product l.
Proof.
  induction 1 as [| m l Hm _ IH]; [reflexivity |].
  rewrite list_product_cons. nia.
Qed.

Lemma list_product_In_divide (x : Z) (l : list Z) :
  In x l -> (x | list_product l).
Proof.
  intros Hin. apply in_split in Hin. destruct Hin as (l1 & l2 & ->).
  rewrite list_product_app, list_product_cons.
  exists (list_product l1 * list_product l2). ring.
Qed.

(** ** Pairwise coprime moduli *)

Lemma pairwise_coprime_split (pre post : list Z) (m : Z) :
  pairwise_coprime (pre ++ m :: post) ->
  Forall (fun x => Z.coprime x m) (pre ++ post).
Proof.
  unfold pairwise_coprime. induction pre as [| a pre IH]; simpl; intros Hpw.
  - inversion Hpw as [| ? ? Hhead _]; subst.
    eapply Forall_impl; [| exact Hhead].
    intros x Hx. unfold Z.coprime. now rewrite Z.gcd_comm.
  - inversion Hpw as [| ? ? Hhead Htail]; subst.
    constructor.
    + apply Forall_elt in Hhead. exact Hhead.
    + apply IH. exact Htail.
Qed.

(** Dividing the product by one modulus leaves the product of the others,
    which is coprime with that modulus. *)
Lemma crt_cofactor (pre post : list Z) (m : Z) :
  0 < m -> pairwise_coprime (pre ++ m :: post) ->
  list_product (pre ++ m :: post) / m = list_product (pre ++ post) /\
  Z.gcd (list_product (pre ++ m :: post) / m) m = 1.
Proof.
  intros Hm Hpw.
  assert (Hdiv : list_product (pre ++ m :: post) / m = list_product (pre ++ post)).
  { rewrite !list_product_app, list_product_cons.
    replace (list_product pre * (m * list_product post))
      with (list_product pre * list_product post * m) by ring.
    apply Z.div_mul. lia. }
  split; [exact Hdiv |]. rewrite Hdiv.
  apply list_product_coprime. now apply pairwise_coprime_split.
Qed.

Lemma pairwise_coprime_product_divides (moduli : list Z) (c : Z) :
  pairwise_coprime moduli -> Forall (fun m => (m | c)) moduli ->
  (list_product moduli | c).
Proof.
  unfold pairwise_coprime.
  induction 1 as [| m l Hhead _ IH]; intros Hall.
  - apply Z.divide_1_l.
  - inversion Hall as [| ? ? Hm Hrest]; subst.
    rewrite list_product_cons. apply coprime_divide_mul.
    + symmetry. apply list_product_coprime.
      eapply Forall_impl; [| exact Hhead].
      intros x Hx. unfold Z.coprime. now rewrite Z.gcd_comm.
    + exact Hm.
    + apply IH. exact Hrest.
Qed.

(** ** The search for the public exponent *)

(** Whatever the loop returns is coprime with [phi] and was reached from
    the seed in steps of two. *)
Lemma choose_e_sound (fuel : nat) :
  forall e0 phi e,
    0 < phi -> choose_e fuel e0 phi = Ok e ->
    Z.gcd e phi = 1 /\ exists j : nat, e = e0 + 2 * Z.of_nat j.
Proof.
  induction fuel as [| fuel IH]; intros e0 phi e Hphi Hrun;
    cbn [choose_e] in Hrun; rewrite gcd_pos in Hrun by exact Hphi;
    cbn [bind] in Hrun;
    destruct (Z.eqb_spec (Z.gcd e0 phi) 1) as [Hg | Hg]; cbn [negb] in Hrun;
    try discriminate.
  - injection Hrun as <-. split; [exact Hg |]. exists 0%nat. lia.
  - injection Hrun as <-. split; [exact Hg |]. exists 0%nat. lia.
  - apply IH in Hrun; [| exact Hphi].
    destruct Hrun as [Hcop [j Hj]]. split; [exact Hcop |].
    exists (S j). lia.
Qed.

(** If a coprime candidate lies [k] steps ahead and [k] iterations are
    available, the loop stops at or before it. *)
Lemma choose_e_finds (fuel : nat) :
  forall e0 phi (k : nat),
    0 < phi -> (k <= fuel)%nat -> Z.gcd (e0 + 2 * Z.of_nat k) phi = 1 ->
    exists e, choose_e fuel e0 phi = Ok e /\ e0 <= e <= e0 + 2 * Z.of_nat k.
Proof.
  induction fuel as [| fuel IH]; intros e0 phi k Hphi Hk Hcop;
    cbn [choose_e]; rewrite gcd_pos by exact Hphi; cbn [bind];
    destruct (Z.eqb_spec (Z.gcd e0 phi) 1) as [Hg | Hg]; cbn [negb];
    try (exists e0; split; [reflexivity | lia]).
  - exfalso. assert (k = 0%nat) by lia. subst k.
    apply Hg. rewrite <- Hcop. f_equal. lia.
  - destruct k as [| k].
    { exfalso. apply Hg. rewrite <- Hcop. f_equal. lia. }
    destruct (IH (e0 + 2) phi k Hphi ltac:(lia)) as (e & Hrun & Hrange).
    { rewrite <- Hcop. f_equal. lia. }
    exists e. split; [exact Hrun | lia].
Qed.

Lemma prime_two_or_odd (p : Z) : Z.prime p -> p = 2 \/ p mod 2 = 1.
Proof.
  intros Hp. pose proof (Z.prime_ge_2 p Hp) as Hp2.
  destruct (Z.eq_dec p 2) as [| Hne]; [now left | right].
  pose proof (Z.mod_pos_bound p 2 ltac:(lia)).
  destruct (Z.eq_dec (p mod 2) 0) as [Hz | ]; [exfalso | lia].
  destruct Hp as [_ Hp]. apply (Hp 2); [lia |].
  apply Z.mod_divide; [lia | exact Hz].
Qed.

(** Euler's [phi] of a product of two primes is even as soon as it is at
    least four. *)
Lemma phi_even (p q : Z) :
  Z.prime p -> Z.prime q -> 4 <= (p - 1) * (q - 1) ->
  ((p - 1) * (q - 1)) mod 2 = 0.
Proof.
  intros Hp Hq Hphi.
  assert (Hodd : forall x, x mod 2 = 1 -> (x - 1) mod 2 = 0).
  { intros x Hx. pose proof (Z.div_mod x 2 ltac:(lia)) as Hdm.
    replace (x - 1) with (x / 2 * 2) by lia. apply Z.mod_mul. lia. }
  destruct (prime_two_or_odd p Hp) as [-> | Hpo].
  - destruct (prime_two_or_odd q Hq) as [-> | Hqo]; [simpl in Hphi; lia |].
    rewrite <- Z.mul_mod_idemp_r, (Hodd q Hqo) by lia. reflexivity.
  - rewrite <- Z.mul_mod_idemp_l, (Hodd p Hpo) by lia. reflexivity.
Qed.

(** On an even [phi >= 4] the search, started from the seed the key
    generation picks, stops at an exponent below [phi]: [phi - 1] is odd,
    coprime with [phi], and not below the seed. *)
Lemma choose_e_below_phi (phi : Z) :
  4 <= phi -> phi mod 2 = 0 ->
  exists e,
    choose_e (Z.to_nat phi) (if 65537 >=? phi then 3 else 65537) phi = Ok e /\
    3 <= e < phi /\ Z.gcd e phi = 1.
Proof.
  intros Hphi4 Heven.
  set (e0 := if 65537 >=? phi then 3 else 65537).
  assert (He0 : 3 <= e0 <= phi - 1 /\ e0 mod 2 = 1).
  { unfold e0. destruct (Z.geb_spec 65537 phi); split; try lia; reflexivity. }
  destruct He0 as [He0 He0odd].
  pose proof (Z.div_mod phi 2 ltac:(lia)) as Hphi2.
  pose proof (Z.div_mod e0 2 ltac:(lia)) as He02.
  assert (Hlast : e0 + 2 * Z.of_nat (Z.to_nat (phi / 2 - 1 - e0 / 2)) = phi - 1)
    by lia.
  destruct (choose_e_finds (Z.to_nat phi) e0 phi
              (Z.to_nat (phi / 2 - 1 - e0 / 2)))
    as (e & He & Herange); [lia | lia | |].
  { rewrite Hlast.
    replace phi with (1 + (phi - 1)) at 2 by ring.
    rewrite Z.gcd_add_diag_r. apply Z.gcd_1_r. }
  exists e. split; [exact He |]. split; [lia |].
  apply choose_e_sound in He; [| lia]. apply He.
Qed.

(** The candidates that the search passes over are not coprime with
    [phi]. *)
Lemma choose_e_first (fuel : nat) :
  forall e0 phi e,
    0 < phi -> choose_e fuel e0 phi = Ok e ->
    forall j : nat, e0 + 2 * Z.of_nat j < e -> Z.gcd (e0 + 2 * Z.of_nat j) phi <> 1.
Proof.
  induction fuel as [| fuel IH]; intros e0 phi e Hphi Hrun j Hj;
    cbn [choose_e] in Hrun; rewrite gcd_pos in Hrun by exact Hphi;
    cbn [bind] in Hrun;
    destruct (Z.eqb_spec (Z.gcd e0 phi) 1) as [Hg | Hg]; cbn [negb] in Hrun;
    try discriminate; try (injection Hrun as <-; lia).
  destruct j as [| j].
  - now rewrite Z.mul_0_r, Z.add_0_r.
  - replace (e0 + 2 * Z.of_nat (S j)) with (e0 + 2 + 2 * Z.of_nat j) by lia.
    apply (IH _ _ _ Hphi Hrun). lia.
Qed.

(** The search stops at or before every coprime candidate. *)
Lemma choose_e_le_candidate (fuel : nat) (e0 phi e c : Z) :
  0 < phi -> choose_e fuel e0 phi = Ok e ->
  e0 <= c -> c mod 2 = e0 mod 2 -> Z.gcd c phi = 1 -> e <= c.
Proof.
  intros Hphi Hrun Hc Hparity Hcop.
  destruct (Z.le_gt_cases e c) as [Hle | Hgt]; [exact Hle | exfalso].
  pose proof (Z.div_mod c 2 ltac:(lia)) as Hc2.
  pose proof (Z.div_mod e0 2 ltac:(lia)) as He2.
  apply (choose_e_first fuel e0 phi e Hphi Hrun (Z.to_nat (c / 2 - e0 / 2)));
    replace (e0 + 2 * Z.of_nat (Z.to_nat (c / 2 - e0 / 2))) with c by lia;
    assumption.
Qed.

(** ** How far the search for the exponent can go *)

Lemma py_range_NoDup (start stop step : Z) :
  0 < step -> NoDup (py_range start stop step).
Proof.
  intros Hstep. unfold py_range. apply NoDup_map_NoDup_ForallPairs.
  - intros x y _ _ Hxy. nia.
  - apply seq_NoDup.
Qed.

Lemma primes_pairwise_coprime (l : list Z) :
  Forall Z.prime l -> NoDup l -> pairwise_coprime l.
Proof.
  unfold pairwise_coprime.
  induction 1 as [| p l Hp Hl IH]; intros Hnodup; [constructor |].
  inversion Hnodup as [| ? ? Hnotin Hrest]; subst.
  constructor; [| now apply IH].
  apply Forall_forall. intros q Hq.
  apply distinct_primes_coprime; [exact Hp | | congruence].
  rewrite Forall_forall in Hl. now apply Hl.
Qed.

(** Distinct primes whose product exceeds [phi] cannot all divide it: one
    of them is coprime with [phi]. *)
Lemma coprime_candidate (l : list Z) (phi : Z) :
  0 < phi -> Forall Z.prime l -> NoDup l -> phi < list_product l ->
  exists c, In c l /\ Z.gcd c phi = 1.
Proof.
  intros Hphi Hprimes Hnodup Hprod.
  destruct (Forall_Exists_dec (fun c => Z.gcd c phi <> 1)
              (fun c => match Z.eq_dec (Z.gcd c phi) 1 with
                        | left H => right (fun Hn => Hn H)
                        | right H => left H
                        end) l) as [Hall | Hex].
  - exfalso.
    assert (Hdiv : Forall (fun c => (c | phi)) l).
    { rewrite Forall_forall in *. intros c Hc.
      destruct (Z.eq_dec (phi mod c) 0) as [Hz | Hnz].
      - apply Z.mod_divide; [| exact Hz].
        pose proof (Z.prime_ge_2 c (Hprimes c Hc)). lia.
      - exfalso. apply (Hall c Hc).
        apply Z.coprime_prime_l; [now apply Hprimes |].
        intros Hd. apply Hnz. apply Z.mod_divide; [| exact Hd].
        pose proof (Z.prime_ge_2 c (Hprimes c Hc)). lia. }
    apply (pairwise_coprime_product_divides l phi) in Hdiv;
      [| now apply primes_pairwise_coprime].
    apply Z.divide_pos_le in Hdiv; lia.
  - apply Exists_exists in Hex. destruct Hex as (c & Hc & Hcop).
    exists c. split; [exact Hc |].
    destruct (Z.eq_dec (Z.gcd c phi) 1); [assumption | contradiction].
Qed.

Lemma small_exponents_spec :
  Forall (fun c => Z.prime c /\ 3 <= c < 2 ^ 17 /\ c mod 2 = 1) small_exponents /\
  NoDup small_exponents /\ 65537 < list_product small_exponents.
Proof.
  split; [| split].
  - unfold small_exponents.
    repeat (constructor;
            [split; [apply is_prime_true_prime; vm_compute; reflexivity
                    | split; [split; [lia | reflexivity] | reflexivity]] |]).
    constructor.
  - unfold small_exponents.
    repeat (constructor; [simpl; intuition discriminate |]). constructor.
  - reflexivity.
Qed.

Lemma large_exponents_spec :
  Forall (fun c => Z.prime c /\ 65537 <= c < 2 ^ 17 /\ c mod 2 = 1)
         large_exponents /\
  NoDup large_exponents /\ 2 ^ 2048 < list_product large_exponents.
Proof.
  unfold large_exponents. split; [| split].
  - apply Forall_forall. intros c Hc.
    apply (proj1 (filter_In _ _ _)) in Hc. destruct Hc as [Hrange Hprime].
    split; [now apply is_prime_true_prime |].
    apply py_range_In in Hrange; [| lia].
    destruct Hrange as (k & -> & Hlt).
    split; [lia |].
    replace (65537 + 2 * Z.of_nat k) with (1 + (32768 + Z.of_nat k) * 2) by ring.
    now rewrite Z.mod_add by lia.
  - apply NoDup_filter, py_range_NoDup. lia.
  - vm_compute. reflexivity.
Qed.

(** A search that has candidates of the parity of its seed, all primes
    below [bound] with a product above [phi], ends below [bound]. *)
Lemma choose_e_candidates (l : list Z) (fuel : nat) (seed phi e bound : Z) :
  0 < phi ->
  Forall (fun c => Z.prime c /\ seed <= c < bound /\ c mod 2 = seed mod 2) l ->
  NoDup l -> phi < list_product l ->
  choose_e fuel seed phi = Ok e -> e < bound.
Proof.
  intros Hphi Hall Hnodup Hprod Hrun.
  destruct (coprime_candidate l phi Hphi) as (c & Hc & Hcop);
    [eapply Forall_impl; [| exact Hall]; now intros ? [? _]
    | exact Hnodup | exact Hprod |].
  rewrite Forall_forall in Hall. destruct (Hall c Hc) as (_ & Hrange & Hpar).
  pose proof (choose_e_le_candidate fuel seed phi e c Hphi Hrun
                ltac:(lia) Hpar Hcop).
  lia.
Qed.

(** On an even [phi] from four up to [2^2048] the exponent found is below
    [2^17]. *)
Lemma choose_e_small (phi : Z) :
  4 <= phi -> phi mod 2 = 0 -> phi < 2 ^ 2048 ->
  exists e,
    choose_e (Z.to_nat phi) (if 65537 >=? phi then 3 else 65537) phi = Ok e /\
    3 <= e < phi /\ Z.gcd e phi = 1 /\ e < 2 ^ 17.
Proof.
  intros Hphi4 Heven Hbound.
  destruct (choose_e_below_phi phi Hphi4 Heven) as (e & He & Herange & Hcop).
  exists e. repeat split; try assumption; try lia.
  destruct (Z.geb_spec 65537 phi) as [Hsmall | Hlarge].
  - destruct small_exponents_spec as (Hall & Hnodup & Hprod).
    exact (choose_e_candidates small_exponents (Z.to_nat phi) 3 phi e (2 ^ 17)
             ltac:(lia) Hall Hnodup ltac:(lia) He).
  - destruct large_exponents_spec as (Hall & Hnodup & Hprod).
    exact (choose_e_candidates large_exponents (Z.to_nat phi) 65537 phi e
             (2 ^ 17) ltac:(lia) Hall Hnodup ltac:(lia) He).
Qed.

(** ** Primes beyond every bound *)

(** Either no number from two up to [k] divides [n], or one does. *)
Lemma divisor_search (n : Z) (k : nat) :
  (forall d, 1 < d <= Z.of_nat k -> ~ (d | n)) \/
  (exists d, 1 < d <= Z.of_nat k /\ (d | n)).
Proof.
  induction k as [| k IH].
  - left. intros d Hd. lia.
  - destruct IH as [Hnone | (d & Hd & Hdiv)].
    + destruct (Z.eq_dec (n mod Z.of_nat (S k)) 0) as [Hz | Hnz].
      * destruct k as [| k]; [left; intros d Hd; lia |].
        right. exists (Z.of_nat (S (S k))). split; [lia |].
        apply Z.mod_divide; [lia | exact Hz].
      * left. intros d Hd Hdiv.
        destruct (Z.eq_dec d (Z.of_nat (S k))) as [-> | Hne].
        -- apply Hnz. apply Z.mod_divide; [lia | exact Hdiv].
        -- apply (Hnone d); [lia | exact Hdiv].
    + right. exists d. split; [lia | exact Hdiv].
Qed.

Lemma prime_divisor_bounded (k : nat) :
  forall n, 2 <= n <= Z.of_nat k -> exists r, Z.prime r /\ (r | n).
Proof.
  induction k as [| k IH]; intros n Hn; [lia |].
  destruct (divisor_search n (Z.to_nat (n - 1))) as [Hnone | (d & Hd & Hdiv)].
  - exists n. split; [| apply Z.divide_refl].
    split; [lia |]. intros d Hd. apply Hnone. lia.
  - destruct (IH d ltac:(lia)) as (r & Hr & Hrd).
    exists r. split; [exact Hr |]. now apply Z.divide_trans with d.
Qed.

Lemma prime_divisor_exists (n : Z) : 2 <= n -> exists r, Z.prime r /\ (r | n).
Proof.
  intros Hn. apply (prime_divisor_bounded (Z.to_nat n)). lia.
Qed.

(** Euclid's theorem: the product of [1 .. N], plus one, has a prime
    divisor, and none of [1 .. N] can be it. *)
Lemma prime_above (N : Z) : exists r, Z.prime r /\ N < r.
Proof.
  assert (Hpos : 0 < list_product (residues (N + 1))).
  { apply list_product_pos, Forall_forall. intros x Hx.
    apply residues_In in Hx. lia. }
  destruct (prime_divisor_exists (list_product (residues (N + 1)) + 1)
              ltac:(lia)) as (r & Hr & Hdiv).
  exists r. split; [exact Hr |].
  pose proof (Z.prime_ge_2 r Hr) as Hr2.
  destruct (Z.lt_ge_cases N r) as [Hlt | Hge]; [exact Hlt | exfalso].
  assert (Hin : (r | list_product (residues (N + 1)))).
  { apply list_product_In_divide, residues_In. lia. }
  assert (Hone : (r | 1)).
  { replace 1 with (list_product (residues (N + 1)) + 1
                    - list_product (residues (N + 1))) by ring.
    now apply Z.divide_sub_r. }
  apply Z.divide_1_r_nonneg in Hone; lia.
Qed.

(** * Properties of the modular operations *)

(** C1.  Addition, subtraction and multiplication return a value in
    [[0, m)] for every modulus [m > 0] (lemmas [mod_add_range],
    [mod_subtract_range], [mod_multiply_range]), and so does [mod_power] for
    a positive exponent or a modulus above one ([mod_power_range]).  At
    exponent [0] and modulus [1], however, [mod_power] returns its initial
    [result = 1] unreduced, for every base, and [1] is outside [[0, 1)]:
    there the function does not compute [base^exp mod m], which is [0]. *)
Theorem mod_power_exp0_mod1_out_of_range :
  forall base : Z, mod_power base 0 1 = Ok 1 /\ ~ (0 <= 1 < 1).
Proof.
  intros base. split.
  - apply mod_power_nonpos; lia.
  - lia.
Qed.

(** C5.  [mod_power b 0 m] is [1] for every [b] and every [m <> 0]; this is
    [1 mod m] as long as [m > 1], but at [m = 1] the value [1 mod 1] is [0]
    while the function returns [1]. *)
Theorem mod_power_exp0_mod1_not_reduced :
  forall b : Z, mod_power b 0 1 = Ok 1 /\ 1 mod 1 = 0 /\
                mod_power b 0 1 <> Ok (1 mod 1).
Proof.
  intros b. rewrite mod_power_nonpos by lia.
  split; [reflexivity |]. split; [reflexivity | discriminate].
Qed.

(** What does hold at exponent zero: the result is [1], hence [1 mod m] for
    every modulus above one, and congruent to [1] for every modulus. *)
Lemma mod_power_exp0 (b m : Z) :
  0 < m ->
  mod_power b 0 m = Ok 1 /\ (1 < m -> 1 = 1 mod m) /\ 1 mod m = 1 mod m.
Proof.
  intros Hm. split; [apply mod_power_nonpos; lia |].
  split; [| reflexivity]. intros H1. symmetry. apply Z.mod_small. lia.
Qed.

(** C10.  For every base, every non-zero modulus and every exponent that is
    zero or negative, [mod_power] returns [1]: the loop guard [exp > 0]
    fails at once, no precondition on [exp] is checked, and a negative
    exponent yields neither an error nor an inverse. *)
Theorem mod_power_nonpositive_exponent :
  forall base exp m : Z, m <> 0 -> exp <= 0 -> mod_power base exp m = Ok 1.
Proof.
  intros base exp m Hm Hexp. now apply mod_power_nonpos.
Qed.

Lemma mod_power_nonpositive_exponent_witness :
  7 <> 0 /\ -3 <= 0 /\ mod_power 5 (-3) 7 = Ok 1.
Proof.
  split; [lia |]. split; [lia |].
  apply (mod_power_nonpositive_exponent 5 (-3) 7); lia.
Defined.

(** * Properties of the modular inverse *)

(** C4, as stated, fails at modulus one: every [a] is coprime with [1], the
    inverse returned is [0], and the product reduces to [0], not [1]. *)
Lemma mod_inverse_modulus_one_counterexample :
  0 < 1 /\ Z.gcd 5 1 = 1 /\
  exists inv, mod_inverse 5 1 = Ok inv /\ 0 <= inv < 1 /\
              mod_multiply 5 inv 1 = Ok 0 /\ mod_multiply 5 inv 1 <> Ok 1.
Proof.
  split; [lia |]. split; [reflexivity |].
  exists 0. split; [vm_compute; reflexivity |]. split; [lia |].
  split; [reflexivity | discriminate].
Qed.

(** C4, amended.  For every integer [a] and every modulus [m > 0], the
    program's own [gcd] agrees with [Z.gcd], and unless the recursion of
    [extended_gcd] exceeds the recursion limit of the interpreter, which it
    cannot for [m < 2^498], [mod_inverse a m] raises its [ValueError] (no
    inverse exists) if and only if [gcd(a, m) <> 1]; whenever [a] is coprime
    with [m] it then returns a value [inv] in [[0, m)] such that
    [mod_multiply a inv m] is [1 mod m], which is [1] for every modulus
    above one. *)
Theorem mod_inverse_spec :
  forall a m : Z,
    0 < m ->
    gcd a m = Ok (Z.gcd a m) /\
    (m < 2 ^ 498 -> mod_inverse a m <> Raise RecursionError) /\
    (mod_inverse a m <> Raise RecursionError ->
     (mod_inverse a m = Raise (ValueError "Modular inverse does not exist")
      <-> Z.gcd a m <> 1) /\
     (Z.gcd a m = 1 ->
      exists inv, mod_inverse a m = Ok inv /\ 0 <= inv < m /\
                  mod_multiply a inv m = Ok (1 mod m) /\
                  (1 < m -> mod_multiply a inv m = Ok 1))).
Proof.
  intros a m Hm. unfold mod_inverse.
  split; [now apply gcd_pos |]. split.
  - intros Hbound.
    destruct (Z.eq_dec (Z.gcd a m) 1) as [Hcop | Hncop].
    + rewrite mod_inverse_at_coprime by (assumption || lia). discriminate.
    + rewrite mod_inverse_at_not_coprime by (assumption || lia). discriminate.
  - intros Hreturns.
    destruct (mod_inverse_at_cases 1 a m Hm)
      as [Hrec | [[Hcop Hinv] | [Hncop Hfail]]]; [contradiction | |].
    + split.
      * split; [intros Hfail; congruence | intros Hncop; contradiction].
      * intros _.
        destruct (euclid_inverse_coprime a m Hm Hcop) as [Hrange Hone].
        exists (euclid_inverse a m). split; [exact Hinv |].
        split; [exact Hrange |].
        rewrite mod_multiply_value by lia. rewrite Hone.
        split; [reflexivity |]. intros H1. now rewrite Z.mod_small by lia.
    + split.
      * split; [intros _; exact Hncop | intros _; exact Hfail].
      * intros Hcop. contradiction.
Qed.

Lemma mod_inverse_spec_witness :
  0 < 3120 /\
  gcd 17 3120 = Ok (Z.gcd 17 3120) /\
  (3120 < 2 ^ 498 -> mod_inverse 17 3120 <> Raise RecursionError) /\
  (mod_inverse 17 3120 <> Raise RecursionError ->
   (mod_inverse 17 3120 = Raise (ValueError "Modular inverse does not exist")
    <-> Z.gcd 17 3120 <> 1) /\
   (Z.gcd 17 3120 = 1 ->
    exists inv, mod_inverse 17 3120 = Ok inv /\ 0 <= inv < 3120 /\
                mod_multiply 17 inv 3120 = Ok (1 mod 3120) /\
                (1 < 3120 -> mod_multiply 17 inv 3120 = Ok 1))).
Proof.
  split; [lia |]. apply (mod_inverse_spec 17 3120). lia.
Defined.

(** The boundary example of the specification: [4] has no inverse
    modulo [8]. *)
Example mod_inverse_4_8 :
  mod_inverse 4 8 = Raise (ValueError "Modular inverse does not exist").
Proof. vm_compute. reflexivity. Qed.

(** * Properties of the RSA key pair *)

Lemma float_overflow_below : float_overflow < 2 ^ 1024.
Proof. reflexivity. Qed.

(** The steps of a successful key generation. *)
Lemma generate_rsa_keys_run (p q : Z) (keys : RSAKeyPair) :
  generate_rsa_keys p q = Ok keys ->
  let phi := (p - 1) * (q - 1) in
  Z.prime p /\ Z.prime q /\
  rsa_n keys = p * q /\ rsa_phi keys = phi /\
  choose_e (Z.to_nat phi) (if 65537 >=? phi then 3 else 65537) phi
  = Ok (rsa_e keys) /\
  mod_inverse_at 2 (rsa_e keys) phi = Ok (rsa_d keys).
Proof.
  intros Hrun. cbv zeta. unfold generate_rsa_keys in Hrun.
  apply bind_ok in Hrun. destruct Hrun as (p_prime & Hp & Hrun).
  destruct p_prime; cbn [negb bind] in Hrun; [| discriminate].
  apply bind_ok in Hrun. destruct Hrun as (not_both & Hq & Hrun).
  apply bind_ok in Hq. destruct Hq as (q_prime & Hq & Hret).
  injection Hret as <-.
  destruct q_prime; cbn [negb] in Hrun; [| discriminate].
  apply (is_prime_sound p true) in Hp. apply (is_prime_sound q true) in Hq.
  set (phi := (p - 1) * (q - 1)) in *.
  apply bind_ok in Hrun. destruct Hrun as (e & He & Hrun).
  apply bind_ok in Hrun. destruct Hrun as (d & Hd & Hrun).
  injection Hrun as <-. cbn [rsa_n rsa_e rsa_d rsa_phi].
  split; [now apply Hp |]. split; [now apply Hq |].
  repeat (split; [assumption || reflexivity |]). exact Hd.
Qed.

(** What a successful key generation establishes, whatever the primes. *)
Lemma generate_rsa_keys_inv (p q : Z) (keys : RSAKeyPair) :
  generate_rsa_keys p q = Ok keys ->
  Z.prime p /\ Z.prime q /\
  rsa_n keys = p * q /\ rsa_phi keys = (p - 1) * (q - 1) /\
  3 <= rsa_e keys /\ Z.gcd (rsa_e keys) (rsa_phi keys) = 1 /\
  0 <= rsa_d keys < rsa_phi keys /\
  (rsa_e keys * rsa_d keys) mod rsa_phi keys = 1 mod rsa_phi keys.
Proof.
  intros Hrun.
  destruct (generate_rsa_keys_run p q keys Hrun)
    as (Hp & Hq & Hn & Hphi & He & Hd).
  pose proof (Z.prime_ge_2 p Hp) as Hp2.
  pose proof (Z.prime_ge_2 q Hq) as Hq2.
  rewrite Hphi. set (phi := (p - 1) * (q - 1)) in *.
  assert (Hpos : 0 < phi) by (unfold phi; nia).
  apply choose_e_sound in He; [| exact Hpos].
  destruct He as [Hcop [j Hj]].
  destruct (mod_inverse_at_sound 2 _ _ _ Hpos Hd) as (_ & _ & Hrange & Hone).
  split; [exact Hp |]. split; [exact Hq |].
  split; [exact Hn |]. split; [reflexivity |].
  split; [destruct (65537 >=? phi); lia |].
  split; [exact Hcop |]. split; [exact Hrange | exact Hone].
Qed.

(** The exponent found is below [2^17], so the recursion of the inverse is
    at most some forty calls deep, whatever the size of [phi]. *)
Lemma mod_inverse_at_small_exponent (e phi : Z) :
  0 <= e < 2 ^ 17 -> 0 < phi -> Z.gcd e phi = 1 ->
  mod_inverse_at 2 e phi = Ok (euclid_inverse e phi).
Proof.
  intros He Hphi Hcop.
  destruct (extended_gcd_rec_bits_first 17 (recursion_limit - 3) e phi)
    as (g & x & y & Hrun); [exact He | exact Hphi | unfold recursion_limit; lia |].
  destruct (mod_inverse_at_run 2 e phi g x y Hphi Hrun) as [_ Hinv].
  rewrite Hinv, Hcop. reflexivity.
Qed.

(** Key generation returns on every pair of primes that fit a double. *)
Lemma generate_rsa_keys_primes (p q : Z) :
  Z.prime p -> Z.prime q -> p < float_overflow -> q < float_overflow ->
  exists keys, generate_rsa_keys p q = Ok keys.
Proof.
  intros Hp Hq Hpfits Hqfits.
  pose proof (Z.prime_ge_2 p Hp) as Hp2.
  pose proof (Z.prime_ge_2 q Hq) as Hq2.
  unfold generate_rsa_keys.
  rewrite (is_prime_prime p Hp Hpfits). cbn [bind negb].
  rewrite (is_prime_prime q Hq Hqfits). cbn [bind negb].
  destruct (Z.le_gt_cases 4 ((p - 1) * (q - 1))) as [Hbig | Hsmall].
  - pose proof (phi_even p q Hp Hq Hbig) as Heven.
    assert (Hbound : (p - 1) * (q - 1) < 2 ^ 2048).
    { pose proof float_overflow_below as Hbelow.
      change (2 ^ 2048) with (2 ^ 1024 * 2 ^ 1024).
      apply Z.mul_lt_mono_nonneg; lia. }
    destruct (choose_e_small _ Hbig Heven Hbound)
      as (e & He & Herange & Hcop & Hsmall).
    rewrite He. cbn [bind].
    rewrite mod_inverse_at_small_exponent by (assumption || lia).
    cbn [bind]. eexists. reflexivity.
  - assert (Hcases : (p = 2 /\ q = 2) \/ (p = 2 /\ q = 3) \/ (p = 3 /\ q = 2)
                     \/ (p = 2 /\ q = 4) \/ (p = 4 /\ q = 2)) by nia.
    destruct Hcases as [[-> ->] | [[-> ->] | [[-> ->] | [[-> ->] | [-> ->]]]]];
      eexists; vm_compute; reflexivity.
Qed.

(** It raises its [ValueError] when the first number is seen not to be
    prime, or the first is prime and the second is seen not to be. *)
Lemma generate_rsa_keys_not_prime (p q : Z) :
  p < float_overflow -> q < float_overflow -> ~ (Z.prime p /\ Z.prime q) ->
  generate_rsa_keys p q = Raise (ValueError "Both p and q must be prime").
Proof.
  intros Hpfits Hqfits Hnot. unfold generate_rsa_keys.
  destruct (is_prime_returns p (or_introl Hpfits)) as [[|] Hp]; rewrite Hp;
    cbn [bind negb]; [| reflexivity].
  destruct (is_prime_returns q (or_introl Hqfits)) as [[|] Hq]; rewrite Hq;
    cbn [bind negb]; [| reflexivity].
  exfalso. apply Hnot.
  split; [now apply (is_prime_sound p true) | now apply (is_prime_sound q true)].
Qed.

(** C6, as stated, fails for the primes [2] and [3]: [phi] is [2], the seed
    [3] is already coprime with it, and the key pair returned has
    [e = 3 > phi].  No exponent with [1 < e < 2] exists at all. *)
Lemma generate_rsa_keys_2_3_counterexample :
  Z.prime 2 /\ Z.prime 3 /\
  exists keys, generate_rsa_keys 2 3 = Ok keys /\
               rsa_e keys = 3 /\ rsa_phi keys = 2 /\
               ~ (1 < rsa_e keys < rsa_phi keys).
Proof.
  split; [exact Z.prime_2 |]. split; [exact Z.prime_3 |].
  exists {| rsa_n := 6; rsa_e := 3; rsa_d := 1; rsa_phi := 2 |}.
  split; [vm_compute; reflexivity |].
  repeat split; try reflexivity. simpl. lia.
Qed.

(** C6, amended.  For all primes [p] and [q] below [2^1024 - 2^970], the
    least integer that [math.sqrt] cannot convert to a double, with
    [(p-1)*(q-1) >= 4], that is for every such pair of primes other than
    [2,2], [2,3] and [3,2], [generate_rsa_keys p q] returns a key pair with
    [n = p*q], [phi = (p-1)*(q-1)], [1 < e < phi], [gcd(e, phi) = 1] and
    [(e*d) mod phi = 1].  An odd [p] or [q] from [2^1024 - 2^970] on makes
    [is_prime] raise [OverflowError] ([is_prime_overflow]). *)
Theorem generate_rsa_keys_invariants :
  forall p q : Z,
    Z.prime p -> Z.prime q ->
    p < 2 ^ 1024 - 2 ^ 970 -> q < 2 ^ 1024 - 2 ^ 970 ->
    4 <= (p - 1) * (q - 1) ->
    exists keys,
      generate_rsa_keys p q = Ok keys /\
      rsa_n keys = p * q /\
      rsa_phi keys = (p - 1) * (q - 1) /\
      1 < rsa_e keys < rsa_phi keys /\
      Z.gcd (rsa_e keys) (rsa_phi keys) = 1 /\
      (rsa_e keys * rsa_d keys) mod rsa_phi keys = 1.
Proof.
  intros p q Hp Hq Hpfits Hqfits Hphi4.
  destruct (generate_rsa_keys_primes p q Hp Hq Hpfits Hqfits) as [keys Hkeys].
  exists keys. split; [exact Hkeys |].
  destruct (generate_rsa_keys_inv p q keys Hkeys)
    as (_ & _ & Hn & Hphi & He & Hcop & Hd & Hone).
  destruct (generate_rsa_keys_run p q keys Hkeys) as (_ & _ & _ & _ & Hsearch & _).
  pose proof (phi_even p q Hp Hq Hphi4) as Heven.
  destruct (choose_e_below_phi _ Hphi4 Heven) as (e & He' & Herange & _).
  assert (e = rsa_e keys) by congruence. subst e.
  rewrite Hphi in *.
  repeat split; try assumption; try lia.
  rewrite Hone. apply Z.mod_small. lia.
Qed.

Lemma generate_rsa_keys_invariants_witness :
  Z.prime 61 /\ Z.prime 53 /\
  61 < 2 ^ 1024 - 2 ^ 970 /\ 53 < 2 ^ 1024 - 2 ^ 970 /\
  4 <= (61 - 1) * (53 - 1) /\
  exists keys,
    generate_rsa_keys 61 53 = Ok keys /\
    rsa_n keys = 61 * 53 /\
    rsa_phi keys = (61 - 1) * (53 - 1) /\
    1 < rsa_e keys < rsa_phi keys /\
    Z.gcd (rsa_e keys) (rsa_phi keys) = 1 /\
    (rsa_e keys * rsa_d keys) mod rsa_phi keys = 1.
Proof.
  assert (H61 : Z.prime 61)
    by (apply is_prime_true_prime; vm_compute; reflexivity).
  assert (H53 : Z.prime 53)
    by (apply is_prime_true_prime; vm_compute; reflexivity).
  split; [exact H61 |]. split; [exact H53 |].
  split; [reflexivity |]. split; [reflexivity |]. split; [simpl; lia |].
  apply (generate_rsa_keys_invariants 61 53 H61 H53);
    [reflexivity | reflexivity | simpl; lia].
Defined.




(** * Properties of the Fermat verifier *)

(** The trial steps pair each positive exponent with the matching power. *)
Lemma fermat_steps_loop_ok (a p : Z) (exponents : list Z) :
  p <> 0 -> Forall (fun i => 0 < i) exponents ->
  fermat_steps_loop a p exponents
  = Ok (map (fun i => (i, a ^ i mod p)) exponents).
Proof.
  intros Hp Hall. induction Hall as [| i rest Hi _ IH]; [reflexivity |].
  cbn [fermat_steps_loop map].
  rewrite mod_power_pos by assumption. cbn [bind].
  rewrite IH. reflexivity.
Qed.

(** Every odd number from the overflow of the conversion on makes the
    verifier raise [OverflowError], and some of them are prime. *)
Lemma fermat_little_theorem_overflow (a p : Z) :
  float_overflow <= p -> p mod 2 = 1 ->
  fermat_little_theorem a p = Raise OverflowError.
Proof.
  intros Hbig Hodd. unfold fermat_little_theorem.
  now rewrite is_prime_overflow.
Qed.

(** C8, as stated, fails for the primes that [math.sqrt] cannot convert to
    a double: there are primes above every bound, and for each of them
    from [2^1024 - 2^970] on, the Mersenne prime [2^1279 - 1] for one, the
    call raises [OverflowError] and returns no result. *)
Lemma fermat_little_theorem_large_prime_counterexample :
  exists p : Z,
    Z.prime p /\ Z.gcd 2 p = 1 /\
    fermat_little_theorem 2 p = Raise OverflowError /\
    forall trial, fermat_little_theorem 2 p <> Ok trial.
Proof.
  destruct (prime_above float_overflow) as (p & Hp & Hbig).
  pose proof float_overflow_above as Habove.
  assert (H3 : 3 <= p).
  { assert (2 ^ 2 <= 2 ^ 1023) by (apply Z.pow_le_mono_r; lia). lia. }
  destruct (prime_two_or_odd p Hp) as [-> | Hodd]; [lia |].
  assert (Hrun : fermat_little_theorem 2 p = Raise OverflowError)
    by (apply fermat_little_theorem_overflow; lia).
  exists p. split; [exact Hp |]. split.
  - rewrite Z.gcd_comm. apply Z.coprime_prime_small; [exact Hp | lia].
  - split; [exact Hrun |]. intros trial. rewrite Hrun. discriminate.
Qed.

(** C8, amended.  For every prime [p] below [2^1024 - 2^970], the least
    integer that [math.sqrt] cannot convert to a double, and every integer
    [a] with [gcd(a, p) = 1], [fermat_little_theorem a p] returns a trial
    whose [result] is [1], and that result is what [mod_power a (p-1) p]
    returns.  The two runs named by the specification, [(2, 7)] and
    [(3, 11)], are instances. *)
Theorem fermat_little_theorem_result :
  forall p a : Z,
    Z.prime p -> p < 2 ^ 1024 - 2 ^ 970 -> Z.gcd a p = 1 ->
    exists trial,
      fermat_little_theorem a p = Ok trial /\
      fermat_result trial = 1 /\
      mod_power a (p - 1) p = Ok (fermat_result trial).
Proof.
  intros p a Hp Hfits Hcop.
  pose proof (Z.prime_ge_2 p Hp) as Hp2.
  assert (Hunit : ~ (p | a)).
  { intros Hdiv. apply Z.divide_gcd_iff in Hdiv; [| lia].
    rewrite Z.gcd_comm in Hdiv. lia. }
  unfold fermat_little_theorem.
  rewrite (is_prime_prime p Hp Hfits). cbn [bind negb].
  rewrite mod_power_pos by lia. cbn [bind].
  rewrite (fermat_little p a Hp Hunit).
  rewrite fermat_steps_loop_ok.
  - cbn [bind]. eexists. split; [reflexivity |]. split; reflexivity.
  - lia.
  - apply Forall_forall. intros i Hi.
    apply py_range_In in Hi; [| lia]. destruct Hi as (k & -> & _). lia.
Qed.

Lemma fermat_little_theorem_result_witness :
  (Z.prime 7 /\ 7 < 2 ^ 1024 - 2 ^ 970 /\ Z.gcd 2 7 = 1 /\
   exists trial, fermat_little_theorem 2 7 = Ok trial /\
                 fermat_result trial = 1 /\
                 mod_power 2 (7 - 1) 7 = Ok (fermat_result trial)) /\
  (Z.prime 11 /\ 11 < 2 ^ 1024 - 2 ^ 970 /\ Z.gcd 3 11 = 1 /\
   exists trial, fermat_little_theorem 3 11 = Ok trial /\
                 fermat_result trial = 1 /\
                 mod_power 3 (11 - 1) 11 = Ok (fermat_result trial)).
Proof.
  assert (H7 : Z.prime 7)
    by (apply is_prime_true_prime; vm_compute; reflexivity).
  assert (H11 : Z.prime 11)
    by (apply is_prime_true_prime; vm_compute; reflexivity).
  split.
  - split; [exact H7 |]. split; [reflexivity |]. split; [reflexivity |].
    apply (fermat_little_theorem_result 7 2 H7); reflexivity.
  - split; [exact H11 |]. split; [reflexivity |]. split; [reflexivity |].
    apply (fermat_little_theorem_result 11 3 H11); reflexivity.
Defined.

Example fermat_3_11 :
  fermat_little_theorem 3 11
  = Ok {| fermat_result := 1;
          fermat_steps := [(1, 3); (2, 9); (3, 5); (4, 4); (5, 1);
                           (6, 3); (7, 9); (8, 5); (9, 4); (10, 1)] |}.
Proof. vm_compute. reflexivity. Qed.

(** * The Chinese remainder theorem *)

(** ** The accumulated sum *)

Lemma crt_sum_app (M : Z) (pre_r pre_m rs ms : list Z) :
  List.length pre_r = List.length pre_m ->
  crt_sum M (pre_r ++ rs) (pre_m ++ ms) = crt_sum M pre_r pre_m + crt_sum M rs ms.
Proof.
  revert pre_m. induction pre_r as [| r pre_r IH]; intros [| m pre_m] Hlen;
    simpl in Hlen; try discriminate.
  - reflexivity.
  - cbn [app crt_sum]. rewrite IH by lia. ring.
Qed.

Lemma crt_sum_divisible (M m : Z) (rs ms : list Z) :
  Forall (fun m' => (m | M / m')) ms -> (m | crt_sum M rs ms).
Proof.
  intros Hall. revert rs.
  induction Hall as [| m' ms Hm' _ IH]; intros [| r rs]; cbn [crt_sum];
    try apply Z.divide_0_r.
  apply Z.divide_add_r; [| apply IH].
  apply Z.divide_mul_l, Z.divide_mul_r. exact Hm'.
Qed.

(** Every other modulus [m'] leaves a cofactor [M / m'] divisible by [m]. *)
Lemma other_cofactors_divisible (pre post : list Z) (m : Z) :
  Forall (fun m' => 0 < m') (pre ++ post) ->
  Forall (fun m' => (m | list_product (pre ++ m :: post) / m')) (pre ++ post).
Proof.
  intros Hpos. apply Forall_forall. intros m' Hin.
  assert (Hm' : 0 < m') by (rewrite Forall_forall in Hpos; now apply Hpos).
  apply (list_product_In_divide m' (pre ++ post)) in Hin.
  destruct Hin as [k Hk].
  replace (list_product (pre ++ m :: post)) with (k * m * m').
  - rewrite Z.div_mul by lia. apply Z.divide_factor_r.
  - rewrite list_product_app, list_product_cons.
    rewrite list_product_app in Hk.
    replace (list_product pre * (m * list_product post))
      with (list_product pre * list_product post * m) by ring.
    rewrite Hk. ring.
Qed.

(** At each position the sum is congruent to the remainder there. *)
Lemma crt_sum_residue (pre_r post_r pre_m post_m : list Z) (r m : Z) :
  List.length pre_r = List.length pre_m ->
  Forall (fun m' => 0 < m') (pre_m ++ m :: post_m) ->
  pairwise_coprime (pre_m ++ m :: post_m) ->
  crt_sum (list_product (pre_m ++ m :: post_m))
          (pre_r ++ r :: post_r) (pre_m ++ m :: post_m) mod m
  = r mod m.
Proof.
  intros Hlen Hpos Hpw.
  set (M := list_product (pre_m ++ m :: post_m)).
  assert (Hm : 0 < m) by (apply Forall_elt in Hpos; exact Hpos).
  assert (Hothers : Forall (fun m' => 0 < m') (pre_m ++ post_m)).
  { apply Forall_app in Hpos. destruct Hpos as [Hpre Hpost].
    apply Forall_app. split; [exact Hpre | now inversion Hpost]. }
  pose proof (other_cofactors_divisible pre_m post_m m Hothers) as Hdivs.
  fold M in Hdivs. apply Forall_app in Hdivs. destruct Hdivs as [Hdpre Hdpost].
  destruct (crt_cofactor pre_m post_m m Hm Hpw) as [_ Hcop]. fold M in Hcop.
  destruct (euclid_inverse_coprime (M / m) m Hm Hcop) as [_ Hone].
  rewrite crt_sum_app by exact Hlen. cbn [crt_sum].
  set (y := euclid_inverse (M / m) m) in *.
  destruct (crt_sum_divisible M m pre_r pre_m Hdpre) as [k1 Hk1].
  destruct (crt_sum_divisible M m post_r post_m Hdpost) as [k2 Hk2].
  rewrite Hk1, Hk2.
  replace (k1 * m + (r * (M / m) * y + k2 * m))
    with (r * (M / m * y) + (k1 + k2) * m) by ring.
  rewrite Z.mod_add by lia.
  rewrite <- Z.mul_mod_idemp_r, Hone by lia.
  rewrite Z.mul_mod_idemp_r by lia. f_equal. ring.
Qed.

Lemma crt_sum_residues (pre_r pre_m rs ms : list Z) :
  List.length pre_r = List.length pre_m ->
  List.length rs = List.length ms ->
  Forall (fun m' => 0 < m') (pre_m ++ ms) ->
  pairwise_coprime (pre_m ++ ms) ->
  Forall2 (fun r m =>
             crt_sum (list_product (pre_m ++ ms)) (pre_r ++ rs) (pre_m ++ ms) mod m
             = r mod m) rs ms.
Proof.
  revert pre_r pre_m rs.
  induction ms as [| m ms IH]; intros pre_r pre_m [| r rs] Hpre Hlen Hpos Hpw;
    simpl in Hlen; try discriminate.
  - constructor.
  - constructor.
    + now apply crt_sum_residue.
    + specialize (IH (pre_r ++ [r]) (pre_m ++ [m]) rs).
      rewrite <- !app_assoc in IH. cbn [app] in IH.
      apply IH; try assumption; try lia.
      rewrite !length_app. simpl. lia.
Qed.

(** ** The loop computes the sum *)

Lemma py_index_middle {A : Type} (pre post : list A) (v : A) (i : nat) :
  i = List.length pre -> py_index (pre ++ v :: post) i = Ok v.
Proof.
  intros ->. unfold py_index.
  rewrite nth_error_app2 by lia. now rewrite Nat.sub_diag.
Qed.

(** On moduli that are positive and coprime with their cofactors the loop
    adds up the sum, unless one of the inverses runs out of frames. *)
Lemma crt_loop_cases (M : Z) (ms : list Z) :
  forall (rs pre_r pre_m : list Z) (x : Z),
    List.length pre_r = List.length pre_m ->
    List.length rs = List.length ms ->
    Forall (fun m => 0 < m /\ Z.gcd (M / m) m = 1) ms ->
    (crt_loop M (pre_r ++ rs) (pre_m ++ ms)
              (seq (List.length pre_m) (List.length ms)) x
     = Raise RecursionError /\
     Exists (fun m => mod_inverse_at 2 (M / m) m = Raise RecursionError) ms) \/
    crt_loop M (pre_r ++ rs) (pre_m ++ ms)
             (seq (List.length pre_m) (List.length ms)) x
    = Ok (x + crt_sum M rs ms).
Proof.
  induction ms as [| m ms IH]; intros [| r rs] pre_r pre_m x Hpre Hlen Hall;
    simpl in Hlen; try discriminate.
  - right. simpl. f_equal. ring.
  - inversion Hall as [| ? ? [Hm Hcop] Hrest]; subst.
    cbn [List.length seq crt_loop].
    rewrite py_index_middle by reflexivity. cbn [bind].
    rewrite py_floordiv_ok by lia. cbn [bind].
    destruct (mod_inverse_at_cases 2 (M / m) m Hm)
      as [Hrec | [[_ Hy] | [Hncop _]]]; [| | contradiction].
    { left. rewrite Hrec. split; [reflexivity | now left]. }
    rewrite Hy. cbn [bind].
    rewrite py_index_middle by (symmetry; exact Hpre). cbn [bind].
    assert (Hpre' : List.length (pre_r ++ [r]) = List.length (pre_m ++ [m]))
      by (rewrite !length_app; simpl; lia).
    assert (Hlen' : List.length rs = List.length ms) by lia.
    pose proof (IH rs (pre_r ++ [r]) (pre_m ++ [m])
                  (x + r * (M / m) * euclid_inverse (M / m) m)
                  Hpre' Hlen' Hrest) as Hnext.
    rewrite <- !app_assoc in Hnext. cbn [app] in Hnext.
    rewrite length_app in Hnext. cbn [List.length] in Hnext.
    rewrite Nat.add_1_r in Hnext.
    destruct Hnext as [[Hnext Hex] | Hnext]; rewrite Hnext.
    + left. split; [reflexivity | now right].
    + right. cbn [crt_sum]. f_equal. ring.
Qed.

Lemma crt_cofactors_coprime (moduli : list Z) :
  Forall (fun m => 0 < m) moduli -> pairwise_coprime moduli ->
  Forall (fun m => 0 < m /\ Z.gcd (list_product moduli / m) m = 1) moduli.
Proof.
  intros Hpos Hpw. apply Forall_forall. intros m Hin.
  assert (Hm : 0 < m) by (rewrite Forall_forall in Hpos; now apply Hpos).
  split; [exact Hm |].
  apply in_split in Hin. destruct Hin as (pre & post & ->).
  now apply crt_cofactor.
Qed.

(** For positive pairwise coprime moduli the function returns the sum
    reduced modulo the product, unless an inverse runs out of frames. *)
Lemma chinese_remainder_theorem_cases (remainders moduli : list Z) :
  List.length remainders = List.length moduli ->
  Forall (fun m => 0 < m) moduli -> pairwise_coprime moduli ->
  (chinese_remainder_theorem remainders moduli = Raise RecursionError /\
   Exists (fun m => mod_inverse_at 2 (list_product moduli / m) m
                    = Raise RecursionError) moduli) \/
  chinese_remainder_theorem remainders moduli
  = Ok (crt_sum (list_product moduli) remainders moduli
        mod list_product moduli).
Proof.
  intros Hlen Hpos Hpw. unfold chinese_remainder_theorem.
  rewrite Hlen, Nat.eqb_refl. cbn [negb].
  rewrite moduli_product_eq.
  pose proof (crt_loop_cases (list_product moduli) moduli remainders [] [] 0
                eq_refl Hlen (crt_cofactors_coprime moduli Hpos Hpw)) as Hloop.
  cbn [app List.length] in Hloop.
  destruct Hloop as [[Hloop Hex] | Hloop]; rewrite Hloop; cbn [bind].
  - left. split; [reflexivity | exact Hex].
  - right. rewrite Z.add_0_l. apply py_mod_ok.
    pose proof (list_product_pos moduli Hpos). lia.
Qed.

(** Moduli below [2^498] leave every inverse the frames it needs. *)
Lemma chinese_remainder_theorem_value (remainders moduli : list Z) :
  List.length remainders = List.length moduli ->
  Forall (fun m => 0 < m) moduli -> pairwise_coprime moduli ->
  Forall (fun m => m < 2 ^ 498) moduli ->
  chinese_remainder_theorem remainders moduli
  = Ok (crt_sum (list_product moduli) remainders moduli
        mod list_product moduli).
Proof.
  intros Hlen Hpos Hpw Hbound.
  destruct (chinese_remainder_theorem_cases remainders moduli Hlen Hpos Hpw)
    as [[_ Hex] | Hrun]; [exfalso | exact Hrun].
  apply Exists_exists in Hex. destruct Hex as (m & Hin & Hrec).
  rewrite Forall_forall in Hpos, Hbound.
  specialize (Hpos m Hin). specialize (Hbound m Hin).
  apply (mod_inverse_at_returns 2 (list_product moduli / m) m);
    [lia | lia | exact Hrec].
Qed.

(** Reducing modulo a common multiple keeps every residue. *)
Lemma residues_mod_multiple (s M : Z) (rs ms : list Z) :
  Forall (fun m => (m | M)) ms ->
  Forall2 (fun r m => s mod m = r mod m) rs ms ->
  Forall2 (fun r m => (s mod M) mod m = r mod m) rs ms.
Proof.
  intros Hdiv Hres. induction Hres as [| r m rs ms Hrm _ IH].
  - constructor.
  - inversion Hdiv; subst. constructor.
    + rewrite Z.mod_mod_divide by assumption. exact Hrm.
    + now apply IH.
Qed.

(** Two solutions of one system differ by a multiple of every modulus. *)
Lemma solutions_differ_by_multiples (x x' : Z) (rs ms : list Z) :
  Forall (fun m => 0 < m) ms ->
  Forall2 (fun r m => x mod m = r mod m) rs ms ->
  Forall2 (fun r m => x' mod m = r mod m) rs ms ->
  Forall (fun m => (m | x' - x)) ms.
Proof.
  intros Hpos Hres. revert Hpos.
  induction Hres as [| r m rs ms Hrm _ IH]; intros Hpos Hres';
    [constructor |].
  inversion Hres'; subst. inversion Hpos; subst. constructor.
  - apply Z.mod_divide; [lia |]. apply Z.cong_iff_0. congruence.
  - now apply IH.
Qed.

(** The value returned solves the system, and is the only solution in
    [[0, M)]. *)
Lemma crt_value_solves (remainders moduli : list Z) :
  List.length remainders = List.length moduli ->
  Forall (fun m => 0 < m) moduli -> pairwise_coprime moduli ->
  let M := moduli_product moduli in
  let x := crt_sum (list_product moduli) remainders moduli mod M in
  0 <= x < M /\
  Forall2 (fun r m => x mod m = r mod m) remainders moduli /\
  (forall x',
      0 <= x' < M ->
      Forall2 (fun r m => x' mod m = r mod m) remainders moduli ->
      x' = x).
Proof.
  intros Hlen Hpos Hpw M.
  assert (HM : M = list_product moduli) by apply moduli_product_eq.
  assert (HMpos : 0 < M) by (rewrite HM; now apply list_product_pos).
  set (s := crt_sum (list_product moduli) remainders moduli). cbv zeta.
  assert (Hrange : 0 <= s mod M < M) by (apply Z.mod_pos_bound; exact HMpos).
  assert (Hres : Forall2 (fun r m => (s mod M) mod m = r mod m) remainders moduli).
  { pose proof (crt_sum_residues [] [] remainders moduli eq_refl Hlen Hpos Hpw)
      as Hsum.
    cbn [app] in Hsum. fold s in Hsum.
    apply residues_mod_multiple; [| exact Hsum].
    apply Forall_forall. intros m Hin. rewrite HM.
    now apply list_product_In_divide. }
  split; [exact Hrange |]. split; [exact Hres |].
  intros x' Hx' Hres'.
  pose proof (solutions_differ_by_multiples _ _ _ _ Hpos Hres Hres') as Hall.
  apply (pairwise_coprime_product_divides moduli _ Hpw) in Hall.
  rewrite <- HM in Hall.
  apply Z.mod_divide in Hall; [| lia]. apply Z.cong_iff_0 in Hall.
  rewrite !Z.mod_small in Hall by lia. exact Hall.
Qed.

(** C3, as stated, fails on moduli on which Euclid's algorithm takes more
    steps than the call stack has frames: [fib 1000] and [fib 1001] are
    positive and coprime, [mod_inverse] is called on them, and the
    recursion of [extended_gcd], a thousand calls deep, ends in
    [RecursionError]. *)
Lemma chinese_remainder_theorem_fibonacci_counterexample :
  List.length [1; 2] = List.length [fib 1000; fib 1001] /\
  [1; 2] <> [] /\
  Forall (fun m => 0 < m) [fib 1000; fib 1001] /\
  pairwise_coprime [fib 1000; fib 1001] /\
  chinese_remainder_theorem [1; 2] [fib 1000; fib 1001]
  = Raise RecursionError /\
  forall x, chinese_remainder_theorem [1; 2] [fib 1000; fib 1001] <> Ok x.
Proof.
  assert (Hrun : chinese_remainder_theorem [1; 2] [fib 1000; fib 1001]
                 = Raise RecursionError) by (vm_compute; reflexivity).
  split; [reflexivity |]. split; [discriminate |].
  split; [repeat constructor |].
  split.
  - constructor; [| repeat constructor].
    constructor; [vm_compute; reflexivity | constructor].
  - split; [exact Hrun |]. intros x. rewrite Hrun. discriminate.
Qed.

(** C3, amended.  For equal-length, non-empty lists of remainders and of
    positive pairwise coprime moduli, unless the recursion of
    [extended_gcd] exceeds the recursion limit of the interpreter, which it
    cannot when every modulus is below [2^498],
    [chinese_remainder_theorem] returns the unique [x] with [0 <= x < M]
    and [x = remainders[i]] modulo [moduli[i]] at every index, where [M] is
    the product of the moduli; the endpoint pairs it with [M], and on
    [[2,3,2]], [[3,5,7]] yields [23] with modulus [105]. *)
Theorem chinese_remainder_theorem_correct :
  forall remainders moduli : list Z,
    List.length remainders = List.length moduli ->
    remainders <> [] ->
    Forall (fun m => 0 < m) moduli ->
    pairwise_coprime moduli ->
    let M := moduli_product moduli in
    (Forall (fun m => m < 2 ^ 498) moduli ->
     chinese_remainder_theorem remainders moduli <> Raise RecursionError) /\
    (chinese_remainder_theorem remainders moduli <> Raise RecursionError ->
     exists x,
       chinese_remainder_theorem remainders moduli = Ok x /\
       crt_solve remainders moduli = Ok (x, M) /\
       0 <= x < M /\
       Forall2 (fun r m => x mod m = r mod m) remainders moduli /\
       (forall x',
           0 <= x' < M ->
           Forall2 (fun r m => x' mod m = r mod m) remainders moduli ->
           x' = x)).
Proof.
  intros remainders moduli Hlen _ Hpos Hpw M. split.
  - intros Hbound.
    rewrite (chinese_remainder_theorem_value _ _ Hlen Hpos Hpw Hbound).
    discriminate.
  - intros Hreturns.
    destruct (chinese_remainder_theorem_cases remainders moduli Hlen Hpos Hpw)
      as [[Hrec _] | Hrun]; [contradiction |].
    assert (HM : M = list_product moduli) by apply moduli_product_eq.
    rewrite <- HM in Hrun.
    destruct (crt_value_solves remainders moduli Hlen Hpos Hpw)
      as (Hrange & Hres & Huniq).
    fold M in Hrange, Hres, Huniq. rewrite <- HM in Hrange, Hres, Huniq.
    eexists. split; [exact Hrun |].
    split; [unfold crt_solve; rewrite Hrun; reflexivity |].
    split; [exact Hrange |]. split; [exact Hres | exact Huniq].
Qed.

Lemma chinese_remainder_theorem_correct_witness :
  List.length [2; 3; 2] = List.length [3; 5; 7] /\
  [2; 3; 2] <> [] /\
  Forall (fun m => 0 < m) [3; 5; 7] /\
  pairwise_coprime [3; 5; 7] /\
  Forall (fun m => m < 2 ^ 498) [3; 5; 7] /\
  exists x,
    chinese_remainder_theorem [2; 3; 2] [3; 5; 7] = Ok x /\
    crt_solve [2; 3; 2] [3; 5; 7] = Ok (x, moduli_product [3; 5; 7]) /\
    0 <= x < moduli_product [3; 5; 7] /\
    Forall2 (fun r m => x mod m = r mod m) [2; 3; 2] [3; 5; 7] /\
    (forall x',
        0 <= x' < moduli_product [3; 5; 7] ->
        Forall2 (fun r m => x' mod m = r mod m) [2; 3; 2] [3; 5; 7] ->
        x' = x) /\
    x = 23 /\ moduli_product [3; 5; 7] = 105.
Proof.
  assert (Hpos : Forall (fun m => 0 < m) [3; 5; 7])
    by (repeat constructor).
  assert (Hpw : pairwise_coprime [3; 5; 7])
    by (repeat constructor).
  assert (Hbound : Forall (fun m => m < 2 ^ 498) [3; 5; 7])
    by (repeat constructor).
  split; [reflexivity |]. split; [discriminate |].
  split; [exact Hpos |]. split; [exact Hpw |]. split; [exact Hbound |].
  destruct (chinese_remainder_theorem_correct [2; 3; 2] [3; 5; 7]
              eq_refl ltac:(discriminate) Hpos Hpw)
    as [Hfits Hsolves].
  destruct (Hsolves (Hfits Hbound))
    as (x & Hrun & Hsolve & Hrange & Hres & Huniq).
  exists x. repeat split; try assumption; try apply Hrange.
  assert (Hvalue : chinese_remainder_theorem [2; 3; 2] [3; 5; 7] = Ok 23)
    by (vm_compute; reflexivity).
  rewrite Hvalue in Hrun. now injection Hrun as <-.
Defined.

(** * The ciphers *)

(** ** Upper-casing *)

Lemma upper_lookup_In (c : Z) (table : list (Z * list Z)) (mapping : list Z) :
  upper_lookup c table = Some mapping -> In (c, mapping) table.
Proof.
  induction table as [| [k m] table IH]; cbn [upper_lookup]; [discriminate |].
  destruct (Z.eqb_spec c k) as [-> | Hne].
  - intros H. injection H as ->. now left.
  - intros H. right. now apply IH.
Qed.

(** No mapping is empty, and none holds a character that has a mapping
    itself: upper-casing twice is upper-casing once. *)
Lemma upper_table_closed :
  forallb (fun entry => match snd entry with
                        | [] => false
                        | mapping => forallb upper_fixed mapping
                        end) upper_table = true.
Proof. vm_compute. reflexivity. Qed.

(** The letters [A] to [Z] have no mapping. *)
Lemma upper_table_letters : forallb upper_fixed (py_range 65 91 1) = true.
Proof. vm_compute. reflexivity. Qed.

Lemma upper_fixed_char (c : Z) : upper_fixed c = true -> upper_char c = [c].
Proof.
  unfold upper_fixed, upper_char.
  destruct (upper_lookup c upper_table); [discriminate | reflexivity].
Qed.

Lemma upper_char_entry (c : Z) :
  upper_char c <> [] /\ Forall (fun u => upper_fixed u = true) (upper_char c).
Proof.
  unfold upper_char. destruct (upper_lookup c upper_table) as [mapping |] eqn:Hc.
  - apply upper_lookup_In in Hc.
    pose proof upper_table_closed as Hclosed.
    rewrite forallb_forall in Hclosed. specialize (Hclosed _ Hc).
    cbn [snd] in Hclosed. destruct mapping as [| u mapping]; [discriminate |].
    split; [discriminate |].
    apply Forall_forall. intros v Hv.
    rewrite forallb_forall in Hclosed. now apply Hclosed.
  - split; [discriminate |]. constructor; [| constructor].
    unfold upper_fixed. now rewrite Hc.
Qed.

Lemma is_upper_letter_spec (c : Z) : is_upper_letter c = true <-> 65 <= c <= 90.
Proof. unfold is_upper_letter, ord. rewrite andb_true_iff. lia. Qed.

Lemma letter_fixed (c : Z) : is_upper_letter c = true -> upper_fixed c = true.
Proof.
  intros Hc. apply is_upper_letter_spec in Hc.
  pose proof upper_table_letters as Hletters.
  rewrite forallb_forall in Hletters. apply Hletters.
  apply py_range_In; [lia |]. exists (Z.to_nat (c - 65)). lia.
Qed.

Lemma upper_of_fixed (text : list Z) :
  Forall (fun c => upper_fixed c = true) text -> upper text = text.
Proof.
  unfold upper. induction 1 as [| c text Hc _ IH]; [reflexivity |].
  cbn [flat_map]. rewrite IH, (upper_fixed_char c Hc). reflexivity.
Qed.

Lemma upper_is_fixed (text : list Z) :
  Forall (fun c => upper_fixed c = true) (upper text).
Proof.
  unfold upper. induction text as [| c text IH]; [constructor |].
  cbn [flat_map]. apply Forall_app. split; [apply upper_char_entry | exact IH].
Qed.

Lemma upper_idempotent (text : list Z) : upper (upper text) = upper text.
Proof. apply upper_of_fixed, upper_is_fixed. Qed.

Lemma upper_app (s1 s2 : list Z) : upper (s1 ++ s2) = upper s1 ++ upper s2.
Proof. apply flat_map_app. Qed.

Lemma upper_nonempty (key : list Z) : key <> [] -> upper key <> [].
Proof.
  destruct key as [| c key]; [contradiction |]. intros _.
  unfold upper. cbn [flat_map].
  destruct (upper_char_entry c) as [Hne _].
  destruct (upper_char c); [contradiction | discriminate].
Qed.

(** ** Caesar *)

Lemma caesar_char_letter (s c : Z) :
  is_upper_letter c = true ->
  is_upper_letter (caesar_char s c) = true /\
  caesar_char s c = (c - 65 + s) mod 26 + 65.
Proof.
  intros Hc. unfold caesar_char, chr, ord. rewrite Hc.
  pose proof (Z.mod_pos_bound (c - 65 + s) 26 ltac:(lia)) as Hv.
  split; [apply is_upper_letter_spec; lia | reflexivity].
Qed.

Lemma caesar_char_other (s c : Z) :
  is_upper_letter c = false -> caesar_char s c = c.
Proof. intros Hc. unfold caesar_char. now rewrite Hc. Qed.

Lemma caesar_char_mod (s c : Z) : caesar_char (s mod 26) c = caesar_char s c.
Proof.
  unfold caesar_char. destruct (is_upper_letter c); [| reflexivity].
  now rewrite Z.add_mod_idemp_r by lia.
Qed.

Lemma caesar_char_compose (s1 s2 c : Z) :
  caesar_char s2 (caesar_char s1 c) = caesar_char (s1 + s2) c.
Proof.
  destruct (is_upper_letter c) eqn:Hc.
  - destruct (caesar_char_letter s1 c Hc) as [Hletter Hvalue].
    destruct (caesar_char_letter s2 _ Hletter) as [_ ->].
    destruct (caesar_char_letter (s1 + s2) c Hc) as [_ ->].
    rewrite Hvalue. f_equal.
    replace ((c - 65 + s1) mod 26 + 65 - 65 + s2)
      with ((c - 65 + s1) mod 26 + s2) by ring.
    rewrite Z.add_mod_idemp_l by lia. f_equal. ring.
  - rewrite (caesar_char_other s1 c Hc).
    now rewrite !caesar_char_other.
Qed.

Lemma caesar_char_zero (c : Z) : caesar_char 0 c = c.
Proof.
  destruct (is_upper_letter c) eqn:Hc; [| now apply caesar_char_other].
  destruct (caesar_char_letter 0 c Hc) as [_ ->].
  apply is_upper_letter_spec in Hc.
  rewrite Z.add_0_r, Z.mod_small by lia. ring.
Qed.

Lemma caesar_loop_mod (s : Z) (text : list Z) :
  caesar_loop (s mod 26) text = caesar_loop s text.
Proof.
  induction text as [| c text IH]; [reflexivity |].
  cbn [caesar_loop]. now rewrite caesar_char_mod, IH.
Qed.

Lemma caesar_loop_compose (s1 s2 : Z) (text : list Z) :
  caesar_loop s2 (caesar_loop s1 text) = caesar_loop (s1 + s2) text.
Proof.
  induction text as [| c text IH]; [reflexivity |].
  cbn [caesar_loop]. now rewrite caesar_char_compose, IH.
Qed.

Lemma caesar_loop_zero (text : list Z) : caesar_loop 0 text = text.
Proof.
  induction text as [| c text IH]; [reflexivity |].
  cbn [caesar_loop]. now rewrite caesar_char_zero, IH.
Qed.

(** The output of the loop on upper-cased text is already upper case. *)
Lemma caesar_loop_fixed (s : Z) (text : list Z) :
  Forall (fun c => upper_fixed c = true) text ->
  Forall (fun c => upper_fixed c = true) (caesar_loop s text).
Proof.
  induction 1 as [| c text Hc _ IH]; [constructor |].
  cbn [caesar_loop]. constructor; [| exact IH].
  destruct (is_upper_letter c) eqn:Hletter.
  - apply letter_fixed. now apply caesar_char_letter.
  - now rewrite caesar_char_other.
Qed.

Lemma upper_caesar_loop (s : Z) (text : list Z) :
  upper (caesar_loop s (upper text)) = caesar_loop s (upper text).
Proof. apply upper_of_fixed, caesar_loop_fixed, upper_is_fixed. Qed.

(** The shift that [caesar_cipher] applies, as one number. *)
Lemma caesar_cipher_loop (text : list Z) (shift : Z) (decrypt : bool) :
  caesar_cipher text shift decrypt
  = caesar_loop (if decrypt then - shift else shift) (upper text).
Proof.
  unfold caesar_cipher. destruct decrypt.
  - rewrite caesar_loop_mod.
    rewrite <- (caesar_loop_mod (26 - shift)), <- (caesar_loop_mod (- shift)).
    f_equal. replace (26 - shift) with (- shift + 1 * 26) by ring.
    apply Z.mod_add. lia.
  - apply caesar_loop_mod.
Qed.

Lemma caesar_round_trip (text : list Z) (shift : Z) :
  caesar_cipher (caesar_cipher text shift false) shift true = upper text.
Proof.
  rewrite !caesar_cipher_loop, upper_caesar_loop, caesar_loop_compose.
  replace (shift + - shift) with 0 by ring. apply caesar_loop_zero.
Qed.

(** ** Vigenere *)

(** Adding a key shift and then its negation, each followed by the
    program's double reduction, gives the letter index back. *)
Lemma vigenere_shift_round_trip (a shift : Z) :
  0 <= a < 26 ->
  (((a + shift) mod 26 + 26) mod 26 + - shift) mod 26 + 26 = a + 26.
Proof.
  intros Ha. rewrite normalise_mod by lia.
  rewrite Z.add_mod_idemp_l by lia.
  replace (a + shift + - shift) with a by ring.
  now rewrite Z.mod_small by lia.
Qed.

Section Vigenere.
Variable key_upper : list Z.
Hypothesis key_nonempty : key_upper <> [].

(** The key letter used at a position, the same in both directions. *)
Lemma key_letter (key_index : Z) :
  exists i k,
    py_mod key_index (Z.of_nat (List.length key_upper)) = Ok i /\
    py_index key_upper (Z.to_nat i) = Ok k.
Proof.
  assert (Hlen : List.length key_upper <> 0%nat)
    by (destruct key_upper; [contradiction | discriminate]).
  pose proof (Z.mod_pos_bound key_index
                (Z.of_nat (List.length key_upper)) ltac:(lia)) as Hi.
  destruct (nth_error key_upper
              (Z.to_nat (key_index mod Z.of_nat (List.length key_upper))))
    as [k |] eqn:Hk.
  - eexists. exists k. split; [apply py_mod_ok; lia |].
    unfold py_index. now rewrite Hk.
  - apply nth_error_None in Hk. lia.
Qed.

(** One pass in either direction followed by the pass in the other
    direction restores upper-case text. *)
Lemma vigenere_loop_inverse (decrypt : bool) (text : list Z) :
  forall key_index : Z,
    Forall (fun c => upper_fixed c = true) text ->
    exists out,
      vigenere_loop key_upper decrypt key_index text = Ok out /\
      Forall (fun c => upper_fixed c = true) out /\
      vigenere_loop key_upper (negb decrypt) key_index out = Ok text.
Proof.
  induction text as [| char text IH]; intros key_index Hup.
  - exists []. repeat split. constructor.
  - inversion Hup as [| ? ? Hchar Htext]; subst.
    destruct (is_upper_letter char) eqn:Hletter.
    + destruct (IH (key_index + 1) Htext) as (out & Hfwd & Hout & Hback).
      destruct (key_letter key_index) as (i & k & Hi & Hk).
      pose proof Hletter as Hrange. apply is_upper_letter_spec in Hrange.
      set (shift := if decrypt then - (ord k - 65) else ord k - 65).
      set (v := ((ord char - 65 + shift) mod 26 + 26) mod 26).
      assert (Hv : 0 <= v < 26) by (apply Z.mod_pos_bound; lia).
      assert (Hnew : is_upper_letter (chr (v + 65)) = true)
        by (apply is_upper_letter_spec; unfold chr; lia).
      assert (Hback_shift :
                (if negb decrypt then - (ord k - 65) else ord k - 65) = - shift)
        by (unfold shift; destruct decrypt; cbn [negb]; ring).
      exists (chr (v + 65) :: out).
      split; [| split].
      * cbn [vigenere_loop]. rewrite Hletter, Hi. cbn [bind].
        rewrite Hk. cbn [bind]. rewrite Hfwd. reflexivity.
      * constructor; [now apply letter_fixed | exact Hout].
      * cbn [vigenere_loop]. rewrite Hnew.
        rewrite Hi. cbn [bind]. rewrite Hk. cbn [bind]. rewrite Hback.
        cbn [bind]. do 2 f_equal.
        rewrite Hback_shift. unfold chr at 2. unfold ord at 1.
        replace (v + 65 - 65 + - shift) with (v + - shift) by ring.
        unfold v, ord, chr. rewrite vigenere_shift_round_trip by lia.
        replace (char - 65 + 26) with (char - 65 + 1 * 26) by ring.
        rewrite Z.mod_add, Z.mod_small by lia. ring.
    + destruct (IH key_index Htext) as (out & Hfwd & Hout & Hback).
      exists (char :: out). split; [| split].
      * cbn [vigenere_loop]. rewrite Hletter, Hfwd. reflexivity.
      * constructor; assumption.
      * cbn [vigenere_loop]. rewrite Hletter, Hback. reflexivity.
Qed.
End Vigenere.

(** With any key that is not empty the cipher returns, and the two
    directions undo each other. *)
Lemma vigenere_inverse (text key : list Z) (decrypt : bool) :
  key <> [] ->
  exists out,
    vigenere_cipher text key decrypt = Ok out /\
    vigenere_cipher out key (negb decrypt) = Ok (upper text).
Proof.
  intros Hkey. unfold vigenere_cipher.
  destruct (vigenere_loop_inverse (upper key) (upper_nonempty key Hkey)
              decrypt (upper text) 0 (upper_is_fixed text))
    as (out & Hfwd & Hout & Hback).
  exists out. split; [exact Hfwd |]. now rewrite (upper_of_fixed out Hout).
Qed.

(** C7.  Decrypting an encryption with the same key recovers the
    upper-cased text: for every text and every integer shift,
    [caesar_cipher (caesar_cipher text shift false) shift true] is the text
    upper-cased; and for every text and every non-empty key, alphabetic or
    not, encrypting with [vigenere_cipher] succeeds and decrypting the
    result with the same key returns the text upper-cased.  Texts and keys
    are arbitrary strings of Unicode, upper-cased as [str.upper] does. *)
Theorem cipher_round_trip :
  forall (text : list Z) (shift : Z) (key : list Z),
    key <> [] ->
    caesar_cipher (caesar_cipher text shift false) shift true = upper text /\
    exists out,
      vigenere_cipher text key false = Ok out /\
      vigenere_cipher out key true = Ok (upper text).
Proof.
  intros text shift key Hkey. split.
  - apply caesar_round_trip.
  - exact (vigenere_inverse text key false Hkey).
Qed.

Lemma cipher_round_trip_witness :
  codepoints "Key" <> [] /\
  caesar_cipher (caesar_cipher (codepoints "Stra" ++ [223; 101]) 3 false)
                3 true
  = codepoints "STRASSE" /\
  exists out,
    vigenere_cipher (codepoints "Stra" ++ [223; 101]) (codepoints "Key") false
    = Ok out /\
    vigenere_cipher out (codepoints "Key") true = Ok (codepoints "STRASSE").
Proof.
  split; [discriminate |].
  assert (Hupper : upper (codepoints "Stra" ++ [223; 101])
                   = codepoints "STRASSE") by (vm_compute; reflexivity).
  rewrite <- Hupper.
  apply (cipher_round_trip (codepoints "Stra" ++ [223; 101]) 3
           (codepoints "Key")).
  discriminate.
Defined.

(** ** The empty key *)

Lemma vigenere_loop_empty_key (decrypt : bool) (text : list Z) :
  forall key_index : Z,
    vigenere_loop [] decrypt key_index text
    = if has_letter text then Raise ZeroDivisionError else Ok text.
Proof.
  induction text as [| char text IH]; intros key_index; [reflexivity |].
  cbn [vigenere_loop has_letter].
  destruct (is_upper_letter char); cbn [orb].
  - reflexivity.
  - rewrite IH. now destruct (has_letter text).
Qed.

(** C9, as stated, fails on a text without letters: the key is never
    indexed, nothing is raised and the text is returned. *)
Lemma vigenere_empty_key_counterexample :
  List.length (@nil Z) = 0%nat /\
  vigenere_cipher (codepoints "2024-11") [] false = Ok (codepoints "2024-11") /\
  forall e, vigenere_cipher (codepoints "2024-11") [] false <> Raise e.
Proof.
  assert (Hrun : vigenere_cipher (codepoints "2024-11") [] false
                 = Ok (codepoints "2024-11")) by (vm_compute; reflexivity).
  split; [reflexivity |]. split; [exact Hrun |].
  intros e. rewrite Hrun. discriminate.
Qed.

(** C9, amended.  When the key has zero length, [vigenere_cipher] fails
    for every decrypt flag and every text whose upper-casing contains a
    letter of [A..Z], with the [ZeroDivisionError] raised by indexing the
    key modulo its length; any other text is returned upper-cased. *)
Theorem vigenere_empty_key :
  forall (text key : list Z) (decrypt : bool),
    List.length key = 0%nat ->
    vigenere_cipher text key decrypt
    = if has_letter (upper text) then Raise ZeroDivisionError
      else Ok (upper text).
Proof.
  intros text key decrypt Hlen.
  destruct key; [| discriminate].
  unfold vigenere_cipher. apply vigenere_loop_empty_key.
Qed.

Lemma vigenere_empty_key_witness :
  List.length (@nil Z) = 0%nat /\
  vigenere_cipher (codepoints "Hello") [] true = Raise ZeroDivisionError /\
  vigenere_cipher [223] [] false = Raise ZeroDivisionError.
Proof.
  split; [reflexivity |].
  split.
  - rewrite (vigenere_empty_key (codepoints "Hello") [] true eq_refl).
    vm_compute. reflexivity.
  - rewrite (vigenere_empty_key [223] [] false eq_refl).
    vm_compute. reflexivity.
Defined.

(** * Further properties of the modular operations *)

(** X1.  For every non-zero modulus, [mod_power] returns [base ^ exp]
    reduced by Python's remainder when [exp] is positive, and [1]
    otherwise: the square-and-multiply loop computes the power. *)
Theorem mod_power_computes_power :
  forall base exp m : Z,
    m <> 0 ->
    mod_power base exp m = Ok (if 0 <? exp then base ^ exp mod m else 1).
Proof.
  intros base exp m Hm.
  destruct (Z.ltb_spec 0 exp) as [Hpos | Hle].
  - now apply mod_power_pos.
  - now apply mod_power_nonpos.
Qed.

Lemma mod_power_computes_power_witness :
  497 <> 0 /\ mod_power 4 13 497 = Ok 445 /\ 4 ^ 13 mod 497 = 445.
Proof.
  split; [lia |]. split; [| reflexivity].
  apply (mod_power_computes_power 4 13 497). lia.
Defined.

(** X2.  The second reduction [(... + m) % m] never changes the value:
    for a negative modulus the three operations return the floor remainder
    of the exact result, which lies in [(m, 0]], so the result is not
    normalised into a non-negative range there. *)
Theorem negative_modulus_results :
  forall a b m : Z,
    m < 0 ->
    mod_add a b m = Ok ((a + b) mod m) /\
    mod_subtract a b m = Ok ((a - b) mod m) /\
    mod_multiply a b m = Ok ((a * b) mod m) /\
    m < (a + b) mod m <= 0 /\
    m < (a - b) mod m <= 0 /\
    m < (a * b) mod m <= 0.
Proof.
  intros a b m Hm.
  split; [apply mod_add_value; lia |].
  split; [apply mod_subtract_value; lia |].
  split; [apply mod_multiply_value; lia |].
  split; [| split]; apply Z.mod_neg_bound; exact Hm.
Qed.

Lemma negative_modulus_results_witness :
  -12 < 0 /\ mod_add 7 8 (-12) = Ok (-9) /\ mod_multiply 7 8 (-12) = Ok (-4).
Proof.
  split; [lia |].
  destruct (negative_modulus_results 7 8 (-12) ltac:(lia))
    as (Hadd & _ & Hmul & _).
  split; [exact Hadd | exact Hmul].
Defined.

(** X3.  The operations compose as in the ring of residues: subtracting
    what was added gives the first operand reduced, addition and
    multiplication are associative on results, and multiplication
    distributes over addition. *)
Theorem modular_operations_compose :
  forall a b c m : Z,
    m <> 0 ->
    (s <- mod_add a b m ;; mod_subtract s b m) = Ok (a mod m) /\
    (d <- mod_subtract a b m ;; mod_add d b m) = Ok (a mod m) /\
    (s <- mod_add a b m ;; mod_add s c m)
    = (t <- mod_add b c m ;; mod_add a t m) /\
    (s <- mod_multiply a b m ;; mod_multiply s c m)
    = (t <- mod_multiply b c m ;; mod_multiply a t m) /\
    (s <- mod_add b c m ;; mod_multiply a s m)
    = (x <- mod_multiply a b m ;; y <- mod_multiply a c m ;; mod_add x y m).
Proof.
  intros a b c m Hm.
  repeat (progress
            (rewrite ?mod_add_value, ?mod_subtract_value, ?mod_multiply_value
               by exact Hm; cbn [bind])).
  repeat split; f_equal.
  - rewrite Zminus_mod_idemp_l. f_equal. ring.
  - rewrite Zplus_mod_idemp_l. f_equal. ring.
  - rewrite Zplus_mod_idemp_l, Zplus_mod_idemp_r. f_equal. ring.
  - rewrite Zmult_mod_idemp_l, Zmult_mod_idemp_r. f_equal. ring.
  - rewrite Zmult_mod_idemp_r. rewrite <- Zplus_mod. f_equal. ring.
Qed.

Lemma modular_operations_compose_witness :
  12 <> 0 /\ (s <- mod_add 7 8 12 ;; mod_subtract s 8 12) = Ok (7 mod 12).
Proof.
  split; [lia |].
  apply (modular_operations_compose 7 8 5 12). lia.
Defined.

(** X4.  Exponents add and multiply: for positive exponents and a non-zero
    modulus, the power at [e1 + e2] is the modular product of the powers at
    [e1] and [e2], and raising a power to [e2] is the power at [e1 * e2]. *)
Theorem mod_power_exponent_laws :
  forall base e1 e2 m : Z,
    m <> 0 -> 0 < e1 -> 0 < e2 ->
    mod_power base (e1 + e2) m
    = (x <- mod_power base e1 m ;; y <- mod_power base e2 m ;;
       mod_multiply x y m) /\
    (x <- mod_power base e1 m ;; mod_power x e2 m)
    = mod_power base (e1 * e2) m.
Proof.
  intros base e1 e2 m Hm He1 He2.
  rewrite !mod_power_pos by lia. cbn [bind].
  rewrite mod_multiply_value, mod_power_pos by lia.
  split; f_equal.
  - rewrite Z.pow_add_r by lia. apply Zmult_mod.
  - rewrite Z.mod_pow_l. now rewrite Z.pow_mul_r by lia.
Qed.

Lemma mod_power_exponent_laws_witness :
  1000 <> 0 /\ 0 < 3 /\ 0 < 7 /\
  mod_power 2 (3 + 7) 1000
  = (x <- mod_power 2 3 1000 ;; y <- mod_power 2 7 1000 ;;
     mod_multiply x y 1000).
Proof.
  split; [lia |]. split; [lia |]. split; [lia |].
  apply (mod_power_exponent_laws 2 3 7 1000); lia.
Defined.

(** * Further properties of Euclid's algorithm *)

(** X5.  [gcd] returns on every pair of integers.  Its result is the
    greatest common divisor when the second argument is positive, the first
    argument itself when the second is zero, and the negated greatest common
    divisor when the second argument is negative. *)
Theorem gcd_result :
  forall a b : Z,
    gcd a b = Ok (if b <? 0 then - Z.gcd a b
                  else if b =? 0 then a else Z.gcd a b).
Proof.
  intros a b. exact (gcd_value a b).
Qed.

(** X6.  Unless its recursion exceeds the recursion limit of the
    interpreter, which it cannot when the second argument is below [2^499]
    in absolute value, [extended_gcd] returns a triple [(g, x, y)] with
    [a*x + b*y = g], where [g] is the value [gcd] returns on the same pair
    and is the greatest common divisor up to sign.  On the consecutive
    Fibonacci numbers [fib 1001] and [fib 1000] it raises
    [RecursionError] ([extended_gcd_fib_1000]). *)
Theorem extended_gcd_bezout :
  forall a b : Z,
    (Z.abs b < 2 ^ 499 -> extended_gcd a b <> Raise RecursionError) /\
    (extended_gcd a b <> Raise RecursionError ->
     exists g x y,
       extended_gcd a b = Ok (g, x, y) /\
       a * x + b * y = g /\
       gcd a b = Ok g /\
       Z.abs g = Z.gcd a b).
Proof.
  intros a b. unfold extended_gcd. split.
  - intros Hb.
    destruct (extended_gcd_rec_bits 499 (recursion_limit - 1) a b Hb)
      as (g & x & y & Hrun); [unfold recursion_limit; lia |].
    rewrite Hrun. discriminate.
  - intros Hreturns.
    destruct (extended_gcd_rec_outcomes (recursion_limit - 1) a b)
      as [Hrec | (g & x & y & Hrun)]; [contradiction |].
    destruct (extended_gcd_rec_sound _ _ _ _ _ _ Hrun) as (Hbez & Habs & Hval).
    exists g, x, y. repeat split; try assumption.
    rewrite Hval. apply gcd_value.
Qed.

(** A modulus that is not positive never yields an inverse. *)
Lemma mod_inverse_at_nonpositive (depth : nat) (a m g x y : Z) :
  m <= 0 ->
  extended_gcd_rec (recursion_limit - S depth) a m = Ok (g, x, y) ->
  mod_inverse_at depth a m
  = if (m =? 0) && (a =? 1) then Raise ZeroDivisionError
    else Raise (ValueError "Modular inverse does not exist").
Proof.
  intros Hm Hrun.
  destruct (extended_gcd_rec_sound _ _ _ _ _ _ Hrun) as (_ & _ & Hval).
  unfold mod_inverse_at. rewrite Hrun. cbn [bind].
  unfold euclid_gcd in Hval. pose proof (Z.gcd_nonneg a m) as Hnonneg.
  destruct (Z.eqb_spec m 0) as [-> | Hnz]; cbn [andb].
  - change (0 <? 0) with false in Hval. cbv iota in Hval. subst g.
    destruct (Z.eqb_spec a 1) as [-> | Hne]; cbn [negb]; reflexivity.
  - destruct (Z.ltb_spec m 0); [| lia].
    destruct (Z.eqb_spec g 1) as [Hg | _]; [lia | reflexivity].
Qed.

(** X7.  [mod_inverse] never returns an inverse for a modulus that is not
    positive.  Unless the recursion exceeds the limit, which it cannot for
    a modulus above [-2^498], a negative modulus makes the gcd computed
    negative, hence different from [1], and the [ValueError] is raised even
    when the arguments are coprime; for modulus zero the same happens
    unless [a] is [1], where the final remainder raises
    [ZeroDivisionError]. *)
Theorem mod_inverse_nonpositive_modulus :
  forall a m : Z,
    m <= 0 ->
    (forall inv, mod_inverse a m <> Ok inv) /\
    (- 2 ^ 498 < m ->
     mod_inverse a m
     = if (m =? 0) && (a =? 1) then Raise ZeroDivisionError
       else Raise (ValueError "Modular inverse does not exist")).
Proof.
  intros a m Hm. unfold mod_inverse. split.
  - intros inv.
    destruct (extended_gcd_rec_outcomes (recursion_limit - 2) a m)
      as [Hrec | (g & x & y & Hrun)].
    + unfold mod_inverse_at. rewrite Hrec. discriminate.
    + rewrite (mod_inverse_at_nonpositive 1 a m g x y Hm Hrun).
      destruct ((m =? 0) && (a =? 1)); discriminate.
  - intros Hbound.
    destruct (mod_inverse_at_bits 1 a m ltac:(lia) ltac:(lia))
      as (g & x & y & Hrun).
    exact (mod_inverse_at_nonpositive 1 a m g x y Hm Hrun).
Qed.

Lemma mod_inverse_nonpositive_modulus_witness :
  -7 <= 0 /\ Z.gcd 3 (-7) = 1 /\
  mod_inverse 3 (-7) = Raise (ValueError "Modular inverse does not exist").
Proof.
  split; [lia |]. split; [reflexivity |].
  destruct (mod_inverse_nonpositive_modulus 3 (-7) ltac:(lia)) as [_ Hrun].
  apply Hrun. reflexivity.
Defined.

(** Inverses modulo a positive [m] are unique in [[0, m)]. *)
Lemma inverse_unique (a m x y : Z) :
  0 < m -> Z.gcd a m = 1 ->
  0 <= x < m -> 0 <= y < m ->
  (a * x) mod m = 1 mod m -> (a * y) mod m = 1 mod m -> x = y.
Proof.
  intros Hm Hcop Hx Hy Hax Hay.
  assert (Hdiv : (m | a * (x - y))).
  { apply Z.mod_divide; [lia |]. replace (a * (x - y)) with (a * x - a * y) by ring.
    apply Z.cong_iff_0. congruence. }
  apply Z.gauss in Hdiv; [| now rewrite Z.gcd_comm].
  apply Z.mod_divide in Hdiv; [| lia]. apply Z.cong_iff_0 in Hdiv.
  now rewrite !Z.mod_small in Hdiv by lia.
Qed.

(** X8.  For a positive modulus below [2^498] and coprime [a], the value
    [mod_inverse] returns is the only inverse of [a] in [[0, m)], and
    inverting it again gives [a] reduced modulo [m]. *)
Theorem mod_inverse_unique_involutive :
  forall a m : Z,
    0 < m < 2 ^ 498 -> Z.gcd a m = 1 ->
    exists inv,
      mod_inverse a m = Ok inv /\
      (forall x, 0 <= x < m -> (a * x) mod m = 1 mod m -> x = inv) /\
      mod_inverse inv m = Ok (a mod m).
Proof.
  intros a m Hm Hcop. unfold mod_inverse.
  destruct (euclid_inverse_coprime a m ltac:(lia) Hcop) as [Hrange Hone].
  set (inv := euclid_inverse a m) in *.
  exists inv. split; [now apply mod_inverse_at_coprime; try lia |]. split.
  - intros x Hx Hax. apply (inverse_unique a m x inv); try assumption; lia.
  - assert (Hcop' : Z.gcd inv m = 1).
    { destruct (Z.eq_dec m 1) as [-> | Hm1]; [apply Z.gcd_1_r |].
      apply Z.Bezout_coprime_iff.
      pose proof (Z.div_mod (a * inv) m ltac:(lia)) as Hdm.
      rewrite Hone, (Z.mod_small 1) in Hdm by lia.
      exists a, (- (a * inv / m)). lia. }
    rewrite mod_inverse_at_coprime by (assumption || lia). f_equal.
    destruct (euclid_inverse_coprime inv m ltac:(lia) Hcop') as [Hjrange Hjone].
    apply (inverse_unique inv m _ (a mod m)); try assumption; try lia.
    + apply Z.mod_pos_bound. lia.
    + rewrite Z.mul_mod_idemp_r by lia. now rewrite Z.mul_comm.
Qed.

Lemma mod_inverse_unique_involutive_witness :
  0 < 3120 < 2 ^ 498 /\ Z.gcd 17 3120 = 1 /\
  exists inv,
    mod_inverse 17 3120 = Ok inv /\
    (forall x, 0 <= x < 3120 -> (17 * x) mod 3120 = 1 mod 3120 -> x = inv) /\
    mod_inverse inv 3120 = Ok (17 mod 3120).
Proof.
  assert (Hm : 0 < 3120 < 2 ^ 498) by (split; reflexivity).
  split; [exact Hm |]. split; [reflexivity |].
  apply (mod_inverse_unique_involutive 17 3120 Hm). reflexivity.
Defined.

(** * Further properties of the primality test *)

Lemma exact_root_below : 2 ^ 106 < float_overflow.
Proof. reflexivity. Qed.

(** X9.  For [n] below [2^106], where the double root is never below the
    exact root, [is_prime n] answers, and answers [True] exactly when [n]
    is at least [2] and no [d] strictly between [1] and [n] divides it:
    testing the odd numbers up to the square root loses nothing.  It
    answers [True] on every prime below [2^1024 - 2^970], and raises
    [OverflowError] on every odd number from there on. *)
Theorem is_prime_decides_primality :
  forall n : Z,
    (n < 2 ^ 106 ->
     exists b, is_prime n = Ok b /\
               (b = true <-> 2 <= n /\ forall d, 1 < d < n -> n mod d <> 0)) /\
    (Z.prime n -> n < 2 ^ 1024 - 2 ^ 970 -> is_prime n = Ok true) /\
    (2 ^ 1024 - 2 ^ 970 <= n -> n mod 2 = 1 ->
     is_prime n = Raise OverflowError).
Proof.
  intros n. split; [| split].
  - intros Hn. pose proof exact_root_below as Hexact.
    destruct (is_prime_returns n ltac:(left; lia)) as [b Hb].
    exists b. split; [exact Hb |].
    rewrite (is_prime_sound n b Hb). unfold Z.prime. split.
    + intros [H1 Hdiv]. split; [lia |]. intros d Hd Hz.
      apply (Hdiv d Hd). apply Z.mod_divide; [lia | exact Hz].
    + intros [H2 Hrem]. split; [lia |]. intros d Hd Hdiv.
      apply (Hrem d Hd). apply Z.mod_divide; [lia | exact Hdiv].
  - apply is_prime_prime.
  - apply is_prime_overflow.
Qed.

(** * Further properties of the Caesar cipher *)

(** X10.  Only the shift modulo 26 matters, and decrypting is encrypting
    with the negated shift: adding any multiple of 26 to the shift changes
    nothing, in either direction, and [caesar_cipher text shift True] is
    [caesar_cipher text (-shift) False]. *)
Theorem caesar_shift_laws :
  forall (text : list Z) (shift k : Z) (decrypt : bool),
    caesar_cipher text (shift + 26 * k) decrypt
    = caesar_cipher text shift decrypt /\
    caesar_cipher text shift true = caesar_cipher text (- shift) false.
Proof.
  intros text shift k decrypt. rewrite !caesar_cipher_loop. split.
  - rewrite <- caesar_loop_mod. symmetry. rewrite <- caesar_loop_mod.
    f_equal. destruct decrypt.
    + replace (- (shift + 26 * k)) with (- shift + (- k) * 26) by ring.
      symmetry. apply Z.mod_add. lia.
    + replace (shift + 26 * k) with (shift + k * 26) by ring.
      symmetry. apply Z.mod_add. lia.
  - reflexivity.
Qed.

(** X11.  Encryptions compose by adding their shifts, a shift that is a
    multiple of 26 only upper-cases the text, and encrypting a decryption
    under the same shift gives the upper-cased text back (the converse of
    the round trip of C7). *)
Theorem caesar_compose :
  forall (text : list Z) (a b k : Z),
    caesar_cipher (caesar_cipher text a false) b false
    = caesar_cipher text (a + b) false /\
    caesar_cipher text (26 * k) false = upper text /\
    caesar_cipher (caesar_cipher text a true) a false = upper text.
Proof.
  intros text a b k. rewrite !caesar_cipher_loop.
  rewrite !upper_caesar_loop.
  rewrite !caesar_loop_compose.
  split; [reflexivity |]. split.
  - rewrite <- caesar_loop_mod.
    replace (26 * k) with (0 + k * 26) by ring.
    rewrite Z.mod_add by lia. apply caesar_loop_zero.
  - replace (- a + a) with 0 by ring. apply caesar_loop_zero.
Qed.

(** * Further properties of the Vigenere cipher *)

(** X12.  With any key that is not empty, alphabetic or not,
    [vigenere_cipher] never fails, and the two directions undo each other
    in both orders: decrypting an encryption and encrypting a decryption
    both return the upper-cased text. *)
Theorem vigenere_inverse_any_key :
  forall (text key : list Z) (decrypt : bool),
    key <> [] ->
    exists out,
      vigenere_cipher text key decrypt = Ok out /\
      vigenere_cipher out key (negb decrypt) = Ok (upper text).
Proof.
  intros text key decrypt Hkey. now apply vigenere_inverse.
Qed.

Lemma vigenere_inverse_any_key_witness :
  codepoints "k3y!" <> [] /\
  exists out,
    vigenere_cipher (codepoints "Attack at dawn") (codepoints "k3y!") true
    = Ok out /\
    vigenere_cipher out (codepoints "k3y!") (negb true)
    = Ok (upper (codepoints "Attack at dawn")).
Proof.
  split; [discriminate |].
  apply (vigenere_inverse_any_key (codepoints "Attack at dawn")
           (codepoints "k3y!") true).
  discriminate.
Defined.

(** With a key of one character the loop is the Caesar loop. *)
Lemma vigenere_loop_single (k : Z) (decrypt : bool) (text : list Z) :
  forall key_index : Z,
    vigenere_loop [k] decrypt key_index text
    = Ok (caesar_loop (if decrypt then - (ord k - 65) else ord k - 65) text).
Proof.
  induction text as [| char text IH]; intros key_index; [reflexivity |].
  cbn [vigenere_loop caesar_loop]. unfold caesar_char.
  destruct (is_upper_letter char).
  - cbn [List.length]. rewrite py_mod_ok by lia.
    rewrite Z.mod_1_r. cbn [bind Z.to_nat py_index nth_error].
    rewrite IH. cbn [bind].
    now rewrite normalise_mod by lia.
  - rewrite IH. reflexivity.
Qed.

(** X13.  A Vigenere key of a single character whose upper-casing is a
    single character [K] is a Caesar cipher: the result is [caesar_cipher]
    with the shift [ord(K) - 65], in both directions. *)
Theorem vigenere_single_letter_is_caesar :
  forall (text : list Z) (k K : Z) (decrypt : bool),
    upper [k] = [K] ->
    vigenere_cipher text [k] decrypt
    = Ok (caesar_cipher text (ord K - 65) decrypt).
Proof.
  intros text k K decrypt HK. unfold vigenere_cipher. rewrite HK.
  rewrite vigenere_loop_single. f_equal.
  symmetry. apply caesar_cipher_loop.
Qed.

Lemma vigenere_single_letter_is_caesar_witness :
  upper (codepoints "d") = codepoints "D" /\
  vigenere_cipher (codepoints "Hello") (codepoints "d") false
  = Ok (caesar_cipher (codepoints "Hello") 3 false).
Proof.
  assert (Hupper : upper [100] = [68]) by (vm_compute; reflexivity).
  split; [exact Hupper |].
  exact (vigenere_single_letter_is_caesar (codepoints "Hello") 100 68 false
           Hupper).
Defined.

(** Indexing the doubled key modulo its length finds the character that
    the key itself holds at the index modulo its own length. *)
Lemma doubled_key_letter (key_upper : list Z) (key_index : Z) :
  key_upper <> [] ->
  nth_error (key_upper ++ key_upper)
    (Z.to_nat (key_index mod Z.of_nat (List.length (key_upper ++ key_upper))))
  = nth_error key_upper
      (Z.to_nat (key_index mod Z.of_nat (List.length key_upper))).
Proof.
  intros Hkey.
  assert (Hlen : List.length key_upper <> 0%nat)
    by (destruct key_upper; [contradiction | discriminate]).
  rewrite length_app.
  set (L := Z.of_nat (List.length key_upper)).
  assert (HL : 0 < L) by (unfold L; lia).
  replace (Z.of_nat (List.length key_upper + List.length key_upper))
    with (2 * L) by (unfold L; lia).
  pose proof (Z.mod_pos_bound key_index (2 * L) ltac:(lia)) as Hi2.
  pose proof (Z.mod_pos_bound key_index L HL) as Hi.
  assert (Hred : (key_index mod (2 * L)) mod L = key_index mod L).
  { apply Z.mod_mod_divide. exists 2. ring. }
  destruct (Z.lt_ge_cases (key_index mod (2 * L)) L) as [Hlow | Hhigh].
  - rewrite Z.mod_small in Hred by lia. rewrite <- Hred.
    apply nth_error_app1. unfold L in *. lia.
  - assert (Hshift : key_index mod (2 * L) = key_index mod L + L).
    { assert (Hsub : (key_index mod (2 * L)) mod L = key_index mod (2 * L) - L)
        by (symmetry; apply Z.mod_unique with 1; lia).
      lia. }
    rewrite Hshift.
    rewrite nth_error_app2 by (unfold L in *; lia).
    f_equal. unfold L in *. lia.
Qed.

Lemma vigenere_loop_doubled_key (key_upper : list Z) (decrypt : bool)
      (text : list Z) :
  forall key_index : Z,
    vigenere_loop (key_upper ++ key_upper) decrypt key_index text
    = vigenere_loop key_upper decrypt key_index text.
Proof.
  destruct key_upper as [| k0 key_rest] eqn:Hkey; [reflexivity |].
  rewrite <- Hkey.
  assert (Hne : key_upper <> []) by (rewrite Hkey; discriminate).
  assert (Hlen : List.length key_upper <> 0%nat)
    by (rewrite Hkey; discriminate).
  clear Hkey.
  induction text as [| char text IH]; intros key_index; [reflexivity |].
  cbn [vigenere_loop]. destruct (is_upper_letter char).
  - rewrite !py_mod_ok by (rewrite ?length_app; lia).
    cbn [bind]. unfold py_index. rewrite doubled_key_letter by exact Hne.
    destruct (nth_error key_upper _); cbn [bind]; [| reflexivity].
    now rewrite IH.
  - now rewrite IH.
Qed.

(** X14.  The key is used cyclically and without regard to case: writing
    the key twice in a row, upper-casing the key or upper-casing the text
    beforehand gives the same result, in both directions and also when the
    call fails. *)
Theorem vigenere_key_repetition :
  forall (text key : list Z) (decrypt : bool),
    vigenere_cipher text (key ++ key) decrypt
    = vigenere_cipher text key decrypt /\
    vigenere_cipher text (upper key) decrypt
    = vigenere_cipher text key decrypt /\
    vigenere_cipher (upper text) key decrypt
    = vigenere_cipher text key decrypt.
Proof.
  intros text key decrypt. unfold vigenere_cipher.
  rewrite upper_app, vigenere_loop_doubled_key, !upper_idempotent.
  repeat split.
Qed.

(** * Further properties of the RSA functions *)

(** X15.  For [p] and [q] below [2^106], where the double root is never
    below the exact root, [generate_rsa_keys] raises its [ValueError]
    exactly when [p] or [q] is not prime, and returns a key pair on every
    pair of primes: the search for the exponent always ends and the inverse
    always exists. *)
Theorem generate_rsa_keys_fails_iff_not_prime :
  forall p q : Z,
    p < 2 ^ 106 -> q < 2 ^ 106 ->
    (generate_rsa_keys p q = Raise (ValueError "Both p and q must be prime")
     <-> ~ (Z.prime p /\ Z.prime q)) /\
    ((exists keys, generate_rsa_keys p q = Ok keys)
     <-> Z.prime p /\ Z.prime q).
Proof.
  intros p q Hpsmall Hqsmall. pose proof exact_root_below as Hexact.
  assert (Hpfits : p < float_overflow) by lia.
  assert (Hqfits : q < float_overflow) by lia.
  split; split.
  - intros Hraise [Hp Hq].
    destruct (generate_rsa_keys_primes p q Hp Hq Hpfits Hqfits) as [keys Hkeys].
    congruence.
  - now apply generate_rsa_keys_not_prime.
  - intros [keys Hkeys].
    destruct (generate_rsa_keys_run p q keys Hkeys) as (Hp & Hq & _).
    now split.
  - intros [Hp Hq]. now apply generate_rsa_keys_primes.
Qed.

Lemma generate_rsa_keys_fails_iff_not_prime_witness :
  61 < 2 ^ 106 /\ 57 < 2 ^ 106 /\ ~ (Z.prime 61 /\ Z.prime 57) /\
  generate_rsa_keys 61 57 = Raise (ValueError "Both p and q must be prime").
Proof.
  assert (Hnot : ~ (Z.prime 61 /\ Z.prime 57)).
  { intros [_ [_ H57]]. apply (H57 3); [lia |]. now exists 19. }
  split; [reflexivity |]. split; [reflexivity |]. split; [exact Hnot |].
  apply (generate_rsa_keys_fails_iff_not_prime 61 57); [reflexivity .. | exact Hnot].
Defined.

(** X16.  The public exponent of every key pair returned is the first odd
    number, counting up from the seed ([65537], or [3] when [65537 >= phi]),
    that is coprime with [phi]; the private exponent lies in [[0, phi)]. *)
Theorem generate_rsa_keys_exponent_first :
  forall (p q : Z) (keys : RSAKeyPair),
    generate_rsa_keys p q = Ok keys ->
    let phi := rsa_phi keys in
    let seed := if 65537 >=? phi then 3 else 65537 in
    seed <= rsa_e keys /\
    (rsa_e keys) mod 2 = 1 /\
    Z.gcd (rsa_e keys) phi = 1 /\
    (forall c, seed <= c < rsa_e keys -> c mod 2 = 1 -> Z.gcd c phi <> 1) /\
    0 <= rsa_d keys < phi.
Proof.
  intros p q keys Hgen.
  destruct (generate_rsa_keys_run p q keys Hgen)
    as (Hp & Hq & _ & Hphi & He & Hd).
  cbv zeta. rewrite Hphi.
  pose proof (Z.prime_ge_2 p Hp) as Hp2.
  pose proof (Z.prime_ge_2 q Hq) as Hq2.
  set (phi := (p - 1) * (q - 1)) in *.
  assert (Hpos : 0 < phi) by (unfold phi; nia).
  set (seed := if 65537 >=? phi then 3 else 65537) in *.
  assert (Hseed : seed mod 2 = 1) by (unfold seed; destruct (65537 >=? phi); reflexivity).
  pose proof (choose_e_sound _ _ _ _ Hpos He) as [Hcop [j Hj]].
  pose proof (choose_e_first _ _ _ _ Hpos He) as Hfirst.
  destruct (mod_inverse_at_sound 2 _ _ _ Hpos Hd) as (_ & _ & Hrange & _).
  split; [lia |]. split.
  { rewrite Hj.
    replace (seed + 2 * Z.of_nat j) with (seed + Z.of_nat j * 2) by ring.
    rewrite Z.mod_add by lia. exact Hseed. }
  split; [exact Hcop |]. split; [| exact Hrange].
  intros c Hc Hodd.
  pose proof (Z.div_mod c 2 ltac:(lia)) as Hc2.
  pose proof (Z.div_mod seed 2 ltac:(lia)) as Hs2.
  replace c with (seed + 2 * Z.of_nat (Z.to_nat (c / 2 - seed / 2))) by lia.
  apply Hfirst. lia.
Qed.

Lemma generate_rsa_keys_exponent_first_witness :
  generate_rsa_keys 61 53
  = Ok {| rsa_n := 3233; rsa_e := 7; rsa_d := 1783; rsa_phi := 3120 |} /\
  3 <= 7 /\ 7 mod 2 = 1 /\ Z.gcd 7 3120 = 1 /\
  (forall c, 3 <= c < 7 -> c mod 2 = 1 -> Z.gcd c 3120 <> 1) /\
  0 <= 1783 < 3120.
Proof.
  split; [vm_compute; reflexivity |].
  apply (generate_rsa_keys_exponent_first 61 53
           {| rsa_n := 3233; rsa_e := 7; rsa_d := 1783; rsa_phi := 3120 |}).
  vm_compute. reflexivity.
Defined.



(** X18.  Textbook RSA is multiplicative and sees the message only modulo
    [n]: the encryption of a product is the modular product of the
    encryptions, and adding [n] to the message does not change the
    ciphertext. *)
Theorem rsa_encrypt_multiplicative :
  forall m1 m2 e n : Z,
    n <> 0 -> 0 < e ->
    rsa_encrypt (m1 * m2) e n
    = (c1 <- rsa_encrypt m1 e n ;; c2 <- rsa_encrypt m2 e n ;;
       mod_multiply c1 c2 n) /\
    rsa_encrypt (m1 + n) e n = rsa_encrypt m1 e n.
Proof.
  intros m1 m2 e n Hn He. unfold rsa_encrypt.
  rewrite !mod_power_pos by assumption. cbn [bind].
  rewrite mod_multiply_value by exact Hn.
  split; f_equal.
  - rewrite Z.pow_mul_l. apply Zmult_mod.
  - rewrite <- Z.mod_pow_l.
    replace (m1 + n) with (m1 + 1 * n) by ring.
    rewrite Z.mod_add by exact Hn. apply Z.mod_pow_l.
Qed.

Lemma rsa_encrypt_multiplicative_witness :
  3233 <> 0 /\ 0 < 7 /\
  rsa_encrypt (42 * 10) 7 3233
  = (c1 <- rsa_encrypt 42 7 3233 ;; c2 <- rsa_encrypt 10 7 3233 ;;
     mod_multiply c1 c2 3233).
Proof.
  split; [lia |]. split; [lia |].
  apply (rsa_encrypt_multiplicative 42 10 7 3233); lia.
Defined.

(** * Further properties of the Chinese remainder solver *)

(** Moduli that are not pairwise coprime hold two entries, at different
    positions, with a common factor. *)
Lemma not_pairwise_coprime_pair (moduli : list Z) :
  ~ pairwise_coprime moduli ->
  exists pre m post m',
    moduli = pre ++ m :: post /\ In m' (pre ++ post) /\ Z.gcd m' m <> 1.
Proof.
  unfold pairwise_coprime.
  induction moduli as [| a l IH]; intros Hnot.
  - exfalso. apply Hnot. constructor.
  - destruct (Forall_Exists_dec (fun x => Z.gcd a x = 1)
                (fun x => Z.eq_dec (Z.gcd a x) 1) l) as [Hall | Hex].
    + destruct IH as (pre & m & post & m' & -> & Hin & Hg).
      { intros Htail. apply Hnot. now constructor. }
      exists (a :: pre), m, post, m'. repeat split; [now right | exact Hg].
    + apply Exists_exists in Hex. destruct Hex as (x & Hin & Hg).
      exists [], a, l, x. repeat split; [exact Hin |].
      now rewrite Z.gcd_comm.
Qed.

Lemma cofactor_product (pre post : list Z) (m : Z) :
  m <> 0 ->
  list_product (pre ++ m :: post) / m = list_product (pre ++ post).
Proof.
  intros Hm. rewrite !list_product_app, list_product_cons.
  replace (list_product pre * (m * list_product post))
    with (list_product pre * list_product post * m) by ring.
  now apply Z.div_mul.
Qed.

(** Such moduli leave a cofactor that is not coprime with its modulus. *)
Lemma not_pairwise_coprime_cofactor (moduli : list Z) :
  Forall (fun m => 0 < m) moduli -> ~ pairwise_coprime moduli ->
  Exists (fun m => Z.gcd (list_product moduli / m) m <> 1) moduli.
Proof.
  intros Hpos Hnot.
  destruct (not_pairwise_coprime_pair moduli Hnot)
    as (pre & m & post & m' & -> & Hin & Hg).
  assert (Hm : 0 < m) by (apply Forall_elt in Hpos; exact Hpos).
  apply Exists_exists. exists m. split; [apply in_elt |].
  rewrite cofactor_product by lia. intros Hcop. apply Hg.
  apply list_product_In_divide in Hin.
  (* a common divisor of [m'] and [m] divides the cofactor and [m] *)
  pose proof (Z.gcd_nonneg m' m) as Hnonneg.
  pose proof (Z.gcd_divide_l m' m) as Hl.
  pose proof (Z.gcd_divide_r m' m) as Hr.
  assert (Hone : (Z.gcd m' m | 1)).
  { rewrite <- Hcop. apply Z.gcd_greatest; [| exact Hr].
    now apply Z.divide_trans with m'. }
  apply Z.divide_1_r_nonneg in Hone; assumption.
Qed.

(** A cofactor that is not coprime with its modulus stops the loop: with
    the [ValueError] of [mod_inverse], unless an inverse runs out of frames
    before. *)
Lemma crt_loop_raises (M : Z) (ms : list Z) :
  forall (rs pre_r pre_m : list Z) (x : Z),
    List.length pre_r = List.length pre_m ->
    List.length rs = List.length ms ->
    Forall (fun m => 0 < m) ms ->
    Exists (fun m => Z.gcd (M / m) m <> 1) ms ->
    (crt_loop M (pre_r ++ rs) (pre_m ++ ms)
              (seq (List.length pre_m) (List.length ms)) x
     = Raise RecursionError /\
     Exists (fun m => mod_inverse_at 2 (M / m) m = Raise RecursionError) ms) \/
    crt_loop M (pre_r ++ rs) (pre_m ++ ms)
             (seq (List.length pre_m) (List.length ms)) x
    = Raise (ValueError "Modular inverse does not exist").
Proof.
  induction ms as [| m ms IH]; intros [| r rs] pre_r pre_m x Hpre Hlen Hpos Hex;
    simpl in Hlen; try discriminate.
  - inversion Hex.
  - inversion Hpos as [| ? ? Hm Hrest]; subst.
    cbn [List.length seq crt_loop].
    rewrite py_index_middle by reflexivity. cbn [bind].
    rewrite py_floordiv_ok by lia. cbn [bind].
    destruct (mod_inverse_at_cases 2 (M / m) m Hm)
      as [Hrec | [[Hcop Hy] | [Hncop Hfail]]].
    + left. rewrite Hrec. split; [reflexivity | now left].
    + rewrite Hy. cbn [bind].
      rewrite py_index_middle by (symmetry; exact Hpre). cbn [bind].
      assert (Hpre' : List.length (pre_r ++ [r]) = List.length (pre_m ++ [m]))
        by (rewrite !length_app; simpl; lia).
      assert (Hlen' : List.length rs = List.length ms) by lia.
      assert (Hex' : Exists (fun m => Z.gcd (M / m) m <> 1) ms)
        by (inversion Hex; [contradiction | assumption]).
      pose proof (IH rs (pre_r ++ [r]) (pre_m ++ [m])
                    (x + r * (M / m) * euclid_inverse (M / m) m)
                    Hpre' Hlen' Hrest Hex') as Hnext.
      rewrite <- !app_assoc in Hnext. cbn [app] in Hnext.
      rewrite length_app in Hnext. cbn [List.length] in Hnext.
      rewrite Nat.add_1_r in Hnext.
      destruct Hnext as [[Hnext Hrec] | Hnext]; rewrite Hnext.
      * left. split; [reflexivity | now right].
      * now right.
    + right. now rewrite Hfail.
Qed.

(** X19.  For lists of equal length and positive moduli that are not
    pairwise coprime, [chinese_remainder_theorem] never returns a number,
    which would not solve the system: when every modulus is below [2^498]
    it raises the [ValueError] of [mod_inverse]. *)
Theorem chinese_remainder_theorem_not_coprime :
  forall remainders moduli : list Z,
    List.length remainders = List.length moduli ->
    Forall (fun m => 0 < m) moduli ->
    ~ pairwise_coprime moduli ->
    (forall x, chinese_remainder_theorem remainders moduli <> Ok x) /\
    (Forall (fun m => m < 2 ^ 498) moduli ->
     chinese_remainder_theorem remainders moduli
     = Raise (ValueError "Modular inverse does not exist")).
Proof.
  intros remainders moduli Hlen Hpos Hnot.
  unfold chinese_remainder_theorem.
  rewrite Hlen, Nat.eqb_refl. cbn [negb]. rewrite moduli_product_eq.
  pose proof (crt_loop_raises (list_product moduli) moduli remainders [] [] 0
                eq_refl Hlen Hpos
                (not_pairwise_coprime_cofactor moduli Hpos Hnot)) as Hloop.
  cbn [app List.length] in Hloop.
  destruct Hloop as [[Hloop Hex] | Hloop]; rewrite Hloop; cbn [bind].
  - split; [intros x; discriminate |]. intros Hbound. exfalso.
    apply Exists_exists in Hex. destruct Hex as (m & Hin & Hrec).
    rewrite Forall_forall in Hpos, Hbound.
    specialize (Hpos m Hin). specialize (Hbound m Hin).
    apply (mod_inverse_at_returns 2 (list_product moduli / m) m);
      [lia | lia | exact Hrec].
  - split; [intros x; discriminate | reflexivity].
Qed.

Lemma chinese_remainder_theorem_not_coprime_witness :
  List.length [1; 3] = List.length [4; 6] /\
  Forall (fun m => 0 < m) [4; 6] /\
  ~ pairwise_coprime [4; 6] /\
  Forall (fun m => m < 2 ^ 498) [4; 6] /\
  chinese_remainder_theorem [1; 3] [4; 6]
  = Raise (ValueError "Modular inverse does not exist").
Proof.
  assert (Hpos : Forall (fun m => 0 < m) [4; 6]) by (repeat constructor).
  assert (Hbound : Forall (fun m => m < 2 ^ 498) [4; 6])
    by (repeat constructor).
  assert (Hnot : ~ pairwise_coprime [4; 6]).
  { intros Hpw. inversion Hpw as [| ? ? Hhead _]; subst.
    inversion Hhead; subst. discriminate. }
  split; [reflexivity |]. split; [exact Hpos |]. split; [exact Hnot |].
  split; [exact Hbound |].
  destruct (chinese_remainder_theorem_not_coprime [1; 3] [4; 6] eq_refl
              Hpos Hnot) as [_ Hraise].
  exact (Hraise Hbound).
Defined.

(** The product of moduli one of which is zero is zero. *)
Lemma moduli_product_zero (moduli : list Z) :
  In 0 moduli -> moduli_product moduli = 0.
Proof.
  intros Hin. rewrite moduli_product_eq.
  apply list_product_In_divide in Hin. now apply Z.divide_0_l.
Qed.

(** The inverse of zero takes two calls of [extended_gcd]: it is [0]
    modulo [1] and does not exist otherwise. *)
Lemma extended_gcd_rec_zero (frames : nat) (m : Z) :
  m <> 0 -> extended_gcd_rec (S (S frames)) 0 m = Ok (m, 0, 1).
Proof.
  intros Hm. cbn [extended_gcd_rec].
  destruct (Z.eqb_spec m 0); [contradiction |].
  rewrite Z.mod_0_l by exact Hm. change (0 =? 0) with true. cbn [bind].
  rewrite Z.div_0_l by exact Hm. reflexivity.
Qed.

Lemma mod_inverse_at_zero (m : Z) :
  m <> 0 ->
  mod_inverse_at 2 0 m
  = if m =? 1 then Ok 0
    else Raise (ValueError "Modular inverse does not exist").
Proof.
  intros Hm. unfold mod_inverse_at.
  change (recursion_limit - 3)%nat with (S (S 995)).
  rewrite extended_gcd_rec_zero by exact Hm. cbn [bind].
  destruct (Z.eqb_spec m 1) as [-> | Hne]; reflexivity.
Qed.

Lemma crt_loop_zero_modulus (ms : list Z) :
  forall (rs pre_r pre_m : list Z) (x : Z),
    List.length pre_r = List.length pre_m ->
    List.length rs = List.length ms ->
    In 0 ms ->
    crt_loop 0 (pre_r ++ rs) (pre_m ++ ms)
             (seq (List.length pre_m) (List.length ms)) x
    = Raise ZeroDivisionError \/
    crt_loop 0 (pre_r ++ rs) (pre_m ++ ms)
             (seq (List.length pre_m) (List.length ms)) x
    = Raise (ValueError "Modular inverse does not exist").
Proof.
  induction ms as [| m ms IH]; intros [| r rs] pre_r pre_m x Hpre Hlen Hin;
    simpl in Hlen; try discriminate.
  - contradiction.
  - cbn [List.length seq crt_loop].
    rewrite py_index_middle by reflexivity. cbn [bind].
    destruct (Z.eq_dec m 0) as [-> | Hm]; [now left |].
    rewrite py_floordiv_ok by exact Hm. cbn [bind].
    rewrite Z.div_0_l by exact Hm. rewrite mod_inverse_at_zero by exact Hm.
    destruct (m =? 1); cbn [bind]; [| now right].
    rewrite py_index_middle by (symmetry; exact Hpre). cbn [bind].
    assert (Hpre' : List.length (pre_r ++ [r]) = List.length (pre_m ++ [m]))
      by (rewrite !length_app; simpl; lia).
    assert (Hlen' : List.length rs = List.length ms) by lia.
    assert (Hin' : In 0 ms) by (destruct Hin; [congruence | assumption]).
    pose proof (IH rs (pre_r ++ [r]) (pre_m ++ [m]) (x + r * 0 * 0)
                  Hpre' Hlen' Hin') as Hnext.
    rewrite <- !app_assoc in Hnext. cbn [app] in Hnext.
    rewrite length_app in Hnext. cbn [List.length] in Hnext.
    rewrite Nat.add_1_r in Hnext. exact Hnext.
Qed.

(** X20.  With lists of equal length, a modulus of zero anywhere means no
    result: the call raises [ZeroDivisionError] at the zero modulus, unless
    the [ValueError] of [mod_inverse] is raised at an earlier index. *)
Theorem chinese_remainder_theorem_zero_modulus :
  forall remainders moduli : list Z,
    List.length remainders = List.length moduli ->
    In 0 moduli ->
    chinese_remainder_theorem remainders moduli = Raise ZeroDivisionError \/
    chinese_remainder_theorem remainders moduli
    = Raise (ValueError "Modular inverse does not exist").
Proof.
  intros remainders moduli Hlen Hin.
  unfold chinese_remainder_theorem.
  rewrite Hlen, Nat.eqb_refl. cbn [negb].
  rewrite (moduli_product_zero moduli Hin).
  pose proof (crt_loop_zero_modulus moduli remainders
                [] [] 0 eq_refl Hlen Hin) as Hloop.
  cbn [app List.length] in Hloop.
  destruct Hloop as [Hloop | Hloop]; rewrite Hloop; [now left | now right].
Qed.

Lemma chinese_remainder_theorem_zero_modulus_witness :
  List.length [2; 3] = List.length [1; 0] /\ In 0 [1; 0] /\
  chinese_remainder_theorem [2; 3] [1; 0] = Raise ZeroDivisionError /\
  chinese_remainder_theorem [2; 3] [5; 0]
  = Raise (ValueError "Modular inverse does not exist").
Proof.
  split; [reflexivity |]. split; [right; left; reflexivity |].
  split; [| vm_compute; reflexivity].
  assert (Hrun : chinese_remainder_theorem [2; 3] [1; 0]
                 <> Raise (ValueError "Modular inverse does not exist"))
    by (vm_compute; discriminate).
  destruct (chinese_remainder_theorem_zero_modulus [2; 3] [1; 0] eq_refl
              (or_intror (or_introl eq_refl))) as [H | H]; [exact H |].
  contradiction.
Defined.

Lemma residues_of_map (s x : Z) (ms : list Z) :
  Forall2 (fun r m => s mod m = r mod m) (map (fun m => x mod m) ms) ms ->
  Forall (fun m => (m | s - x)) ms.
Proof.
  induction ms as [| m ms IH]; intros Hres; [constructor |].
  cbn [map] in Hres. inversion Hres as [| ? ? ? ? Hm Hrest]; subst.
  constructor; [| now apply IH].
  destruct (Z.eq_dec m 0) as [-> | Hnz].
  - rewrite !Z.mod_0_r in Hm. exists 0. lia.
  - rewrite Z.mod_mod in Hm by exact Hnz.
    apply Z.mod_divide; [exact Hnz |]. now apply Z.cong_iff_0.
Qed.

(** X21.  The solver inverts reduction: for positive pairwise coprime
    moduli below [2^498] and every integer [x], solving the system of the
    residues of [x] returns [x] reduced modulo the product of the moduli. *)
Theorem chinese_remainder_theorem_reconstructs :
  forall (moduli : list Z) (x : Z),
    Forall (fun m => 0 < m < 2 ^ 498) moduli ->
    pairwise_coprime moduli ->
    chinese_remainder_theorem (map (fun m => x mod m) moduli) moduli
    = Ok (x mod moduli_product moduli).
Proof.
  intros moduli x Hall Hpw.
  assert (Hpos : Forall (fun m => 0 < m) moduli)
    by (eapply Forall_impl; [| exact Hall]; intros m Hm; cbv beta in *; lia).
  assert (Hbound : Forall (fun m => m < 2 ^ 498) moduli)
    by (eapply Forall_impl; [| exact Hall]; intros m Hm; cbv beta in *; lia).
  assert (Hlen : List.length (map (fun m => x mod m) moduli) = List.length moduli)
    by apply length_map.
  rewrite (chinese_remainder_theorem_value _ _ Hlen Hpos Hpw Hbound).
  rewrite moduli_product_eq. f_equal.
  pose proof (crt_sum_residues [] [] _ moduli eq_refl Hlen Hpos Hpw) as Hres.
  cbn [app] in Hres. apply residues_of_map in Hres.
  apply (pairwise_coprime_product_divides moduli _ Hpw) in Hres.
  pose proof (list_product_pos moduli Hpos) as HM.
  apply Z.cong_iff_0. apply Z.mod_divide; [lia | exact Hres].
Qed.

Lemma chinese_remainder_theorem_reconstructs_witness :
  Forall (fun m => 0 < m < 2 ^ 498) [3; 5; 7] /\ pairwise_coprime [3; 5; 7] /\
  chinese_remainder_theorem (map (fun m => 1000 mod m) [3; 5; 7]) [3; 5; 7]
  = Ok (1000 mod moduli_product [3; 5; 7]).
Proof.
  assert (Hall : Forall (fun m => 0 < m < 2 ^ 498) [3; 5; 7])
    by (repeat constructor).
  assert (Hpw : pairwise_coprime [3; 5; 7]) by (repeat constructor).
  split; [exact Hall |]. split; [exact Hpw |].
  apply (chinese_remainder_theorem_reconstructs [3; 5; 7] 1000 Hall Hpw).
Defined.

(** * Further properties of the Fermat verifier *)

(** The run of the verifier on a number that [is_prime] accepts. *)
Lemma fermat_little_theorem_run (a p : Z) :
  Z.prime p ->
  is_prime p = Ok true ->
  fermat_little_theorem a p
  = Ok {| fermat_result := a ^ (p - 1) mod p;
          fermat_steps := map (fun i => (i, a ^ i mod p))
                              (py_range 1 (Z.min 10 (p - 1) + 1) 1) |}.
Proof.
  intros Hprime Hrun. pose proof (Z.prime_ge_2 p Hprime) as Hp2.
  unfold fermat_little_theorem. rewrite Hrun. cbn [bind negb].
  rewrite mod_power_pos by lia. cbn [bind].
  rewrite fermat_steps_loop_ok;
    [| lia
     | apply Forall_forall; intros i Hi; apply py_range_In in Hi; [| lia];
       destruct Hi as (k & -> & _); lia].
  reflexivity.
Qed.

(** X22.  For [p] below [2^106], where the double root is never below the
    exact root, [fermat_little_theorem a p] raises its [ValueError] exactly
    when [p] is not prime.  For a prime [p] it returns, and the result is
    [1] when [p] does not divide [a] and [0] when it does: the function
    never fails on a base that is a multiple of the prime, it reports
    [0]. *)
Theorem fermat_little_theorem_outcome :
  forall a p : Z,
    p < 2 ^ 106 ->
    (fermat_little_theorem a p = Raise (ValueError "p must be prime")
     <-> ~ Z.prime p) /\
    ((exists trial,
         fermat_little_theorem a p = Ok trial /\
         fermat_result trial = if a mod p =? 0 then 0 else 1)
     <-> Z.prime p).
Proof.
  intros a p Hsmall. pose proof exact_root_below as Hexact.
  assert (Hfits : p < float_overflow) by lia.
  destruct (is_prime_returns p (or_introl Hfits)) as [[|] Hrun].
  - assert (Hprime : Z.prime p) by now apply (is_prime_sound p true Hrun).
    pose proof (Z.prime_ge_2 p Hprime) as Hp2.
    rewrite (fermat_little_theorem_run a p Hprime Hrun).
    split; split; intros H; try discriminate; try contradiction;
      try exact Hprime.
    eexists. split; [reflexivity |]. cbn [fermat_result].
    destruct (Z.eqb_spec (a mod p) 0) as [Hz | Hnz].
    + rewrite <- Z.mod_pow_l, Hz. rewrite Z.pow_0_l by lia.
      apply Z.mod_0_l. lia.
    + apply fermat_little; [exact Hprime |].
      intros Hdiv. apply Hnz. apply Z.mod_divide; [lia | exact Hdiv].
  - assert (Hnot : ~ Z.prime p).
    { intros Hp. apply (is_prime_sound p false Hrun) in Hp. discriminate. }
    unfold fermat_little_theorem. rewrite Hrun. cbn [bind negb].
    split; split; intros H; try reflexivity; try exact Hnot;
      try contradiction.
    destruct H as (trial & Hok & _). discriminate.
Qed.

Lemma fermat_little_theorem_outcome_witness :
  7 < 2 ^ 106 /\ Z.prime 7 /\
  exists trial, fermat_little_theorem 14 7 = Ok trial /\ fermat_result trial = 0.
Proof.
  assert (H7 : Z.prime 7)
    by (apply is_prime_true_prime; vm_compute; reflexivity).
  split; [reflexivity |]. split; [exact H7 |].
  destruct (fermat_little_theorem_outcome 14 7 ltac:(reflexivity)) as [_ Hok].
  exact (proj2 Hok H7).
Defined.

(** X23.  Whenever [fermat_little_theorem a p] returns, its list of steps
    has [min(10, p-1)] entries and the entry at position [i] (from zero)
    pairs the exponent [i+1] with [a^(i+1) mod p]. *)
Theorem fermat_little_theorem_steps :
  forall (a p : Z) (trial : FermatTrial),
    fermat_little_theorem a p = Ok trial ->
    List.length (fermat_steps trial) = Z.to_nat (Z.min 10 (p - 1)) /\
    forall i : nat,
      (i < Z.to_nat (Z.min 10 (p - 1)))%nat ->
      nth_error (fermat_steps trial) i
      = Some (Z.of_nat i + 1, a ^ (Z.of_nat i + 1) mod p).
Proof.
  intros a p trial Hrun.
  assert (Hprime : is_prime p = Ok true).
  { unfold fermat_little_theorem in Hrun.
    destruct (is_prime p) as [[|] | e |]; try discriminate. reflexivity. }
  rewrite (fermat_little_theorem_run a p) in Hrun;
    [| now apply (is_prime_sound p true Hprime) | exact Hprime].
  injection Hrun as <-. cbn [fermat_steps].
  unfold py_range.
  replace ((Z.min 10 (p - 1) + 1 - 1 + 1 - 1) / 1) with (Z.min 10 (p - 1))
    by (rewrite Z.div_1_r; ring).
  split.
  - now rewrite !length_map, length_seq.
  - intros i Hi. rewrite !nth_error_map.
    rewrite nth_error_seq. destruct (Nat.ltb_spec i (Z.to_nat (Z.min 10 (p - 1))));
      [| lia].
    cbn [option_map].
    now replace (1 + 1 * Z.of_nat (0 + i)) with (Z.of_nat i + 1) by lia.
Qed.

Lemma fermat_little_theorem_steps_witness :
  fermat_little_theorem 3 11
  = Ok {| fermat_result := 1;
          fermat_steps := [(1, 3); (2, 9); (3, 5); (4, 4); (5, 1);
                           (6, 3); (7, 9); (8, 5); (9, 4); (10, 1)] |} /\
  List.length [(1, 3); (2, 9); (3, 5); (4, 4); (5, 1);
               (6, 3); (7, 9); (8, 5); (9, 4); (10, 1)]
  = Z.to_nat (Z.min 10 (11 - 1)).
Proof.
  split; [vm_compute; reflexivity |].
  apply (fermat_little_theorem_steps 3 11
           {| fermat_result := 1;
              fermat_steps := [(1, 3); (2, 9); (3, 5); (4, 4); (5, 1);
                               (6, 3); (7, 9); (8, 5); (9, 4); (10, 1)] |}).
  vm_compute. reflexivity.
Defined.

(** * Properties of the API endpoints *)

(** X24.  When the modulus of the request (12 when the field is absent) is
    not zero, [modular_operation] always replies: with status 400 and
    ['Invalid operation'] for every operation name other than the four it
    knows, and otherwise with the value of the operation, where ['power']
    takes [a] as the base and [b] as the exponent. *)
Theorem modular_operation_replies :
  forall (a b m : option Z) (operation : option string),
    let a' := get_default a 0 in
    let b' := get_default b 0 in
    let m' := get_default m 12 in
    let name := get_default operation "add"%string in
    m' <> 0 ->
    modular_operation a b m operation
    = Ok (if String.eqb name "add" then Json200 ((a' + b') mod m')
          else if String.eqb name "subtract" then Json200 ((a' - b') mod m')
          else if String.eqb name "multiply" then Json200 ((a' * b') mod m')
          else if String.eqb name "power"
               then Json200 (if 0 <? b' then a' ^ b' mod m' else 1)
          else Json400 (Message "Invalid operation")).
Proof.
  intros a b m operation a' b' m' name Hm.
  unfold modular_operation. fold a' b' m' name.
  cbn [operations lookup].
  destruct (String.eqb name "add");
    [now rewrite mod_add_value by exact Hm |].
  destruct (String.eqb name "subtract");
    [now rewrite mod_subtract_value by exact Hm |].
  destruct (String.eqb name "multiply");
    [now rewrite mod_multiply_value by exact Hm |].
  destruct (String.eqb name "power"); [| reflexivity].
  destruct (Z.ltb_spec 0 b').
  - now rewrite mod_power_pos by assumption.
  - now rewrite mod_power_nonpos by assumption.
Qed.

Lemma modular_operation_replies_witness :
  get_default (@None Z) 12 <> 0 /\
  modular_operation (Some 7) (Some 8) None None = Ok (Json200 3) /\
  modular_operation (Some 7) (Some 8) None (Some "divide"%string)
  = Ok (Json400 (Message "Invalid operation")).
Proof.
  split; [discriminate |]. split.
  - apply (modular_operation_replies (Some 7) (Some 8) None None). discriminate.
  - apply (modular_operation_replies (Some 7) (Some 8) None (Some "divide"%string)).
    discriminate.
Defined.

(** X26.  For [p] and [q] below [2^106] (61 and 53 when absent), the view
    [rsa_generate] always replies: with status 200 and the generated key
    pair when both numbers are prime, and with status 400 and
    ['Both p and q must be prime'] otherwise. *)
Theorem rsa_generate_always_replies :
  forall p q : option Z,
    let p' := get_default p 61 in
    let q' := get_default q 53 in
    p' < 2 ^ 106 -> q' < 2 ^ 106 ->
    (Z.prime p' /\ Z.prime q' ->
     exists keys, generate_rsa_keys p' q' = Ok keys /\
                  rsa_generate p q = Ok (Json200 keys)) /\
    (~ (Z.prime p' /\ Z.prime q') ->
     rsa_generate p q
     = Ok (Json400 (Message "Both p and q must be prime"))).
Proof.
  intros p q p' q' Hpsmall Hqsmall. pose proof exact_root_below as Hexact.
  unfold rsa_generate. fold p' q'. split.
  - intros [Hp Hq].
    destruct (generate_rsa_keys_primes p' q' Hp Hq ltac:(lia) ltac:(lia))
      as [keys Hkeys].
    exists keys. split; [exact Hkeys |]. now rewrite Hkeys.
  - intros Hnot.
    now rewrite (generate_rsa_keys_not_prime p' q' ltac:(lia) ltac:(lia) Hnot).
Qed.

Lemma rsa_generate_always_replies_witness :
  get_default (@None Z) 61 < 2 ^ 106 /\ get_default (Some 57) 53 < 2 ^ 106 /\
  rsa_generate None (Some 57)
  = Ok (Json400 (Message "Both p and q must be prime")).
Proof.
  split; [reflexivity |]. split; [reflexivity |].
  destruct (rsa_generate_always_replies None (Some 57)
              ltac:(reflexivity) ltac:(reflexivity)) as [_ Hfail].
  apply Hfail. intros [_ [_ H57]].
  apply (H57 3); [split; reflexivity |]. now exists 19.
Defined.

(** X27.  For [p] below [2^106] (7 when absent), the view [fermat_verify]
    always replies: with status 200 and the trial when [p] is prime, and
    with status 400 and ['p must be prime'] otherwise. *)
Theorem fermat_verify_always_replies :
  forall a p : option Z,
    let a' := get_default a 2 in
    let p' := get_default p 7 in
    p' < 2 ^ 106 ->
    (Z.prime p' ->
     exists trial, fermat_little_theorem a' p' = Ok trial /\
                   fermat_verify a p = Ok (Json200 trial)) /\
    (~ Z.prime p' ->
     fermat_verify a p = Ok (Json400 (Message "p must be prime"))).
Proof.
  intros a p a' p' Hsmall. pose proof exact_root_below as Hexact.
  unfold fermat_verify. fold a' p'. split.
  - intros Hprime.
    rewrite (fermat_little_theorem_run a' p' Hprime
               (is_prime_prime p' Hprime ltac:(lia))).
    eexists. split; reflexivity.
  - intros Hnot. unfold fermat_little_theorem.
    rewrite (is_prime_not_prime p' Hnot ltac:(lia)). reflexivity.
Qed.

Lemma fermat_verify_always_replies_witness :
  get_default (Some 9) 7 < 2 ^ 106 /\
  fermat_verify None (Some 9) = Ok (Json400 (Message "p must be prime")).
Proof.
  split; [reflexivity |].
  destruct (fermat_verify_always_replies None (Some 9) ltac:(reflexivity))
    as [_ Hfail].
  apply Hfail. intros [_ H9]. apply (H9 3); [split; reflexivity |]. now exists 3.
Defined.

(** X28.  The views [rsa_encrypt_endpoint] and [rsa_decrypt_endpoint] catch
    nothing: when [n] is zero or absent (the default is [0]) the
    [ZeroDivisionError] of the power escapes; otherwise they reply with the
    power, which is [1] whenever the exponent is absent or not positive. *)
Theorem rsa_endpoints_outcome :
  forall message e n : option Z,
    let m' := get_default message 0 in
    let e' := get_default e 0 in
    let n' := get_default n 0 in
    rsa_encrypt_endpoint message e n
    = (if n' =? 0 then Raise ZeroDivisionError
       else Ok (Json200 (if 0 <? e' then m' ^ e' mod n' else 1))) /\
    rsa_decrypt_endpoint message e n = rsa_encrypt_endpoint message e n.
Proof.
  intros message e n m' e' n'.
  unfold rsa_decrypt_endpoint, rsa_encrypt_endpoint, rsa_decrypt, rsa_encrypt.
  fold m' e' n'. split; [| reflexivity].
  destruct (Z.eqb_spec n' 0) as [-> | Hn]; [reflexivity |].
  destruct (Z.ltb_spec 0 e').
  - now rewrite mod_power_pos by assumption.
  - now rewrite mod_power_nonpos by assumption.
Qed.

(** With a key that is not empty the loop returns on every text. *)
Lemma vigenere_loop_total (key_upper text : list Z) (decrypt : bool) :
  key_upper <> [] ->
  exists out, vigenere_loop key_upper decrypt 0 text = Ok out.
Proof.
  intros Hkey. generalize 0 as key_index.
  induction text as [| char text IH]; intros key_index.
  - now exists [].
  - cbn [vigenere_loop]. destruct (is_upper_letter char).
    + destruct (key_letter key_upper Hkey key_index) as (i & k & Hi & Hk).
      rewrite Hi. cbn [bind]. rewrite Hk. cbn [bind].
      destruct (IH (key_index + 1)) as [out Hout]. rewrite Hout.
      eexists. reflexivity.
    + destruct (IH key_index) as [out Hout]. rewrite Hout.
      eexists. reflexivity.
Qed.

(** X29.  The view [vigenere] catches nothing either: it replies with
    status 200 whenever the key (['KEY'] when absent) is not empty or the
    upper-cased text holds no letter of [A..Z], and lets the
    [ZeroDivisionError] escape when the key is present and empty and the
    upper-cased text holds such a letter. *)
Theorem vigenere_view_outcome :
  forall (text key : option (list Z)) (decrypt : option bool),
    let text' := get_default text [] in
    let key' := get_default key (codepoints "KEY") in
    (key' <> [] \/ has_letter (upper text') = false ->
     exists out, vigenere text key decrypt = Ok (Json200 out)) /\
    (key' = [] -> has_letter (upper text') = true ->
     vigenere text key decrypt = Raise ZeroDivisionError).
Proof.
  intros text key decrypt text' key'. unfold vigenere. fold text' key'.
  split.
  - intros [Hkey | Hletter].
    + destruct (vigenere_loop_total (upper key') (upper text')
                  (get_default decrypt false) (upper_nonempty key' Hkey))
        as [out Hout].
      unfold vigenere_cipher. rewrite Hout. eexists. reflexivity.
    + destruct key' as [| c rest] eqn:Hkey.
      * unfold vigenere_cipher.
        change (upper []) with (@nil Z).
        rewrite vigenere_loop_empty_key, Hletter. eexists. reflexivity.
      * destruct (vigenere_loop_total (upper (c :: rest)) (upper text')
                    (get_default decrypt false)
                    (upper_nonempty (c :: rest) ltac:(discriminate)))
          as [out Hout].
        unfold vigenere_cipher. rewrite Hout. eexists. reflexivity.
  - intros -> Hletter. unfold vigenere_cipher.
    change (upper []) with (@nil Z).
    now rewrite vigenere_loop_empty_key, Hletter.
Qed.
